(** * MacXcodeMatch: the text-normalisation core of the two scrapers

    A shallow embedding of [macos_compat_scraper.py] and
    [xcode_releases_scraper.py].  Python strings are lists of Unicode code
    points; the regular expressions of the source are transcribed into a small
    abstract syntax and run by a backtracking matcher with the priority order of
    Python's [re] module (greedy repetition, leftmost alternative first). *)

From Stdlib Require Import String Ascii.
From Stdlib Require Import List NArith Bool Arith Lia.
Import ListNotations.

Set Implicit Arguments.

(** ** Python strings *)

Module Py.

Definition char := N.
Definition str := list char.

(** An ASCII literal of the source as a list of code points. *)
Definition lit (s : string) : str := map N_of_ascii (list_ascii_of_string s).

(** The code point of an ASCII character of the source. *)
Definition ord (a : ascii) : char := N_of_ascii a.
Arguments ord a%_char.

Fixpoint str_eqb (a b : str) : bool :=
  match a, b with
  | [], [] => true
  | x :: a', y :: b' => N.eqb x y && str_eqb a' b'
  | _, _ => false
  end.

Definition is_ascii (c : char) : bool := (c <? 128)%N.
Definition ascii_digit (c : char) : bool := ((48 <=? c) && (c <=? 57))%N.
Definition ascii_upper (c : char) : bool := ((65 <=? c) && (c <=? 90))%N.
Definition ascii_lower_case (c : char) : bool := ((97 <=? c) && (c <=? 122))%N.
(** [str.isspace] on ASCII: TAB..CR, FS..US and the space. *)
Definition ascii_space (c : char) : bool :=
  (((9 <=? c) && (c <=? 13)) || ((28 <=? c) && (c <=? 32)))%N.
Definition ascii_word (c : char) : bool :=
  ascii_digit c || ascii_upper c || ascii_lower_case c || (c =? 95)%N.
Definition ascii_lower (c : char) : char :=
  if ascii_upper c then (c + 32)%N else c.

(** The Unicode character database is not part of the repository: what Python
    takes from it for code points above ASCII is a parameter, together with the
    two facts about it that the proofs use. *)
Class Unicode := {
  (** [Py_UNICODE_TODECIMAL]: the value of a decimal digit, if it is one *)
  uni_decimal : char -> option N;
  (** [Py_UNICODE_ISSPACE] *)
  uni_space : char -> bool;
  (** [Py_UNICODE_ISALNUM] *)
  uni_alnum : char -> bool;
  (** [str.lower] on a string that is not pure ASCII *)
  uni_lower : str -> str;
  (** [uni_caseless p c]: [c] matches the pattern letter [p] under
      [re.IGNORECASE] *)
  uni_caseless : char -> char -> bool;
  uni_decimal_not_space :
    forall c v, uni_decimal c = Some v -> uni_space c = false;
  uni_lower_ascii :
    forall s c, In c s -> (c < 128)%N -> In (ascii_lower c) (uni_lower s)
}.

Lemma ascii_only_decimal_not_space :
  forall (c : char) (v : N), @None N = Some v -> false = false.
Proof. reflexivity. Qed.

Lemma ascii_only_lower_ascii :
  forall (s : str) (c : char),
    In c s -> (c < 128)%N -> In (ascii_lower c) (map ascii_lower s).
Proof. intros s c H _. now apply in_map. Qed.

(** The database that knows no character above ASCII. *)
Definition ascii_only : Unicode := {|
  uni_decimal := fun _ => None;
  uni_space := fun _ => false;
  uni_alnum := fun _ => false;
  uni_lower := map ascii_lower;
  uni_caseless := fun _ _ => false;
  uni_decimal_not_space := ascii_only_decimal_not_space;
  uni_lower_ascii := ascii_only_lower_ascii
|}.

Section Strings.
Context {U : Unicode}.

(** [\d] of a [str] pattern *)
Definition isdecimal (c : char) : bool :=
  if is_ascii c then ascii_digit c
  else match uni_decimal c with Some _ => true | None => false end.

Definition decimal_value (c : char) : N :=
  if is_ascii c then (c - 48)%N
  else match uni_decimal c with Some v => v | None => 0%N end.

(** [\s], and the characters [str.strip()] removes *)
Definition isspace (c : char) : bool :=
  if is_ascii c then ascii_space c else uni_space c.

(** [\w] *)
Definition isword (c : char) : bool :=
  if is_ascii c then ascii_word c else uni_alnum c.

(** a pattern letter under [re.IGNORECASE] *)
Definition caseless (p c : char) : bool :=
  if is_ascii c then (ascii_lower c =? ascii_lower p)%N else uni_caseless p c.

(** [str.lower] *)
Definition lower (s : str) : str :=
  if forallb is_ascii s then map ascii_lower s else uni_lower s.

(** The value of a run of decimal digits. *)
Definition decimal_number (s : str) : N :=
  fold_left (fun acc c => (10 * acc + decimal_value c)%N) s 0%N.

(** [sys.int_info.default_max_str_digits]: the largest number of digits that
    [int] converts.  The scripts never call [sys.set_int_max_str_digits], so
    the default is in force. *)
Definition int_max_str_digits : nat := 4300.

(** [int(s)] on a run of decimal digits.  [None] is the [ValueError] that
    [int] raises when the run has more than [int_max_str_digits] digits,
    leading zeros counted. *)
Definition int (s : str) : option N :=
  if int_max_str_digits <? length s then None else Some (decimal_number s).

Fixpoint dropwhile (p : char -> bool) (s : str) : str :=
  match s with
  | [] => []
  | c :: t => if p c then dropwhile p t else s
  end.

Fixpoint takewhile (p : char -> bool) (s : str) : str :=
  match s with
  | [] => []
  | c :: t => if p c then c :: takewhile p t else []
  end.

Definition strip_by (p : char -> bool) (s : str) : str :=
  rev (dropwhile p (rev (dropwhile p s))).

(** [s.strip()] *)
Definition strip (s : str) : str := strip_by isspace s.

Definition one_of (cs : str) (c : char) : bool := existsb (N.eqb c) cs.

(** [s.strip(chars)] *)
Definition strip_chars (cs : str) (s : str) : str := strip_by (one_of cs) s.

(** [s.split(sep)] for a separator of one character *)
Fixpoint split_on (sep : char) (s : str) : list str :=
  match s with
  | [] => [[]]
  | c :: t =>
      if (c =? sep)%N then [] :: split_on sep t
      else match split_on sep t with
           | p :: ps => (c :: p) :: ps
           | [] => [[c]]
           end
  end.

(** [s.split()]: the maximal runs of characters that are not whitespace *)
Fixpoint split_ws_go (cur : str) (s : str) : list str :=
  match s with
  | [] => match cur with [] => [] | _ => [rev cur] end
  | c :: t =>
      if isspace c
      then match cur with [] => split_ws_go [] t | _ => rev cur :: split_ws_go [] t end
      else split_ws_go (c :: cur) t
  end.
Definition split_ws (s : str) : list str := split_ws_go [] s.

(** [sep.join(l)] *)
Fixpoint join (sep : str) (l : list str) : str :=
  match l with
  | [] => []
  | [x] => x
  | x :: l' => x ++ sep ++ join sep l'
  end.

Fixpoint startswith (p s : str) : bool :=
  match p, s with
  | [], _ => true
  | x :: p', y :: s' => (x =? y)%N && startswith p' s'
  | _ :: _, [] => false
  end.

(** [sub in s] *)
Fixpoint contains (sub s : str) : bool :=
  startswith sub s ||
  match s with
  | [] => false
  | _ :: t => contains sub t
  end.

(** [s.replace(old, new)] for a non-empty [old]: leftmost occurrences that do
    not overlap; [skip] counts the characters of an occurrence still to pass. *)
Fixpoint replace_go (old new : str) (skip : nat) (s : str) : str :=
  match s with
  | [] => []
  | c :: t =>
      match skip with
      | S k => replace_go old new k t
      | O => if startswith old s
             then new ++ replace_go old new (length old - 1) t
             else c :: replace_go old new 0 t
      end
  end.
Definition replace (old new s : str) : str := replace_go old new 0 s.

End Strings.

(** ** Regular expressions, as [re] runs them *)

Inductive regex :=
| Eps
| Class (p : char -> bool)
| Seq (a b : regex)
| Alt (a b : regex)
| Star (a : regex)
| Group (n : nat) (a : regex)
| WordB.

Record mstate := MState {
  prev : option char;          (* the character before the position *)
  rest : str;                  (* the text from the position on *)
  groups : list (nat * str)    (* the groups captured so far, newest first *)
}.

(** the text between two positions of one string, given what is left at each *)
Definition consumed (from to : str) : str :=
  firstn (length from - length to) from.

Section Matcher.
Context {U : Unicode}.

Definition is_word_opt (c : option char) : bool :=
  match c with Some c => isword c | None => false end.

(** [\b]: exactly one side of the position is a word character *)
Definition at_boundary (st : mstate) : bool :=
  xorb (is_word_opt (prev st)) (is_word_opt (hd_error (rest st))).

(** Greedy repetition: one more round of the body (only a round that consumes
    text is pursued), and, with less priority, stopping here. *)
Fixpoint star (step : mstate -> list mstate) (fuel : nat) (st : mstate)
  : list mstate :=
  match fuel with
  | O => [st]
  | S f =>
      flat_map
        (fun st' =>
           if length (rest st') <? length (rest st) then star step f st' else [])
        (step st)
      ++ [st]
  end.

(** All the ways in which [r] matches at [st], in the order in which the
    backtracking matcher of [re] tries them. *)
Fixpoint run (r : regex) (st : mstate) : list mstate :=
  match r with
  | Eps => [st]
  | Class p =>
      match rest st with
      | c :: t => if p c then [MState (Some c) t (groups st)] else []
      | [] => []
      end
  | Seq a b => flat_map (run b) (run a st)
  | Alt a b => run a st ++ run b st
  | Star a => star (run a) (length (rest st)) st
  | Group n a =>
      map (fun st' =>
             MState (prev st') (rest st')
                    ((n, consumed (rest st) (rest st')) :: groups st'))
          (run a st)
  | WordB => if at_boundary st then [st] else []
  end.

End Matcher.

Definition Ch (c : char) : regex := Class (N.eqb c).
Definition Plus (a : regex) : regex := Seq a (Star a).
Definition Opt (a : regex) : regex := Alt a Eps.
Fixpoint Lit (s : str) : regex :=
  match s with
  | [] => Eps
  | c :: t => Seq (Ch c) (Lit t)
  end.

(** A match object: the text before the match, the match, the text after it
    and the groups. *)
Record rmatch := RMatch {
  m_pre : str;
  m_text : str;
  m_post : str;
  m_groups : list (nat * str)
}.

Fixpoint assoc (n : nat) (l : list (nat * str)) : option str :=
  match l with
  | [] => None
  | (k, v) :: l' => if Nat.eqb k n then Some v else assoc n l'
  end.

(** [m.group(n)], [None] for a group that took no part in the match *)
Definition group (m : rmatch) (n : nat) : option str := assoc n (m_groups m).

Section Re.
Context {U : Unicode}.

Definition LitI (s : str) : regex :=
  fold_right (fun c r => Seq (Class (caseless c)) r) Eps s.

Definition try_match (r : regex) (p : option char) (s : str) : option mstate :=
  hd_error (run r (MState p s [])).

(** [re.search]: the first position, from the left, at which the pattern
    matches. *)
Fixpoint search_at (r : regex) (pre_rev : str) (s : str) : option rmatch :=
  match try_match r (hd_error pre_rev) s with
  | Some st =>
      Some (RMatch (rev pre_rev) (consumed s (rest st)) (rest st) (groups st))
  | None =>
      match s with
      | [] => None
      | c :: t => search_at r (c :: pre_rev) t
      end
  end.
Definition search (r : regex) (s : str) : option rmatch := search_at r [] s.

(** [re.fullmatch], as a truth value *)
Definition fullmatch (r : regex) (s : str) : bool :=
  existsb (fun st => match rest st with [] => true | _ => false end)
          (run r (MState None s [])).

(** The successive matches that do not overlap, as [re.finditer] yields them;
    [skip] counts the characters of the last match still to pass.  After an
    empty match the scan moves on by one character; the patterns that the
    sources hand to [findall] and [sub] never match the empty string (lemma
    [patterns_consume]). *)
Fixpoint finditer_go (r : regex) (pre_rev : str) (skip : nat) (s : str)
  : list rmatch :=
  match s with
  | [] =>
      match skip, try_match r (hd_error pre_rev) [] with
      | O, Some st => [RMatch (rev pre_rev) [] [] (groups st)]
      | _, _ => []
      end
  | c :: t =>
      match skip with
      | S k => finditer_go r (c :: pre_rev) k t
      | O =>
          match try_match r (hd_error pre_rev) s with
          | Some st =>
              RMatch (rev pre_rev) (consumed s (rest st)) (rest st) (groups st)
              :: finditer_go r (c :: pre_rev)
                             (length s - length (rest st) - 1) t
          | None => finditer_go r (c :: pre_rev) 0 t
          end
      end
  end.
Definition finditer (r : regex) (s : str) : list rmatch :=
  finditer_go r [] 0 s.

(** [re.sub(r, repl, s)] for a replacement without group references *)
Fixpoint sub_go (r : regex) (repl : str) (p : option char) (skip : nat)
  (s : str) : str :=
  match s with
  | [] =>
      match skip, try_match r p [] with
      | O, Some _ => repl
      | _, _ => []
      end
  | c :: t =>
      match skip with
      | S k => sub_go r repl (Some c) k t
      | O =>
          match try_match r p s with
          | Some st =>
              match length s - length (rest st) with
              | O => repl ++ c :: sub_go r repl (Some c) 0 t
              | S k => repl ++ sub_go r repl (Some c) k t
              end
          | None => c :: sub_go r repl (Some c) 0 t
          end
      end
  end.
Definition re_sub (r : regex) (repl s : str) : str := sub_go r repl None 0 s.

End Re.

End Py.

(** ** macos_compat_scraper.py *)

Module MacosCompat.
Import Py.

(** What the HTML library hands to [parse_table]: the text of every [th] of
    the table, and for every [tr] the texts of its cells, each as
    [get_text(" ", strip=True)] returns it. *)
Record table := Table {
  th_texts : list str;
  tr_cells : list (list str)
}.

(** A raw row, and a cleaned record of the output. *)
Record row := Row {
  os : str;
  supported_systems : list str
}.

Definition nonempty (s : str) : bool :=
  match s with [] => false | _ :: _ => true end.

Definition enumerate {A : Type} (l : list A) : list (nat * A) :=
  combine (seq 0 (length l)) l.

Section Scraper.
Context {U : Unicode}.

Definition digits : regex := Plus (Class isdecimal).
Definition spaces : regex := Star (Class isspace).
Definition dot : regex := Ch (ord ".").

(** [\d+(?:\.\d+)*] *)
Definition version : regex := Seq digits (Star (Seq dot digits)).

(** the class of the en dash (U+2013), the em dash (U+2014) and the hyphen *)
Definition dash : regex := Class (one_of [8211%N; 8212%N; ord "-"]).

(** [\d+(?:\.\d+)*\s*D\s*\d+(?:\.\d+)*], with [D] for the class [dash] *)
Definition version_range : regex :=
  Seq version (Seq spaces (Seq dash (Seq spaces version))).

(** The loop over the headers in [parse_table]: one step, on the pair
    [(idx_os, idx_sup)]. *)
Definition header_step (acc : option nat * option nat) (ih : nat * str)
  : option nat * option nat :=
  let hl := lower (snd ih) in
  let idx_os :=
    if startswith (lit "operating system") hl then Some (fst ih) else fst acc in
  let idx_sup :=
    if startswith (lit "supported systems") hl then Some (fst ih) else snd acc in
  (idx_os, idx_sup).

Definition header_indices (headers : list str) : option nat * option nat :=
  fold_left header_step (enumerate headers) (None, None).

(** The body of the loop over the rows: [None] for a row that is passed over. *)
Definition parse_row (idx_os idx_sup : nat) (cells : list str) : option row :=
  if length cells <=? Nat.max idx_os idx_sup then None
  else
    let os_text := join (lit " ") (split_ws (nth idx_os cells [])) in
    let sup_text := nth idx_sup cells [] in
    let raw_items :=
      map (fun p => strip_chars (lit ",") (strip p))
          (filter (fun p => nonempty (strip p)) (split_on (ord ",") sup_text)) in
    Some (Row os_text raw_items).

(** [parse_table]; [None] stands for the [RuntimeError] on unexpected
    headers. *)
Definition parse_table (t : table) : option (list row) :=
  match header_indices (th_texts t) with
  | (Some idx_os, Some idx_sup) =>
      Some (flat_map
              (fun cells =>
                 match parse_row idx_os idx_sup cells with
                 | Some r => [r]
                 | None => []
                 end)
              (tl (tr_cells t)))
  | _ => None
  end.

(** [LABEL_PAT = \b(Laptops?|Desktops?)\s*:\s*], with [re.IGNORECASE] *)
Definition LABEL_PAT : regex :=
  Seq WordB
      (Seq (Group 1 (Alt (Seq (LitI (lit "Laptop")) (Opt (Class (caseless (ord "s")))))
                         (Seq (LitI (lit "Desktop")) (Opt (Class (caseless (ord "s")))))))
           (Seq spaces (Seq (Ch (ord ":")) spaces))).

(** The [while True] loop of [split_category_labels], returning what it
    appends to [parts]; every round shortens [s], so that a fuel above the
    length of [s] is never used up (lemmas [split_labels_fuel] and
    [split_labels_loop]). *)
Fixpoint split_labels (fuel : nat) (s : str) : list str :=
  match fuel with
  | O => []
  | S f =>
      match search LABEL_PAT s with
      | None => if nonempty s then [strip_chars (lit " ,") s] else []
      | Some m =>
          let left := strip_chars (lit " ,") (m_pre m) in
          (if nonempty left then [left] else [])
          ++ split_labels f (strip (m_post m))
      end
  end.

Definition split_category_labels (text : str) : list str :=
  let s := strip text in
  split_labels (S (length s)) s.

(** [[c.strip() for c in ch.split(",") if c.strip()]] *)
Definition tokens (ch : str) : list str :=
  map strip (filter (fun c => nonempty (strip c)) (split_on (ord ",") ch)).

(** [\s{2,}] *)
Definition spaces2 : regex :=
  Seq (Class isspace) (Seq (Class isspace) (Star (Class isspace))).

(** The body of the innermost loop of [clean_supported_systems]: what one
    token adds to [out]. *)
Definition clean_token (sub : str) : list str :=
  if existsb (str_eqb (lower sub)) [lit "and"] then []
  else
    let sub' := strip_chars (lit " ,") (re_sub spaces2 (lit " ") sub) in
    if nonempty sub' then [sub'] else [].

(** The list [out] of [clean_supported_systems], before duplicates go. *)
Definition cleaned_tokens (raw_items : list str) : list str :=
  flat_map
    (fun item =>
       flat_map (fun ch => flat_map clean_token (tokens ch))
                (split_category_labels item))
    raw_items.

(** The last loop of [clean_supported_systems]: [seen] is the set of the
    strings met, the result is what is appended to [uniq]. *)
Fixpoint dedup (seen : list str) (out : list str) : list str :=
  match out with
  | [] => []
  | s :: out' =>
      if existsb (str_eqb s) seen then dedup seen out'
      else s :: dedup (s :: seen) out'
  end.

Definition clean_supported_systems (raw_items : list str) : list str :=
  dedup [] (cleaned_tokens raw_items).

Definition group1 (m : rmatch) : str :=
  match group m 1 with Some g => g | None => [] end.

Definition normalize_os (os_text : str) : str :=
  let s := strip os_text in
  if fullmatch (Seq version (Opt (Seq spaces (Seq dash (Seq spaces version))))) s
  then s
  else
    match search (Seq WordB (Seq (Group 1 version_range) WordB)) s with
    | Some m => group1 m
    | None =>
        match search (Seq WordB (Seq (Group 1 version) WordB)) s with
        | Some m => group1 m
        | None => s
        end
    end.

(** [(\d+)(?:\.(\d+))?] *)
Definition major_minor : regex :=
  Seq (Group 1 digits) (Opt (Seq dot (Group 2 digits))).

(** [None] is the [ValueError] of one of the two calls of [int]. *)
Definition should_include_os (os_str : str) : option bool :=
  match search major_minor os_str with
  | None => Some false
  | Some m =>
      match int (group1 m) with
      | None => None
      | Some major =>
          match
            match group m 2 with
            | Some g => if nonempty g then int g else Some 0%N
            | None => Some 0%N
            end
          with
          | None => None
          | Some minor =>
              Some ((11 <=? major) || ((major =? 10) && (8 <=? minor)))%N
          end
      end
  end.

(** The loop over the rows: an exception of [should_include_os] at one row
    ends it, and nothing is returned. *)
Fixpoint build_clean_json (rows : list row) : option (list row) :=
  match rows with
  | [] => Some []
  | r :: rows' =>
      let os_norm := normalize_os (strip (os r)) in
      match should_include_os os_norm with
      | None => None
      | Some keep =>
          match build_clean_json rows' with
          | None => None
          | Some cleaned =>
              Some (if keep
                    then Row os_norm
                           (clean_supported_systems (supported_systems r))
                         :: cleaned
                    else cleaned)
          end
      end
  end.

(** What [find_hardware_table] sees of the document.  A sibling node is a
    string or a tag; of a tag the function reads the name, the list of
    classes, and, once it is returned, the table data. *)
Inductive node :=
| NString (text : str)
| NTag (name : str) (classes : list str) (content : table).

(** [hardware_siblings]: [None] when [soup.find(id="Hardware_compatibility")]
    finds nothing, otherwise the [next_siblings] of the parent of what it
    finds, in order.  [wikitables]: the result of
    [soup.find_all("table", class_="wikitable")], in document order. *)
Record soup := Soup {
  hardware_siblings : option (list node);
  wikitables : list table
}.

(** The test of the loop over the siblings. *)
Definition wikitable_of (sib : node) : option table :=
  match sib with
  | NString _ => None
  | NTag name classes content =>
      if str_eqb name (lit "table")
         && existsb (str_eqb (lit "wikitable")) classes
      then Some content
      else None
  end.

Fixpoint first_wikitable (sibs : list node) : option table :=
  match sibs with
  | [] => None
  | sib :: rest =>
      match wikitable_of sib with
      | Some t => Some t
      | None => first_wikitable rest
      end
  end.

(** The test of the fallback loop: a header that starts with "operating
    system" and one that starts with "supported systems". *)
Definition has_both_headers (t : table) : bool :=
  let heads_lower := map lower (th_texts t) in
  existsb (startswith (lit "operating system")) heads_lower
  && existsb (startswith (lit "supported systems")) heads_lower.

(** [find_hardware_table]; [None] stands for the [RuntimeError]. *)
Definition find_hardware_table (doc : soup) : option table :=
  let by_id :=
    match hardware_siblings doc with
    | Some sibs => first_wikitable sibs
    | None => None
    end in
  match by_id with
  | Some t => Some t
  | None => find has_both_headers (wikitables doc)
  end.

(** The value [data] of [main], from the parsed document on; [None] when an
    exception ends the run: the [RuntimeError] of [find_hardware_table] or of
    [parse_table], or the [ValueError] of [build_clean_json]. *)
Definition main_data (doc : soup) : option (list row) :=
  match find_hardware_table doc with
  | None => None
  | Some t =>
      match parse_table t with
      | None => None
      | Some raw_rows => build_clean_json raw_rows
      end
  end.

End Scraper.
End MacosCompat.

(** ** xcode_releases_scraper.py *)

Module XcodeReleases.
Import Py.

Record table := Table {
  th_texts : list str;
  tr_cells : list (list str)
}.

(** A Python [dict] with string keys and values: the items in the order of
    insertion. *)
Definition dict := list (str * str).

(** [d[k] = v]: a key that is present keeps its place. *)
Fixpoint dict_set (k v : str) (d : dict) : dict :=
  match d with
  | [] => [(k, v)]
  | (k', v') :: d' =>
      if str_eqb k' k then (k, v) :: d' else (k', v') :: dict_set k v d'
  end.

Record release := Release {
  xcode_version : str;
  macos_version : str;
  sdks : dict
}.

Definition enumerate {A : Type} (l : list A) : list (nat * A) :=
  combine (seq 0 (length l)) l.

Section Scraper.
Context {U : Unicode}.

Definition digits : regex := Plus (Class isdecimal).
Definition spaces : regex := Star (Class isspace).
Definition spaces1 : regex := Plus (Class isspace).
Definition dot : regex := Ch (ord ".").

Definition clean_version_text (text : str) : str :=
  let text := replace (lit "&nbsp") (lit " ")
                (replace (lit "&nbsp;") (lit " ") text) in
  let text := replace [160%N] (lit " ") (replace [160%N] (lit " ") text) in
  let text :=
    replace [8212%N] (lit "-")
      (replace [8211%N] (lit "-")
         (replace [8212%N] (lit "-") (replace [8211%N] (lit "-") text))) in
  let text := re_sub spaces1 (lit " ") text in
  strip text.

(** [\d+\.(?:\d+|x)(?:\.\d+)?] *)
Definition version_x : regex :=
  Seq digits (Seq dot (Seq (Alt digits (Ch (ord "x"))) (Opt (Seq dot digits)))).

(** [\d+\.\d+(?:\.\d+)?] *)
Definition version_dotted : regex :=
  Seq digits (Seq dot (Seq digits (Opt (Seq dot digits)))).

(** [\d+(?:\.\d+)?(?:\.\d+)?] *)
Definition version_123 : regex :=
  Seq digits (Seq (Opt (Seq dot digits)) (Opt (Seq dot digits))).

(** The range pattern of [parse_macos_versions]:
    [(V)\s*D\s*(?:macOS\s+\w+\s+)?(V)] with [V] as [version_x] and [D]
    the class of the hyphen and the en dash (U+2013). *)
Definition macos_range : regex :=
  Seq (Group 1 version_x)
      (Seq spaces
           (Seq (Class (one_of [ord "-"; 8211%N]))
                (Seq spaces
                     (Seq (Opt (Seq (Lit (lit "macOS"))
                                    (Seq spaces1
                                         (Seq (Plus (Class isword)) spaces1))))
                          (Group 2 version_x))))).

Definition group_text (m : rmatch) (n : nat) : str :=
  match group m n with Some g => g | None => [] end.

Definition findall1 (r : regex) (s : str) : list str :=
  map (fun m => group_text m 1) (finditer r s).

Definition parse_macos_versions (text : str) : str :=
  let text := clean_version_text text in
  match search macos_range text with
  | Some m => group_text m 1 ++ lit " - " ++ group_text m 2
  | None =>
      let dotted := Seq WordB (Seq (Group 1 version_dotted) WordB) in
      let or_later :=
        if contains (lit "or later") (lower text)
        then match findall1 dotted text with
             | v :: _ => Some (v ++ lit "+")
             | [] => None
             end
        else None in
      match or_later with
      | Some r => r
      | None =>
          match search (Seq WordB (Seq (Group 1 version_x) WordB)) text with
          | Some m => group_text m 1
          | None =>
              match findall1 dotted text with
              | v :: _ => v
              | [] => []
              end
          end
      end
  end.

(** [(iOS|iPadOS|macOS|tvOS|watchOS|visionOS|DriverKit)\s+(\d+(?:\.\d+)?(?:\.\d+)?)],
    with [re.IGNORECASE] *)
Definition sdk_pattern : regex :=
  Seq (Group 1 (Alt (LitI (lit "iOS"))
               (Alt (LitI (lit "iPadOS"))
               (Alt (LitI (lit "macOS"))
               (Alt (LitI (lit "tvOS"))
               (Alt (LitI (lit "watchOS"))
               (Alt (LitI (lit "visionOS")) (LitI (lit "DriverKit")))))))))
      (Seq spaces1 (Group 2 version_123)).

Definition parse_sdk_column (text : str) : dict :=
  let text := clean_version_text text in
  fold_left
    (fun sdks m => dict_set (strip (group_text m 1)) (group_text m 2) sdks)
    (finditer sdk_pattern text) [].

(** The loop over the headers in [parse_table]: one step, on
    [(idx_xcode, idx_macos, idx_sdk)]. *)
Definition header_step (acc : option nat * option nat * option nat)
  (ih : nat * str) : option nat * option nat * option nat :=
  let '(idx_xcode, idx_macos, idx_sdk) := acc in
  let '(i, h) := ih in
  if contains (lit "xcode") h then (Some i, idx_macos, idx_sdk)
  else if contains (lit "macos") h || contains (lit "minimum") h
          || contains (lit "os") h
       then (idx_xcode, Some i, idx_sdk)
  else if contains (lit "sdk") h then (idx_xcode, idx_macos, Some i)
  else acc.

Definition header_indices (headers : list str)
  : option nat * option nat * option nat :=
  fold_left header_step (enumerate headers) (None, None, None).

(** [max(filter(lambda x: x is not None, [idx_xcode, idx_macos, idx_sdk]))] *)
Definition max_index (idx_xcode : nat) (idx_macos idx_sdk : option nat) : nat :=
  fold_left Nat.max
    (flat_map (fun o => match o with Some i => [i] | None => [] end)
              [idx_macos; idx_sdk])
    idx_xcode.

(** The body of the loop over the rows: [None] for a row that is passed over
    ([continue]). *)
Definition parse_row (idx_xcode : nat) (idx_macos idx_sdk : option nat)
  (cells : list str) : option release :=
  if length cells <=? max_index idx_xcode idx_macos idx_sdk then None
  else
    let xcode_text := clean_version_text (nth idx_xcode cells []) in
    match search (Seq WordB (Seq (Group 1 version_123) WordB)) xcode_text with
    | None => None
    | Some xcode_match =>
        let xcode_version := group_text xcode_match 1 in
        let macos_version :=
          match idx_macos with
          | Some i =>
              if i <? length cells then parse_macos_versions (nth i cells [])
              else []
          | None => []
          end in
        let sdks :=
          match idx_sdk with
          | Some i =>
              if i <? length cells then parse_sdk_column (nth i cells [])
              else []
          | None => []
          end in
        Some (Release xcode_version macos_version sdks)
    end.

Definition parse_rows (idx_xcode : nat) (idx_macos idx_sdk : option nat)
  (rows : list (list str)) : list release :=
  flat_map
    (fun cells =>
       match parse_row idx_xcode idx_macos idx_sdk cells with
       | Some r => [r]
       | None => []
       end)
    rows.

(** [parse_table]; [None] stands for the [RuntimeError] raised when no header
    names Xcode. *)
Definition parse_table (t : table) : option (list release) :=
  match header_indices (map lower (th_texts t)) with
  | (Some idx_xcode, idx_macos, idx_sdk) =>
      Some (parse_rows idx_xcode idx_macos idx_sdk (tl (tr_cells t)))
  | (None, _, _) => None
  end.

(** [find_xcode_tables], over the tables of the document in document order *)
Definition find_xcode_tables (doc : list table) : option (list table) :=
  match filter
          (fun t => existsb (contains (lit "xcode")) (map lower (th_texts t)))
          doc with
  | [] => None
  | tables => Some tables
  end.

(** The list [all_data] of [main]: the rows of all tables, table after table;
    [None] when a [RuntimeError] ends the run. *)
Fixpoint parse_tables (tables : list table) : option (list release) :=
  match tables with
  | [] => Some []
  | t :: ts =>
      match parse_table t with
      | None => None
      | Some rows =>
          match parse_tables ts with
          | None => None
          | Some more => Some (rows ++ more)
          end
      end
  end.

Definition all_data (doc : list table) : option (list release) :=
  match find_xcode_tables doc with
  | None => None
  | Some tables => parse_tables tables
  end.

End Scraper.
End XcodeReleases.

(** * The notions in which the properties are stated *)

Module Spec.
Import Py.

(** The words a pattern can consume, whatever stands around them: [\b] is
    read as the empty word. *)
Inductive lang : regex -> str -> Prop :=
| L_eps : lang Eps []
| L_class p c : p c = true -> lang (Class p) [c]
| L_seq a b u v : lang a u -> lang b v -> lang (Seq a b) (u ++ v)
| L_alt_l a b u : lang a u -> lang (Alt a b) u
| L_alt_r a b u : lang b u -> lang (Alt a b) u
| L_star_nil a : lang (Star a) []
| L_star_cons a u v :
    u <> [] -> lang a u -> lang (Star a) v -> lang (Star a) (u ++ v)
| L_group n a u : lang a u -> lang (Group n a) u
| L_wordb : lang WordB [].

Fixpoint wordb_free (r : regex) : bool :=
  match r with
  | Eps | Class _ => true
  | Seq a b | Alt a b => wordb_free a && wordb_free b
  | Star a | Group _ a => wordb_free a
  | WordB => false
  end.

Fixpoint group_free (r : regex) : bool :=
  match r with
  | Eps | Class _ | WordB => true
  | Seq a b | Alt a b => group_free a && group_free b
  | Star a => group_free a
  | Group _ _ => false
  end.

(** [nullable r] holds when [r] may match the empty string. *)
Fixpoint nullable (r : regex) : bool :=
  match r with
  | Eps | Star _ | WordB => true
  | Class _ => false
  | Seq a b => nullable a && nullable b
  | Alt a b => nullable a || nullable b
  | Group _ a => nullable a
  end.

(** [\b(r)\b] *)
Definition token_of (r : regex) : regex := Seq WordB (Seq (Group 1 r) WordB).

(** the character before the position reached after reading [w] *)
Fixpoint last_prev (p : option char) (w : str) : option char :=
  match w with
  | [] => p
  | c :: t => last_prev (Some c) t
  end.

(** Neither end of [s] satisfies [p]. *)
Definition clean_ends (p : char -> bool) (s : str) : Prop :=
  (forall c t, s = c :: t -> p c = false) /\
  (forall t c, s = t ++ [c] -> p c = false).

(** Both ends of [w] satisfy [p]. *)
Definition ends_in (p : char -> bool) (w : str) : Prop :=
  (exists c t, w = c :: t /\ p c = true) /\
  (exists t c, w = t ++ [c] /\ p c = true).

Definition space : char := ord " ".
Definition comma : char := ord ",".

(** *** Columns *)

(** The index, counted from [i], of the last header that satisfies [p], and
    of the first. *)
Fixpoint last_index_from (p : str -> bool) (i : nat) (l : list str)
  : option nat :=
  match l with
  | [] => None
  | h :: t =>
      match last_index_from p (S i) t with
      | Some j => Some j
      | None => if p h then Some i else None
      end
  end.
Definition last_index (p : str -> bool) (l : list str) : option nat :=
  last_index_from p 0 l.

Fixpoint first_index_from (p : str -> bool) (i : nat) (l : list str)
  : option nat :=
  match l with
  | [] => None
  | h :: t => if p h then Some i else first_index_from p (S i) t
  end.
Definition first_index (p : str -> bool) (l : list str) : option nat :=
  first_index_from p 0 l.

Definition or_else (a b : option nat) : option nat :=
  match a with Some j => Some j | None => b end.

Definition index_or_0 (o : option nat) : nat :=
  match o with Some i => i | None => 0 end.

(** The roles of the Xcode pipeline: a header is tried for them in this
    order, and takes the first that fits. *)
Definition is_xcode (h : str) : bool := contains (lit "xcode") h.
Definition is_macos (h : str) : bool :=
  negb (is_xcode h) &&
  (contains (lit "macos") h || contains (lit "minimum") h
   || contains (lit "os") h).
Definition is_sdk (h : str) : bool :=
  negb (is_xcode h) && negb (is_macos h) && contains (lit "sdk") h.

(** *** Sample texts *)

(** A run of 4301 digits [1], one more than [int] converts. *)
Definition long_run : str := repeat (ord "1") (S int_max_str_digits).

(** A range of the Xcode page in which the second name has two words. *)
Definition two_word_range : str :=
  lit "macOS Catalina 10.15.4 - macOS Big Sur 11.x".

(** *** Sample tables of the Xcode page *)

(** A table of three rows under its header row; the second has no version in
    the Xcode cell. *)
Definition sample_table : XcodeReleases.table :=
  XcodeReleases.Table
    [lit "Xcode"; lit "Minimum OS"; lit "SDK"]
    [[lit "Xcode"; lit "Minimum OS"; lit "SDK"];
     [lit "Xcode 15.0.1"; lit "macOS Ventura 13.5 or later"; lit "iOS 17.0"];
     [lit "Xcode beta"; lit "macOS Sonoma 14.0 or later"; lit "iOS 17.2"];
     [lit "Xcode 14"; lit "macOS Monterey 12.5"; lit "macOS 13"]].

(** A table with the three columns and a row that has the Xcode cell only,
    and the same row in a table that has the Xcode column only. *)
Definition short_row_table : XcodeReleases.table :=
  XcodeReleases.Table
    [lit "Xcode"; lit "Minimum OS"; lit "SDK"]
    [[lit "Xcode"; lit "Minimum OS"; lit "SDK"]; [lit "Xcode 15.0"]].

Definition one_column_table : XcodeReleases.table :=
  XcodeReleases.Table [lit "Xcode"] [[lit "Xcode"]; [lit "Xcode 15.0"]].

Section Spec.
Context {U : Unicode}.

(** *** The inclusion filter *)

(** The threshold, as the specification words it. *)
Definition threshold (major minor : N) : bool :=
  ((11 <=? major) || ((major =? 10) && (8 <=? minor)))%N.

(** The first numeric token [major(.minor)?] of a text, read off by a scan from
    the left: the first decimal digit starts it, [major] is the run of digits
    from there, and [minor] the run of digits behind a dot that follows
    directly, when there is one. *)
Fixpoint first_token (s : str) : option (str * option str) :=
  match s with
  | [] => None
  | c :: t =>
      if isdecimal c then
        Some (c :: takewhile isdecimal t,
              match dropwhile isdecimal t with
              | d :: fr =>
                  if (d =? ord ".")%N && MacosCompat.nonempty (takewhile isdecimal fr)
                  then Some (takewhile isdecimal fr)
                  else None
              | [] => None
              end)
      else first_token t
  end.

(** The value of [minor], 0 when the token has none. *)
Definition minor_or_0 (minor : option str) : N :=
  match minor with Some m => decimal_number m | None => 0%N end.

(** The number of digits of [minor], 0 when the token has none. *)
Definition minor_digits (minor : option str) : nat :=
  match minor with Some m => length m | None => 0 end.

(** One of the two runs of digits of the token is longer than [int]
    converts. *)
Definition too_long (major : str) (minor : option str) : bool :=
  (int_max_str_digits <? length major) ||
  (int_max_str_digits <? minor_digits minor).

Definition include_spec (s : str) : option bool :=
  match first_token s with
  | None => Some false
  | Some (major, minor) =>
      if too_long major minor then None
      else Some (threshold (decimal_number major) (minor_or_0 minor))
  end.

(** *** Versions and ranges *)

(** A run of decimal digits that is not empty. *)
Definition is_number (d : str) : Prop :=
  d <> [] /\ forallb isdecimal d = true.

(** The grammar [digits(.digits)*] of a bare version. *)
Inductive bare_version : str -> Prop :=
| BV_last d : is_number d -> bare_version d
| BV_dot d v :
    is_number d -> bare_version v -> bare_version (d ++ ord "." :: v).

(** An en dash, an em dash or a hyphen. *)
Definition is_dash (c : char) : Prop :=
  c = 8211%N \/ c = 8212%N \/ c = ord "-".

(** A bare version, or two of them around a dash, with or without whitespace
    on either side of the dash. *)
Inductive version_or_range : str -> Prop :=
| VR_version v : bare_version v -> version_or_range v
| VR_range a ws1 d ws2 b :
    bare_version a -> forallb isspace ws1 = true -> is_dash d ->
    forallb isspace ws2 = true -> bare_version b ->
    version_or_range (a ++ ws1 ++ d :: ws2 ++ b).

(** One, two or three numbers, with a dot between two of them. *)
Inductive dotted_numeric : str -> Prop :=
| DN1 a : is_number a -> dotted_numeric a
| DN2 a b : is_number a -> is_number b -> dotted_numeric (a ++ ord "." :: b)
| DN3 a b c :
    is_number a -> is_number b -> is_number c ->
    dotted_numeric (a ++ ord "." :: b ++ ord "." :: c).

(** No character of [s] is a decimal digit. *)
Definition no_digit (s : str) : bool :=
  forallb (fun c => negb (isdecimal c)) s.

(** *** Names for patterns of the sources *)

(** The pattern of the [re.fullmatch] in [normalize_os]. *)
Definition full_pattern : regex :=
  Seq MacosCompat.version
      (Opt (Seq MacosCompat.spaces
                (Seq MacosCompat.dash
                     (Seq MacosCompat.spaces MacosCompat.version)))).

(** The pattern of the strictly dotted tokens, [\b(\d+\.\d+(?:\.\d+)?)\b]. *)
Definition dotted_token : regex :=
  Seq WordB (Seq (Group 1 XcodeReleases.version_dotted) WordB).

(** The pattern of the search in the Xcode cell,
    [\b(\d+(?:\.\d+)?(?:\.\d+)?)\b]. *)
Definition xcode_token : regex :=
  Seq WordB (Seq (Group 1 XcodeReleases.version_123) WordB).

(** What the range pattern of [parse_macos_versions] has between its two
    version tokens, [\s*D\s*(?:macOS\s+\w+\s+)?] with [D] the class of the
    hyphen and the en dash: the dash, and a phrase of "macOS" and one word. *)
Definition range_gap : regex :=
  Seq XcodeReleases.spaces
      (Seq (Class (one_of [ord "-"; 8211%N]))
           (Seq XcodeReleases.spaces
                (Opt (Seq (Lit (lit "macOS"))
                          (Seq XcodeReleases.spaces1
                               (Seq (Plus (Class isword))
                                    XcodeReleases.spaces1)))))).

(** The text [c] holds a range after [u]: a version token, the dash with an
    optional phrase of "macOS" and one word, and a version token. *)
Definition range_at (c u : str) : Prop :=
  exists w post, c = u ++ w ++ post /\ lang XcodeReleases.macos_range w.

(** The text holds a range somewhere. *)
Definition has_range (c : str) : Prop := exists u, range_at c u.

(** The first strictly dotted token of a text, from the left. *)
Definition first_dotted (c : str) : option str :=
  match search dotted_token c with
  | Some m => Some (XcodeReleases.group_text m 1)
  | None => None
  end.

(** [re.sub(r"\s{2,}", " ", s)], from a position on *)
Definition collapse (p : option char) (s : str) : str :=
  sub_go MacosCompat.spaces2 (lit " ") p 0 s.

(** The [while True] loop of [split_category_labels] as a relation between the
    text [s] on entry and what the loop and the statement behind it append to
    [parts]. *)
Inductive label_loop : str -> list str -> Prop :=
| LL_break s :
    search MacosCompat.LABEL_PAT s = None ->
    label_loop s (if MacosCompat.nonempty s
                  then [strip_chars (lit " ,") s] else [])
| LL_round s m parts :
    search MacosCompat.LABEL_PAT s = Some m ->
    label_loop (strip (m_post m)) parts ->
    label_loop s ((if MacosCompat.nonempty (strip_chars (lit " ,") (m_pre m))
                   then [strip_chars (lit " ,") (m_pre m)] else [])
                  ++ parts).

(** The roles of the macOS pipeline. *)
Definition is_os (h : str) : bool :=
  startswith (lit "operating system") (lower h).
Definition is_sup (h : str) : bool :=
  startswith (lit "supported systems") (lower h).

(** *** Shapes of texts *)

(** [w] stands in [s] as one piece. *)
Definition part_of (w s : str) : Prop := exists a b, s = a ++ w ++ b.

(** A word: not empty, and without whitespace. *)
Definition word (w : str) : Prop :=
  w <> [] /\ forallb (fun c => negb (isspace c)) w = true.

(** The only whitespace of [y] is the space, and no two whitespace characters
    stand side by side. *)
Definition single_spaced (y : str) : Prop :=
  forall a c b,
    y = a ++ c :: b -> isspace c = true ->
    c = space /\ forall d b', b = d :: b' -> isspace d = false.

(** An entry of the list of supported systems, as the cleaning leaves it. *)
Definition tidy_entry (x : str) : Prop :=
  x <> [] /\ ~ In comma x /\ clean_ends isspace x /\
  (forall a c d b, x = a ++ c :: d :: b -> isspace c && isspace d = false).

(** The test of [find_xcode_tables]. *)
Definition has_xcode_header (t : XcodeReleases.table) : bool :=
  existsb (contains (lit "xcode")) (map lower (XcodeReleases.th_texts t)).

(** The rows of a table of the Xcode page, none when [parse_table] fails. *)
Definition rows_or_nil (t : XcodeReleases.table) : list XcodeReleases.release :=
  match XcodeReleases.parse_table t with
  | Some rows => rows
  | None => []
  end.

(** The alternation of the platform names in [sdk_pattern]. *)
Definition platform_name : regex :=
  Alt (LitI (lit "iOS"))
  (Alt (LitI (lit "iPadOS"))
  (Alt (LitI (lit "macOS"))
  (Alt (LitI (lit "tvOS"))
  (Alt (LitI (lit "watchOS"))
  (Alt (LitI (lit "visionOS")) (LitI (lit "DriverKit"))))))).

(** The shapes of a macOS requirement: empty, a range, a version with "+"
    behind it, or a version. *)
Definition requirement_shape (r : str) : Prop :=
  r = []
  \/ (exists a b, lang XcodeReleases.version_x a /\
                  lang XcodeReleases.version_x b /\
                  r = a ++ lit " - " ++ b)
  \/ (exists v, lang XcodeReleases.version_dotted v /\ r = v ++ lit "+")
  \/ lang XcodeReleases.version_x r
  \/ lang XcodeReleases.version_dotted r.

(** The pairs [(platform_key, version)] in the order in which the loop of
    [parse_sdk_column] stores them. *)
Definition sdk_pairs (text : str) : list (str * str) :=
  map (fun m => (strip (XcodeReleases.group_text m 1),
                 XcodeReleases.group_text m 2))
      (finditer XcodeReleases.sdk_pattern
                (XcodeReleases.clean_version_text text)).

End Spec.

(** [d.get(k)] *)
Fixpoint dict_get (k : str) (d : XcodeReleases.dict) : option str :=
  match d with
  | [] => None
  | (k', v) :: d' => if str_eqb k' k then Some v else dict_get k d'
  end.

(** The value that stands with the last [k] of a list of pairs. *)
Fixpoint last_value (k : str) (ps : list (str * str)) : option str :=
  match ps with
  | [] => None
  | (k', v) :: ps' =>
      match last_value k ps' with
      | Some w => Some w
      | None => if str_eqb k' k then Some v else None
      end
  end.

End Spec.

(** * Facts about the matcher *)

Module PyFacts.
Import Py Spec.

Create HintDb re.
#[export] Hint Constructors lang : re.

Lemma str_eqb_eq (a b : str) : str_eqb a b = true <-> a = b.
Proof.
  revert b; induction a as [|x a IH]; intros [|y b]; simpl;
    try (split; [discriminate | discriminate]); try tauto.
  rewrite andb_true_iff, N.eqb_eq, IH.
  split; [intros [-> ->]; reflexivity | intros H; inversion H; auto].
Qed.

Lemma str_eqb_refl (a : str) : str_eqb a a = true.
Proof. now apply str_eqb_eq. Qed.

Lemma consumed_app (w t : str) : consumed (w ++ t) t = w.
Proof.
  unfold consumed. rewrite length_app.
  replace (length w + length t - length t) with (length w) by lia.
  rewrite firstn_app, Nat.sub_diag, firstn_all. simpl. apply app_nil_r.
Qed.

Lemma hd_error_flat_map {A B : Type} (f : A -> list B) (x : A) (l : list A) :
  f x <> [] -> hd_error (flat_map f (x :: l)) = hd_error (f x).
Proof. simpl. destruct (f x); [congruence | reflexivity]. Qed.

Lemma hd_error_in {A : Type} (l : list A) (x : A) :
  hd_error l = Some x -> In x l.
Proof. destruct l; simpl; [discriminate | intros [= ->]; now left]. Qed.

Lemma flat_map_nil {A B : Type} (f : A -> list B) (l : list A) :
  (forall x, In x l -> f x = []) -> flat_map f l = [].
Proof.
  induction l as [|x l IH]; simpl; intros H; [reflexivity|].
  rewrite (H x) by now left. apply IH. intros; apply H; now right.
Qed.

Section Facts.
Context {U : Unicode}.

(** *** Soundness: a result of [run] lies further in the same text, behind a
    word of the pattern. *)

Lemma star_sound (a : regex) :
  (forall st st', In st' (run a st) ->
     exists w, rest st = w ++ rest st' /\ lang a w) ->
  forall fuel st st', In st' (star (run a) fuel st) ->
     exists w, rest st = w ++ rest st' /\ lang (Star a) w.
Proof.
  intros Ha. induction fuel as [|f IH]; intros st st'; simpl.
  - intros [<- | []]. exists []. auto with re.
  - rewrite in_app_iff, in_flat_map. intros [(st1 & H1 & H2) | [<- | []]].
    + destruct (Nat.ltb_spec (length (rest st1)) (length (rest st)));
        [|contradiction].
      destruct (Ha _ _ H1) as (u & Eu & Lu).
      destruct (IH _ _ H2) as (v & Ev & Lv).
      exists (u ++ v). rewrite <- app_assoc, <- Ev. split; [assumption|].
      constructor; auto. intros ->. simpl in Eu. rewrite Eu in H. lia.
    + exists []. auto with re.
Qed.

Lemma run_sound (r : regex) :
  forall st st', In st' (run r st) ->
    exists w, rest st = w ++ rest st' /\ lang r w.
Proof.
  induction r as [|p|a IHa b IHb|a IHa b IHb|a IHa|n a IHa|]; intros st st'; simpl.
  - intros [<- | []]. exists []. auto with re.
  - destruct (rest st) as [|c t] eqn:E; [contradiction|].
    destruct (p c) eqn:Ep; [|contradiction].
    intros [<- | []]. exists [c]. simpl. auto with re.
  - rewrite in_flat_map. intros (st1 & H1 & H2).
    destruct (IHa _ _ H1) as (u & Eu & Lu).
    destruct (IHb _ _ H2) as (v & Ev & Lv).
    exists (u ++ v). rewrite <- app_assoc, <- Ev. auto with re.
  - rewrite in_app_iff. intros [H | H].
    + destruct (IHa _ _ H) as (u & Eu & Lu). eauto with re.
    + destruct (IHb _ _ H) as (u & Eu & Lu). eauto with re.
  - apply star_sound. exact IHa.
  - rewrite in_map_iff. intros (st1 & <- & H1). simpl.
    destruct (IHa _ _ H1) as (u & Eu & Lu). eauto with re.
  - destruct (at_boundary st); [|contradiction].
    intros [<- | []]. exists []. auto with re.
Qed.

Lemma run_length (r : regex) (st st' : mstate) :
  In st' (run r st) -> length (rest st') <= length (rest st).
Proof.
  intros H. destruct (run_sound _ _ _ H) as (w & E & _).
  rewrite E, length_app. lia.
Qed.

(** *** The fuel of a repetition *)

Lemma star_fuel (step : mstate -> list mstate) :
  forall f1 f2 st,
    length (rest st) <= f1 -> length (rest st) <= f2 ->
    star step f1 st = star step f2 st.
Proof.
  assert (Z : forall f st, length (rest st) = 0 -> star step f st = [st]).
  { intros [|f] st E; simpl; [reflexivity|].
    rewrite flat_map_nil; [reflexivity|].
    intros x _. rewrite E. reflexivity. }
  induction f1 as [|f1 IH]; intros f2 st H1 H2.
  - rewrite !Z by lia. reflexivity.
  - destruct f2 as [|f2]; [rewrite !Z by lia; reflexivity|].
    simpl. f_equal. apply flat_map_ext. intros st1.
    destruct (Nat.ltb_spec (length (rest st1)) (length (rest st)));
      [|reflexivity].
    apply IH; lia.
Qed.

(** *** Completeness: without [\b], every word of the pattern that starts the
    text is among the results. *)

Lemma run_complete (r : regex) (w : str) :
  lang r w -> wordb_free r = true ->
  forall p t g, exists st', In st' (run r (MState p (w ++ t) g)) /\ rest st' = t.
Proof.
  induction 1 as [|q c Hq|a b u v _ IHa _ IHb|a b u _ IHa|a b u _ IHb
                  | a | a u v Hu _ IHa _ IHs | n a u _ IHa | ];
    simpl; intros F p t g.
  - eexists; split; [now left | reflexivity].
  - rewrite Hq. eexists; split; [now left | reflexivity].
  - apply andb_true_iff in F as [Fa Fb].
    destruct (IHa Fa p (v ++ t) g) as (st1 & H1 & E1).
    destruct st1 as [p1 r1 g1]; simpl in E1; subst r1.
    destruct (IHb Fb p1 t g1) as (st2 & H2 & E2).
    exists st2. split; [|assumption].
    rewrite <- app_assoc. apply in_flat_map. eauto.
  - apply andb_true_iff in F as [Fa Fb].
    destruct (IHa Fa p t g) as (st1 & H1 & E1).
    exists st1. rewrite in_app_iff. auto.
  - apply andb_true_iff in F as [Fa Fb].
    destruct (IHb Fb p t g) as (st1 & H1 & E1).
    exists st1. rewrite in_app_iff. auto.
  - exists (MState p t g). split; [|reflexivity].
    destruct (length t); simpl; [now left|].
    rewrite in_app_iff. right. now left.
  - destruct (IHa F p (v ++ t) g) as (st1 & H1 & E1).
    destruct st1 as [p1 r1 g1]; simpl in E1; subst r1.
    destruct (IHs F p1 t g1) as (st2 & H2 & E2). simpl in H2.
    exists st2. split; [|assumption].
    assert (L : length (v ++ t) < length ((u ++ v) ++ t)).
    { rewrite <- app_assoc, !length_app. destruct u; simpl; [congruence | lia]. }
    destruct (length ((u ++ v) ++ t)) as [|n] eqn:En; [lia|].
    simpl. rewrite in_app_iff. left. apply in_flat_map.
    exists (MState p1 (v ++ t) g1). rewrite <- app_assoc. split; [assumption|].
    simpl. rewrite <- app_assoc in En. rewrite En.
    destruct (Nat.ltb_spec (length (v ++ t)) (S n)); [|lia].
    rewrite (@star_fuel (run a) n (length (v ++ t))); simpl; auto; lia.
  - destruct (IHa F p t g) as (st1 & H1 & E1).
    eexists. split; [apply in_map; exact H1 | assumption].
  - discriminate.
Qed.

Lemma fullmatch_complete (r : regex) (s : str) :
  lang r s -> wordb_free r = true -> fullmatch r s = true.
Proof.
  intros L F. destruct (run_complete L F None [] []) as (st & H & E).
  rewrite app_nil_r in H. unfold fullmatch. apply existsb_exists.
  exists st. rewrite E. auto.
Qed.

End Facts.
End PyFacts.
Module PyGreedy.
Import Py Spec PyFacts.

Lemma hd_error_app {A : Type} (l l' : list A) :
  l <> [] -> hd_error (l ++ l') = hd_error l.
Proof. destruct l; [congruence | reflexivity]. Qed.

Lemma hd_error_flat_map_hd {A B : Type} (f : A -> list B) (l : list A) :
  (forall x, hd_error l = Some x -> f x <> []) ->
  hd_error (flat_map f l) =
  match hd_error l with Some x => hd_error (f x) | None => None end.
Proof.
  destruct l as [|x l]; simpl; [reflexivity|]. intros H.
  apply hd_error_app. now apply H.
Qed.

Lemma hd_error_map {A B : Type} (f : A -> B) (l : list A) :
  hd_error (map f l) = option_map f (hd_error l).
Proof. destruct l; reflexivity. Qed.

Lemma take_drop (p : char -> bool) (s : str) :
  takewhile p s ++ dropwhile p s = s.
Proof.
  induction s as [|c t IH]; simpl; [reflexivity|].
  destruct (p c); simpl; [now rewrite IH | reflexivity].
Qed.

Lemma consumed_dropwhile (p : char -> bool) (s : str) :
  consumed s (dropwhile p s) = takewhile p s.
Proof.
  rewrite <- (take_drop p s) at 1. apply consumed_app.
Qed.

Lemma consumed_cons_dropwhile (p : char -> bool) (c : char) (t : str) :
  consumed (c :: t) (dropwhile p t) = c :: takewhile p t.
Proof.
  rewrite <- (take_drop p t) at 1.
  change (c :: takewhile p t ++ dropwhile p t)
    with ((c :: takewhile p t) ++ dropwhile p t).
  apply consumed_app.
Qed.

Lemma dropwhile_length (p : char -> bool) (s : str) :
  length (dropwhile p s) <= length s.
Proof.
  induction s as [|c t IH]; simpl; [lia|]. destruct (p c); simpl; lia.
Qed.

Section Greedy.
Context {U : Unicode}.

Lemma star_S (step : mstate -> list mstate) (f : nat) (st : mstate) :
  star step (S f) st =
  flat_map
    (fun st' =>
       if length (rest st') <? length (rest st) then star step f st' else [])
    (step st) ++ [st].
Proof. reflexivity. Qed.

Lemma run_star (a : regex) (st : mstate) :
  run (Star a) st = star (run a) (length (rest st)) st.
Proof. reflexivity. Qed.

Lemma run_class_cons (p : char -> bool) (pv : option char) c t g :
  run (Class p) (MState pv (c :: t) g) =
  if p c then [MState (Some c) t g] else [].
Proof. reflexivity. Qed.

(** A greedy repetition of one character class first takes the longest run. *)
Lemma star_class_hd (p : char -> bool) :
  forall fuel pv s g, length s <= fuel ->
    hd_error (star (run (Class p)) fuel (MState pv s g)) =
    Some (MState (last_prev pv (takewhile p s)) (dropwhile p s) g).
Proof.
  induction fuel as [|f IH]; intros pv s g L.
  - destruct s; [reflexivity | simpl in L; lia].
  - destruct s as [|c t]; [reflexivity|].
    rewrite star_S, run_class_cons. cbn [takewhile dropwhile last_prev].
    destruct (p c) eqn:E; [|reflexivity].
    cbn [flat_map rest]. rewrite app_nil_r.
    simpl in L.
    destruct (Nat.ltb_spec (length t) (length (c :: t))); [|simpl in *; lia].
    rewrite hd_error_app; [apply IH; lia|].
    intros Z. specialize (IH (Some c) t g ltac:(lia)).
    rewrite Z in IH. discriminate.
Qed.

Lemma star_class_nonempty (p : char -> bool) (st : mstate) :
  run (Star (Class p)) st <> [].
Proof.
  destruct st as [pv s g]. intros E.
  assert (X := @star_class_hd p (length s) pv s g (le_n _)).
  rewrite run_star in E. cbn [rest] in E. rewrite E in X. discriminate.
Qed.

Lemma run_star_class_hd (p : char -> bool) (pv : option char) (s : str) g :
  hd_error (run (Star (Class p)) (MState pv s g)) =
  Some (MState (last_prev pv (takewhile p s)) (dropwhile p s) g).
Proof. apply star_class_hd. apply le_n. Qed.

Lemma run_plus_class_hd (p : char -> bool) (pv : option char) (s : str) g :
  hd_error (run (Plus (Class p)) (MState pv s g)) =
  match s with
  | c :: t =>
      if p c
      then Some (MState (last_prev (Some c) (takewhile p t)) (dropwhile p t) g)
      else None
  | [] => None
  end.
Proof.
  unfold Plus. cbn [run].
  rewrite hd_error_flat_map_hd by (intros; apply star_class_nonempty).
  cbn [run rest groups]. destruct s as [|c t]; [reflexivity|].
  destruct (p c); [|reflexivity].
  cbn [hd_error]. apply run_star_class_hd.
Qed.

Lemma run_opt_hd (a : regex) (st : mstate) :
  hd_error (run (Opt a) st) =
  Some (match hd_error (run a st) with Some x => x | None => st end).
Proof. unfold Opt. simpl. destruct (run a st); reflexivity. Qed.

Lemma run_ch_seq_hd (c : char) (a : regex) (pv : option char) (s : str) g :
  hd_error (run (Seq (Ch c) a) (MState pv s g)) =
  match s with
  | d :: t => if (c =? d)%N then hd_error (run a (MState (Some d) t g)) else None
  | [] => None
  end.
Proof.
  unfold Ch. cbn [run rest groups]. destruct s as [|d t]; [reflexivity|].
  destruct (c =? d)%N; [|reflexivity]. simpl. now rewrite app_nil_r.
Qed.

End Greedy.
End PyGreedy.

(** * The inclusion filter of the macOS pipeline *)

Module MacosFilter.
Import Py Spec PyFacts PyGreedy MacosCompat.

Lemma too_long_false (major : str) (minor : option str) :
  too_long major minor = false <->
  length major <= int_max_str_digits /\
  minor_digits minor <= int_max_str_digits.
Proof.
  unfold too_long. rewrite orb_false_iff, !Nat.ltb_ge. tauto.
Qed.

Lemma too_long_true (major : str) (minor : option str) :
  too_long major minor = true <->
  int_max_str_digits < length major \/
  int_max_str_digits < minor_digits minor.
Proof.
  unfold too_long. rewrite orb_true_iff, !Nat.ltb_lt. tauto.
Qed.

Section Filter.
Context {U : Unicode}.

Lemma try_match_major_minor (pv : option char) (s : str) :
  try_match major_minor pv s =
  match s with
  | c :: t =>
      if isdecimal c then
        let major := c :: takewhile isdecimal t in
        let st1 := MState (last_prev (Some c) (takewhile isdecimal t))
                          (dropwhile isdecimal t) [(1, major)] in
        Some (match dropwhile isdecimal t with
              | d :: e :: fr =>
                  if (d =? ord ".")%N && isdecimal e
                  then MState (last_prev (Some e) (takewhile isdecimal fr))
                              (dropwhile isdecimal fr)
                              [(2, e :: takewhile isdecimal fr); (1, major)]
                  else st1
              | _ => st1
              end)
      else None
  | [] => None
  end.
Proof.
  unfold try_match, major_minor. cbn [run].
  rewrite hd_error_flat_map_hd.
  2:{ intros x _ E. pose proof (run_opt_hd (Seq dot (Group 2 digits)) x) as X.
      rewrite E in X. discriminate. }
  rewrite hd_error_map. unfold digits at 1. rewrite run_plus_class_hd.
  destruct s as [|c t]; [reflexivity|].
  destruct (isdecimal c); [|reflexivity].
  cbn [option_map prev rest groups]. rewrite run_opt_hd. f_equal.
  rewrite consumed_cons_dropwhile.
  unfold dot. rewrite run_ch_seq_hd.
  destruct (dropwhile isdecimal t) as [|d r] eqn:Er; [reflexivity|].
  rewrite N.eqb_sym.
  destruct (d =? ord ".")%N; [|destruct r; reflexivity].
  cbn [run]. rewrite hd_error_map. unfold digits. rewrite run_plus_class_hd.
  destruct r as [|e fr]; [reflexivity|].
  destruct (isdecimal e); [|reflexivity].
  cbn [option_map prev rest groups andb].
  now rewrite consumed_cons_dropwhile.
Qed.

Lemma search_major_minor (s : str) :
  forall pre,
    match search_at major_minor pre s, first_token s with
    | Some m, Some (major, minor) =>
        group m 1 = Some major /\
        match minor with
        | Some mn => group m 2 = Some mn /\ mn <> []
        | None => group m 2 = None
        end
    | None, None => True
    | _, _ => False
    end.
Proof.
  induction s as [|c t IH]; intros pre.
  - cbn [search_at first_token]. rewrite try_match_major_minor. exact I.
  - cbn [search_at first_token]. rewrite try_match_major_minor.
    destruct (isdecimal c); [|apply IH].
    cbv zeta.
    destruct (dropwhile isdecimal t) as [|d [|e fr]]; cbn [group m_groups assoc Nat.eqb];
      try (split; reflexivity).
    + destruct (d =? ord ".")%N; cbn; auto.
    + destruct (d =? ord ".")%N; cbn [andb takewhile].
      * destruct (isdecimal e); cbn [nonempty group m_groups assoc Nat.eqb];
          repeat split; auto; discriminate.
      * cbn. auto.
Qed.

Lemma should_include_os_spec (s : str) :
  should_include_os s = include_spec s.
Proof.
  unfold should_include_os, include_spec, search, group1.
  pose proof (search_major_minor s []) as H.
  destruct (search_at major_minor [] s) as [m|];
    destruct (first_token s) as [[major minor]|]; try contradiction;
    [|reflexivity].
  destruct H as [-> H]. unfold threshold, minor_or_0, too_long, minor_digits, int.
  destruct (int_max_str_digits <? length major); [reflexivity|].
  destruct minor as [mn|].
  - destruct H as [-> H]. destruct mn as [|c mn]; [congruence|].
    cbn [nonempty orb].
    destruct (int_max_str_digits <? length (c :: mn)); reflexivity.
  - rewrite H. reflexivity.
Qed.

Lemma first_token_no_digit (s : str) :
  no_digit s = true -> first_token s = None.
Proof.
  unfold no_digit. induction s as [|c t IH]; simpl; [reflexivity|].
  destruct (isdecimal c); simpl; [discriminate | exact IH].
Qed.

(** When [should_include_os] raises. *)
Lemma should_include_os_raises (s : str) :
  should_include_os s = None <->
  exists major minor,
    first_token s = Some (major, minor) /\
    (int_max_str_digits < length major \/
     int_max_str_digits < minor_digits minor).
Proof.
  rewrite should_include_os_spec. unfold include_spec.
  destruct (first_token s) as [[major minor]|].
  - destruct (too_long major minor) eqn:E.
    + apply too_long_true in E. split; [|reflexivity].
      intros _. exists major, minor. auto.
    + apply too_long_false in E. split; [discriminate|].
      intros (mj & mn & [= <- <-] & H). lia.
  - split; [discriminate | intros (mj & mn & E & _); discriminate].
Qed.

End Filter.

Lemma threshold_iff (major minor : N) :
  threshold major minor = true <->
  (11 <= major \/ (major = 10 /\ 8 <= minor))%N.
Proof.
  unfold threshold.
  rewrite orb_true_iff, andb_true_iff, !N.leb_le, N.eqb_eq. tauto.
Qed.

(** C1, amended.  [should_include_os] returns [True] if and only if the text
    has a first numeric token [major(.minor)?] whose runs of digits have at
    most 4300 digits each and, [minor] being 0 when the token has none,
    [major >= 11 or (major = 10 and minor >= 8)].  It raises [ValueError],
    and returns nothing, if and only if one of the two runs of the first
    token has more than 4300 digits.  It returns [False] on ["10.7"] and
    ["9.9"], [True] on ["10.8"] and ["11.0"], and [False] on every text
    without a decimal digit. *)
Theorem should_include_os_threshold :
  forall U : Unicode,
    (forall s,
        should_include_os s = Some true <->
        exists major minor,
          first_token s = Some (major, minor) /\
          length major <= int_max_str_digits /\
          minor_digits minor <= int_max_str_digits /\
          (11 <= decimal_number major \/
           (decimal_number major = 10 /\ 8 <= minor_or_0 minor))%N) /\
    (forall s,
        should_include_os s = None <->
        exists major minor,
          first_token s = Some (major, minor) /\
          (int_max_str_digits < length major \/
           int_max_str_digits < minor_digits minor)) /\
    should_include_os (lit "10.7") = Some false /\
    should_include_os (lit "9.9") = Some false /\
    should_include_os (lit "10.8") = Some true /\
    should_include_os (lit "11.0") = Some true /\
    (forall s, no_digit s = true -> should_include_os s = Some false).
Proof.
  intros U. split; [|split].
  { intros s. rewrite should_include_os_spec. unfold include_spec.
    destruct (first_token s) as [[major minor]|].
    - destruct (too_long major minor) eqn:E.
      + split; [discriminate|].
        intros (mj & mn & [= <- <-] & H1 & H2 & _).
        apply too_long_true in E. lia.
      + apply too_long_false in E. split.
        * intros [= H]. apply threshold_iff in H.
          exists major, minor. tauto.
        * intros (mj & mn & [= <- <-] & _ & _ & H).
          apply threshold_iff in H. now rewrite H.
    - split; [discriminate | intros (mj & mn & E & _); discriminate]. }
  { intros s. apply should_include_os_raises. }
  repeat (split; [vm_compute; reflexivity|]).
  intros s H. rewrite should_include_os_spec. unfold include_spec.
  now rewrite first_token_no_digit.
Qed.

(** C1 as it is worded fails on a run of 4301 digits [1]: the run is the
    first numeric token of the text and its value is at least 11, yet
    [should_include_os] raises [ValueError] and returns nothing. *)
Lemma should_include_os_threshold_counterexample :
  (forall U : Unicode,
      first_token long_run = Some (long_run, None) /\
      (11 <= decimal_number long_run)%N /\
      should_include_os long_run = None) /\
  ~ (exists U : Unicode, @should_include_os U long_run = Some true).
Proof.
  assert (F : forall U : Unicode,
             first_token long_run = Some (long_run, None))
    by (intros U; vm_compute; reflexivity).
  assert (R : forall U : Unicode, should_include_os long_run = None).
  { intros U. rewrite should_include_os_spec. unfold include_spec.
    rewrite F. reflexivity. }
  split.
  - intros U. split; [apply F | split; [|apply R]].
    apply N.leb_le. vm_compute. reflexivity.
  - intros [U H]. rewrite R in H. discriminate.
Qed.

End MacosFilter.

(** * Facts about [strip] *)

Module StripFacts.
Import Py Spec PyFacts PyGreedy.

Lemma dropwhile_hd (p : char -> bool) (s : str) (c : char) (t : str) :
  dropwhile p s = c :: t -> p c = false.
Proof.
  induction s as [|x s IH]; simpl; [discriminate|].
  destruct (p x) eqn:E; [exact IH | intros [= <- _]; exact E].
Qed.

Lemma dropwhile_fix (p : char -> bool) (s : str) :
  (forall c t, s = c :: t -> p c = false) -> dropwhile p s = s.
Proof.
  destruct s as [|c t]; simpl; [reflexivity|]. intros H.
  now rewrite (H c t eq_refl).
Qed.

Lemma strip_by_ends (p : char -> bool) (s : str) : clean_ends p (strip_by p s).
Proof.
  unfold strip_by. set (a := dropwhile p s). split.
  - intros c t E.
    pose proof (take_drop p (rev a)) as X.
    apply (f_equal (@rev char)) in X. rewrite rev_app_distr, rev_involutive in X.
    rewrite E in X. simpl in X. subst a.
    eapply dropwhile_hd. symmetry. exact X.
  - intros t c E. apply (f_equal (@rev char)) in E.
    rewrite rev_involutive, rev_app_distr in E. simpl in E.
    eapply dropwhile_hd. exact E.
Qed.

Lemma strip_by_fix (p : char -> bool) (s : str) :
  clean_ends p s -> strip_by p s = s.
Proof.
  intros [Hh Hl]. unfold strip_by. rewrite (dropwhile_fix p Hh).
  rewrite dropwhile_fix; [apply rev_involutive|].
  intros c t E. apply (Hl (rev t) c).
  apply (f_equal (@rev char)) in E. rewrite rev_involutive in E. exact E.
Qed.

Lemma dropwhile_incl (p : char -> bool) (s : str) (x : char) :
  In x (dropwhile p s) -> In x s.
Proof.
  induction s as [|c t IH]; simpl; [tauto|].
  destruct (p c); simpl; tauto.
Qed.

Lemma strip_by_incl (p : char -> bool) (s : str) (x : char) :
  In x (strip_by p s) -> In x s.
Proof.
  unfold strip_by. rewrite <- in_rev. intros H.
  apply dropwhile_incl in H. rewrite <- in_rev in H.
  now apply dropwhile_incl in H.
Qed.

Lemma strip_by_idem (p : char -> bool) (s : str) :
  strip_by p (strip_by p s) = strip_by p s.
Proof. apply strip_by_fix, strip_by_ends. Qed.

Lemma dropwhile_app_all (p : char -> bool) (a s : str) :
  forallb p a = true -> dropwhile p (a ++ s) = dropwhile p s.
Proof.
  induction a as [|c a IH]; simpl; [reflexivity|].
  rewrite andb_true_iff. intros [-> H]. now apply IH.
Qed.

Lemma forallb_rev_true (p : char -> bool) (b : str) :
  forallb p b = true -> forallb p (rev b) = true.
Proof.
  rewrite !forallb_forall. intros H x I. apply H. now apply in_rev.
Qed.

(** Whitespace around a text with clean ends is what [strip] removes. *)
Lemma strip_by_padded (p : char -> bool) (a s b : str) :
  forallb p a = true -> forallb p b = true -> clean_ends p s ->
  strip_by p (a ++ s ++ b) = s.
Proof.
  intros Ha Hb [Hh Hl]. unfold strip_by.
  rewrite (@dropwhile_app_all p a (s ++ b) Ha).
  destruct s as [|c t].
  - simpl. rewrite <- (app_nil_r b).
    rewrite (@dropwhile_app_all p b [] Hb). reflexivity.
  - simpl. rewrite (Hh c t eq_refl).
    change (c :: t ++ b) with ((c :: t) ++ b). rewrite rev_app_distr.
    rewrite dropwhile_app_all by now apply forallb_rev_true.
    rewrite dropwhile_fix; [apply rev_involutive|].
    intros c0 t0 E. apply (Hl (rev t0) c0).
    apply (f_equal (@rev char)) in E. rewrite rev_involutive in E. exact E.
Qed.

Lemma strip_by_length (p : char -> bool) (s : str) :
  length (strip_by p s) <= length s.
Proof.
  unfold strip_by. rewrite length_rev.
  etransitivity; [apply dropwhile_length|]. rewrite length_rev.
  apply dropwhile_length.
Qed.

Section Digits.
Context {U : Unicode}.

Lemma isdecimal_not_space (c : char) : isdecimal c = true -> isspace c = false.
Proof.
  unfold isdecimal, isspace, ascii_digit, ascii_space.
  destruct (is_ascii c).
  - rewrite andb_true_iff, !N.leb_le. intros [H1 H2].
    apply orb_false_iff; split; apply andb_false_iff.
    + right. apply N.leb_gt. lia.
    + right. apply N.leb_gt. lia.
  - destruct (uni_decimal c) eqn:E; [|discriminate].
    intros _. eapply uni_decimal_not_space. exact E.
Qed.

Lemma strip_idem (s : str) : strip (strip s) = strip s.
Proof. apply strip_by_idem. Qed.

End Digits.
End StripFacts.

(** * The version normaliser of the macOS pipeline *)

Module MacosNormalize.
Import Py Spec PyFacts PyGreedy StripFacts MacosCompat.

Section Normalize.
Context {U : Unicode}.

Lemma lang_star_class (p : char -> bool) (w : str) :
  forallb p w = true -> lang (Star (Class p)) w.
Proof.
  induction w as [|c w IH]; simpl; [constructor|].
  rewrite andb_true_iff. intros [Hc Hw].
  change (c :: w) with ([c] ++ w).
  constructor; [discriminate | now constructor | auto].
Qed.

Lemma lang_digits (d : str) :
  d <> [] -> forallb isdecimal d = true -> lang digits d.
Proof.
  destruct d as [|c d]; [congruence|]. simpl. intros _.
  rewrite andb_true_iff. intros [Hc Hd].
  change (c :: d) with ([c] ++ d). unfold digits, Plus.
  constructor; [now constructor | now apply lang_star_class].
Qed.

Lemma lang_dot_tail (v : str) :
  bare_version v -> lang (Star (Seq dot digits)) (ord "." :: v) /\ lang version v.
Proof.
  induction 1 as [d [Hn Hd] | d v [Hn Hd] _ [IH1 IH2]].
  - pose proof (lang_digits Hn Hd) as L. split.
    + rewrite <- (app_nil_r (ord "." :: d)).
      constructor; [discriminate | | constructor].
      change (ord "." :: d) with ([ord "."] ++ d).
      constructor; [|assumption]. constructor. apply N.eqb_refl.
    + rewrite <- (app_nil_r d). constructor; [assumption | constructor].
  - pose proof (lang_digits Hn Hd) as L. split.
    + change (ord "." :: d ++ ord "." :: v)
        with ((ord "." :: d) ++ ord "." :: v).
      constructor; [discriminate | | assumption].
      change (ord "." :: d) with ([ord "."] ++ d).
      constructor; [|assumption]. constructor. apply N.eqb_refl.
    + constructor; assumption.
Qed.

Lemma lang_version (v : str) : bare_version v -> lang version v.
Proof. intros H. now apply lang_dot_tail. Qed.

Lemma lang_dash (d : char) : is_dash d -> lang dash [d].
Proof. intros [-> | [-> | ->]]; constructor; reflexivity. Qed.

Lemma lang_full_pattern (s : str) : version_or_range s -> lang full_pattern s.
Proof.
  intros [v Hv | a ws1 d ws2 b Ha H1 Hd H2 Hb]; unfold full_pattern.
  - rewrite <- (app_nil_r v). constructor; [now apply lang_version|].
    apply L_alt_r. constructor.
  - constructor; [now apply lang_version|]. apply L_alt_l.
    constructor; [now apply lang_star_class|].
    change (d :: ws2 ++ b) with ([d] ++ ws2 ++ b).
    constructor; [now apply lang_dash|].
    constructor; [now apply lang_star_class | now apply lang_version].
Qed.

Lemma fullmatch_version_or_range (s : str) :
  version_or_range s -> fullmatch full_pattern s = true.
Proof.
  intros H. apply fullmatch_complete; [now apply lang_full_pattern | reflexivity].
Qed.

Lemma normalize_os_fullmatch (s : str) :
  fullmatch full_pattern (strip s) = true -> normalize_os s = strip s.
Proof. unfold normalize_os. fold full_pattern. now intros ->. Qed.

End Normalize.

End MacosNormalize.

(** * What a search for [\b(r)\b] returns *)

Module SearchFacts.
Import Py Spec PyFacts PyGreedy.

Section Search.
Context {U : Unicode}.

Lemma run_token_of (r : regex) (st0 st : mstate) :
  In st (run (token_of r) st0) ->
  exists w, rest st0 = w ++ rest st /\ lang r w /\
            groups st = (1, w) :: tl (groups st).
Proof.
  unfold token_of. cbn [run]. rewrite in_flat_map.
  intros (st1 & H1 & H2).
  destruct (at_boundary st0); [|contradiction].
  destruct H1 as [<- | []].
  apply in_flat_map in H2 as (st2 & H2 & H3).
  apply in_map_iff in H2 as (st3 & <- & H2).
  destruct (at_boundary _); [|contradiction].
  destruct H3 as [<- | []]. cbn [rest groups tl].
  destruct (run_sound _ _ _ H2) as (w & E & L).
  exists w. rewrite E, consumed_app. auto.
Qed.

Lemma search_at_token_of (r : regex) (s : str) :
  forall pre m,
    search_at (token_of r) pre s = Some m ->
    exists w, group m 1 = Some w /\ lang r w.
Proof.
  induction s as [|c t IH]; intros pre m; cbn [search_at];
    destruct (try_match (token_of r) (hd_error pre) _) as [st|] eqn:E;
    try discriminate; try (apply IH).
  all: intros [= <-]; apply hd_error_in, run_token_of in E;
    destruct E as (w & _ & L & G); exists w; split; [|assumption];
    unfold group; cbn [m_groups]; rewrite G; reflexivity.
Qed.

Lemma search_token_of (r : regex) (s : str) (m : rmatch) :
  search (token_of r) s = Some m -> exists w, group m 1 = Some w /\ lang r w.
Proof. apply search_at_token_of. Qed.

Lemma search_at_token_split (r : regex) (s : str) :
  forall pre m,
    search_at (token_of r) pre s = Some m ->
    exists u w, s = u ++ w ++ m_post m /\ group m 1 = Some w /\ lang r w.
Proof.
  assert (X : forall p s0 st,
             try_match (token_of r) p s0 = Some st ->
             exists w, s0 = w ++ rest st /\
                       assoc 1 (groups st) = Some w /\ lang r w).
  { intros p s0 st E. apply hd_error_in, run_token_of in E.
    destruct E as (w & Ew & L & G). exists w. rewrite G. auto. }
  induction s as [|c t IH]; intros pre m; cbn [search_at];
    destruct (try_match (token_of r) (hd_error pre) _) as [st|] eqn:E;
    try discriminate.
  - intros [= <-]. destruct (X _ _ _ E) as (w & Ew & G & L).
    exists [], w. auto.
  - intros [= <-]. destruct (X _ _ _ E) as (w & Ew & G & L).
    exists [], w. auto.
  - intros H. destruct (IH _ _ H) as (u & w & -> & G & L).
    exists (c :: u), w. auto.
Qed.

(** *** The shape of the words of the version patterns *)

Lemma lang_class_inv (p : char -> bool) (w : str) :
  lang (Class p) w -> exists c, w = [c] /\ p c = true.
Proof. inversion 1; subst; eauto. Qed.

Lemma lang_star_class_inv (p : char -> bool) (w : str) :
  lang (Star (Class p)) w -> forallb p w = true.
Proof.
  remember (Star (Class p)) as r eqn:Er. induction 1; try discriminate.
  - reflexivity.
  - injection Er as ->. rewrite forallb_app.
    apply lang_class_inv in H0 as (c & -> & Hc). simpl. rewrite Hc. simpl.
    now apply IHlang2.
Qed.

Lemma lang_plus_class_inv (p : char -> bool) (w : str) :
  lang (Plus (Class p)) w -> w <> [] /\ forallb p w = true.
Proof.
  unfold Plus. inversion 1; subst.
  apply lang_class_inv in H2 as (c & -> & Hc).
  apply lang_star_class_inv in H4. simpl. rewrite Hc, H4.
  split; [discriminate | reflexivity].
Qed.

Lemma ends_in_all (p : char -> bool) (w : str) :
  w <> [] -> forallb p w = true -> ends_in p w.
Proof.
  intros Hn Hw. split.
  - destruct w as [|c t]; [congruence|]. simpl in Hw.
    apply andb_true_iff in Hw as [Hc _]. eauto.
  - destruct (exists_last Hn) as (t & c & ->).
    rewrite forallb_app in Hw. simpl in Hw.
    apply andb_true_iff in Hw as [_ Hc]. apply andb_true_iff in Hc as [Hc _].
    eauto.
Qed.

Lemma ends_in_app (p : char -> bool) (u v : str) :
  ends_in p u -> ends_in p v -> ends_in p (u ++ v).
Proof.
  intros [(c & t & -> & Hc) _] [_ (t' & c' & -> & Hc')]. split.
  - exists c, (t ++ t' ++ [c']). auto.
  - exists ((c :: t) ++ t'), c'. rewrite <- app_assoc. auto.
Qed.

Lemma ends_in_mid (p : char -> bool) (u m v : str) :
  ends_in p u -> ends_in p v -> ends_in p (u ++ m ++ v).
Proof.
  intros [(c & t & -> & Hc) _] [_ (t' & c' & -> & Hc')]. split.
  - exists c, (t ++ m ++ t' ++ [c']). auto.
  - exists ((c :: t) ++ m ++ t'), c'. rewrite <- !app_assoc. auto.
Qed.

End Search.
End SearchFacts.

(** * Patterns that cannot match the empty string *)

Module Consume.
Import Py Spec PyFacts PyGreedy StripFacts.

Lemma lang_nil_nullable (r : regex) (w : str) :
  lang r w -> w = [] -> nullable r = true.
Proof.
  induction 1; simpl; intros E; try reflexivity; try discriminate.
  - apply app_eq_nil in E as [-> ->]. now rewrite IHlang1, IHlang2.
  - now rewrite IHlang.
  - rewrite IHlang by assumption. apply orb_true_r.
  - now apply IHlang.
Qed.

Section Consume.
Context {U : Unicode}.

Lemma search_at_split (r : regex) (s : str) :
  forall pre m,
    search_at r pre s = Some m ->
    exists u w, s = u ++ w ++ m_post m /\ lang r w.
Proof.
  assert (X : forall p s0 st, try_match r p s0 = Some st ->
                exists w, s0 = w ++ rest st /\ lang r w).
  { intros p s0 st E. apply hd_error_in, run_sound in E. exact E. }
  induction s as [|c t IH]; intros pre m; cbn [search_at];
    destruct (try_match r (hd_error pre) _) as [st|] eqn:E; try discriminate.
  - intros [= <-]. destruct (X _ _ _ E) as (w & Ew & L). exists [], w. auto.
  - intros [= <-]. destruct (X _ _ _ E) as (w & Ew & L). exists [], w. auto.
  - intros H. destruct (IH _ _ H) as (u & w & -> & L).
    exists (c :: u), w. auto.
Qed.

Lemma search_post_shorter (r : regex) (s : str) (m : rmatch) :
  nullable r = false -> search r s = Some m -> length (m_post m) < length s.
Proof.
  intros N H. apply search_at_split in H as (u & w & -> & L).
  rewrite !length_app. destruct w as [|c w]; [|simpl; lia].
  rewrite (lang_nil_nullable L eq_refl) in N. discriminate.
Qed.

(** The patterns that the source hands to [re.sub] and [re.findall], and the
    one of the loop of [split_category_labels], consume text wherever they
    match. *)
Lemma patterns_consume :
  nullable MacosCompat.LABEL_PAT = false /\
  nullable MacosCompat.spaces2 = false /\
  nullable XcodeReleases.spaces1 = false /\
  nullable XcodeReleases.sdk_pattern = false /\
  nullable (token_of XcodeReleases.version_dotted) = false.
Proof. repeat split. Qed.

(** The loop of [split_category_labels] ends before its fuel does: more fuel
    changes nothing. *)
Lemma split_labels_fuel :
  forall n m s,
    length s < n -> length s < m ->
    MacosCompat.split_labels n s = MacosCompat.split_labels m s.
Proof.
  induction n as [|n IH]; intros m s Hn Hm; [lia|].
  destruct m as [|m]; [lia|]. cbn [MacosCompat.split_labels].
  destruct (search MacosCompat.LABEL_PAT s) as [mt|] eqn:E; [|reflexivity].
  f_equal. apply search_post_shorter in E; [|reflexivity].
  pose proof (strip_by_length isspace (m_post mt)) as L.
  apply IH; unfold strip; lia.
Qed.

(** [split_labels] computes the loop: with a fuel above the length of the
    text it returns what the loop appends. *)
Lemma split_labels_loop :
  forall n s, length s < n -> label_loop s (MacosCompat.split_labels n s).
Proof.
  induction n as [|n IH]; intros s Hn; [lia|].
  cbn [MacosCompat.split_labels].
  destruct (search MacosCompat.LABEL_PAT s) as [mt|] eqn:E.
  - apply LL_round; [exact E|]. apply IH.
    apply search_post_shorter in E; [|reflexivity].
    pose proof (strip_by_length isspace (m_post mt)) as L.
    unfold strip. lia.
  - now apply LL_break.
Qed.

Lemma split_category_labels_loop (text : str) :
  label_loop (strip text) (MacosCompat.split_category_labels text).
Proof. apply split_labels_loop. apply Nat.lt_succ_diag_r. Qed.

End Consume.
End Consume.

Module MacosIdempotent.
Import Py Spec PyFacts PyGreedy StripFacts SearchFacts MacosCompat MacosNormalize.

Section Idempotent.
Context {U : Unicode}.

Lemma lang_dot_digits_last (v : str) :
  lang (Star (Seq dot digits)) v ->
  v = [] \/ exists t c, v = t ++ [c] /\ isdecimal c = true.
Proof.
  remember (Star (Seq dot digits)) as r eqn:Er. induction 1; try discriminate.
  - now left.
  - injection Er as ->. right.
    inversion H0 as [| |a b x d _ Hd| | | | | |]; subst.
    apply lang_plus_class_inv in Hd as [Hn Ha].
    destruct (IHlang2 eq_refl) as [-> | (t & c & -> & Hc)].
    + destruct (ends_in_all isdecimal Hn Ha) as [_ (t & c & -> & Hc)].
      exists (x ++ t), c. rewrite app_nil_r, <- app_assoc. auto.
    + exists ((x ++ d) ++ t), c. rewrite <- !app_assoc. auto.
Qed.

Lemma lang_version_ends (w : str) : lang version w -> ends_in isdecimal w.
Proof.
  unfold version. inversion 1 as [| |a b u v Hu Hv| | | | | |]; subst.
  apply lang_plus_class_inv in Hu as [Hn Ha].
  pose proof (ends_in_all isdecimal Hn Ha) as E.
  destruct (lang_dot_digits_last Hv) as [-> | (t & c & -> & Hc)].
  - now rewrite app_nil_r.
  - destruct E as [(c0 & t0 & -> & Hc0) _]. split.
    + exists c0, (t0 ++ t ++ [c]). auto.
    + exists ((c0 :: t0) ++ t), c. rewrite <- app_assoc. auto.
Qed.

Lemma lang_version_range_inv (w : str) :
  lang version_range w ->
  exists a m b, w = a ++ m ++ b /\ lang version a /\ lang version b /\
                lang (Seq spaces (Seq dash (Seq spaces version))) (m ++ b).
Proof.
  unfold version_range.
  inversion 1 as [| |? ? a r1 Ha H1| | | | | |]; subst.
  inversion H1 as [| |? ? s1 r2 Hs1 H2| | | | | |]; subst.
  inversion H2 as [| |? ? d r3 Hd H3| | | | | |]; subst.
  inversion H3 as [| |? ? s2 b Hs2 Hb| | | | | |]; subst.
  exists a, (s1 ++ d ++ s2), b. rewrite <- !app_assoc. auto.
Qed.

Lemma decimal_ends_clean (w : str) :
  ends_in isdecimal w -> clean_ends isspace w.
Proof.
  intros [(c & t & -> & Hc) (t' & c' & E & Hc')]. split.
  - intros c1 t1 [= <- <-]. now apply isdecimal_not_space.
  - intros t1 c1 E1. rewrite E in E1. apply app_inj_tail in E1 as [_ <-].
    now apply isdecimal_not_space.
Qed.

Lemma normalize_os_canonical (w : str) :
  lang full_pattern w -> ends_in isdecimal w -> normalize_os w = w.
Proof.
  intros L E. assert (S : strip w = w).
  { apply strip_by_fix. now apply decimal_ends_clean. }
  rewrite <- S at 2. apply normalize_os_fullmatch. rewrite S.
  apply fullmatch_complete; [assumption | reflexivity].
Qed.

Lemma normalize_os_version (w : str) : lang version w -> normalize_os w = w.
Proof.
  intros L. apply normalize_os_canonical; [|now apply lang_version_ends].
  rewrite <- (app_nil_r w). unfold full_pattern.
  constructor; [assumption|]. apply L_alt_r. constructor.
Qed.

Lemma normalize_os_version_range (w : str) :
  lang version_range w -> normalize_os w = w.
Proof.
  intros L. destruct (lang_version_range_inv L) as (a & m & b & -> & La & Lb & Lm).
  apply normalize_os_canonical.
  - unfold full_pattern. constructor; [assumption|]. now apply L_alt_l.
  - apply ends_in_mid; now apply lang_version_ends.
Qed.

End Idempotent.

(** C7.  A text [s] that is a bare version [digits(.digits)*], or two of them
    around an en dash, an em dash or a hyphen, is returned by [normalize_os]
    as it stands, the dash included; and so is it when the input is [s] with
    whitespace around it, which the trimming removes. *)
Theorem normalize_os_identity :
  forall (U : Unicode) (s : str),
    version_or_range s ->
    normalize_os s = s /\
    forall pad1 pad2,
      forallb isspace pad1 = true -> forallb isspace pad2 = true ->
      strip (pad1 ++ s ++ pad2) = s /\ normalize_os (pad1 ++ s ++ pad2) = s.
Proof.
  intros U s H. apply lang_full_pattern in H.
  assert (E : ends_in isdecimal s).
  { unfold full_pattern in H.
    inversion H as [| |? ? a r La Lr| | | | | |]; subst.
    inversion Lr as [| | |? ? ? L1|? ? ? L1| | | |]; subst.
    - inversion L1 as [| |? ? s1 r2 Hs1 H2| | | | | |]; subst.
      inversion H2 as [| |? ? d r3 Hd H3| | | | | |]; subst.
      inversion H3 as [| |? ? s2 b Hs2 Hb| | | | | |]; subst.
      replace (a ++ s1 ++ d ++ s2 ++ b) with (a ++ (s1 ++ d ++ s2) ++ b)
        by now rewrite <- !app_assoc.
      apply ends_in_mid; now apply lang_version_ends.
    - inversion L1; subst. rewrite app_nil_r. now apply lang_version_ends. }
  split; [now apply normalize_os_canonical|].
  intros pad1 pad2 H1 H2.
  assert (S : strip (pad1 ++ s ++ pad2) = s).
  { apply strip_by_padded; auto. now apply decimal_ends_clean. }
  split; [exact S|].
  apply fullmatch_complete in H; [|reflexivity].
  rewrite <- S at 2. apply normalize_os_fullmatch. now rewrite S.
Qed.

(** The theorem at the range "10.0 - 10.2" written with an en dash, for
    the database without characters above ASCII. *)
Lemma normalize_os_identity_witness :
  @version_or_range ascii_only (lit "10.0 " ++ 8211%N :: lit " 10.2") /\
  (@normalize_os ascii_only (lit "10.0 " ++ 8211%N :: lit " 10.2")
   = lit "10.0 " ++ 8211%N :: lit " 10.2" /\
   forall pad1 pad2,
     forallb (@isspace ascii_only) pad1 = true ->
     forallb (@isspace ascii_only) pad2 = true ->
     @strip ascii_only (pad1 ++ (lit "10.0 " ++ 8211%N :: lit " 10.2") ++ pad2)
     = lit "10.0 " ++ 8211%N :: lit " 10.2" /\
     @normalize_os ascii_only
       (pad1 ++ (lit "10.0 " ++ 8211%N :: lit " 10.2") ++ pad2)
     = lit "10.0 " ++ 8211%N :: lit " 10.2").
Proof.
  assert (H : @version_or_range ascii_only
                (lit "10.0 " ++ 8211%N :: lit " 10.2")).
  { change (@version_or_range ascii_only
              (lit "10.0" ++ lit " " ++ 8211%N :: lit " " ++ lit "10.2")).
    assert (B : forall a b : str,
               @is_number ascii_only a -> @is_number ascii_only b ->
               @bare_version ascii_only (a ++ ord "." :: b)).
    { intros a b Ha Hb. apply BV_dot; [assumption | now apply BV_last]. }
    apply VR_range.
    - apply (B (lit "10") (lit "0")); (split; [discriminate | reflexivity]).
    - reflexivity.
    - left. reflexivity.
    - reflexivity.
    - apply (B (lit "10") (lit "2")); (split; [discriminate | reflexivity]). }
  split; [exact H | exact (normalize_os_identity H)].
Defined.

(** C10.  [normalize_os] is idempotent: its result, be it the trimmed input,
    a range or a version found in it, or the trimmed text in which nothing
    was found, is returned unchanged by a second application. *)
Theorem normalize_os_idempotent :
  forall (U : Unicode) (s : str),
    normalize_os (normalize_os s) = normalize_os s.
Proof.
  intros U s. unfold normalize_os at 2 3.
  destruct (fullmatch _ (strip s)) eqn:F.
  - rewrite normalize_os_fullmatch; rewrite strip_idem;
      [reflexivity | exact F].
  - destruct (search _ (strip s)) as [m|] eqn:S1.
    + apply (@search_token_of U version_range) in S1 as (w & G & L).
      unfold group1. rewrite G. now apply normalize_os_version_range.
    + destruct (search (Seq WordB (Seq (Group 1 version) WordB)) (strip s))
        as [m|] eqn:S2.
      * apply (@search_token_of U version) in S2 as (w & G & L).
        unfold group1. rewrite G. now apply normalize_os_version.
      * unfold normalize_os. rewrite strip_idem, F, S1, S2. reflexivity.
Qed.

End MacosIdempotent.

(** * The list of supported systems: no duplicates, first occurrences kept *)

Module MacosDedup.
Import Py Spec PyFacts MacosCompat.

Lemma mem_str (s : str) (seen : list str) :
  existsb (str_eqb s) seen = true <-> In s seen.
Proof.
  rewrite existsb_exists. split.
  - intros (x & Hx & E). apply str_eqb_eq in E. now subst.
  - intros H. exists s. split; [assumption | apply str_eqb_refl].
Qed.

Lemma dedup_in (out : list str) :
  forall seen x, In x (dedup seen out) <-> In x out /\ ~ In x seen.
Proof.
  induction out as [|s out IH]; intros seen x; simpl; [tauto|].
  destruct (existsb (str_eqb s) seen) eqn:E.
  - apply mem_str in E. rewrite IH. split.
    + tauto.
    + intros [[-> | H] N]; [contradiction | tauto].
  - assert (N : ~ In s seen) by (rewrite <- mem_str, E; discriminate).
    simpl. rewrite IH. simpl. split.
    + intros [<- | [H1 H2]]; [tauto|]. split; [tauto|]. tauto.
    + intros [[-> | H] Nx]; [tauto|].
      destruct (list_eq_dec N.eq_dec s x) as [-> | D]; [tauto|]. tauto.
Qed.

Lemma dedup_nodup (out : list str) : forall seen, NoDup (dedup seen out).
Proof.
  induction out as [|s out IH]; intros seen; simpl; [constructor|].
  destruct (existsb (str_eqb s) seen); [apply IH|].
  constructor; [|apply IH]. rewrite dedup_in. simpl. tauto.
Qed.

(** Whatever stands before [x] in the result occurs in [out] before the first
    occurrence of [x]. *)
Lemma dedup_order (out : list str) :
  forall seen r1 x r2,
    dedup seen out = r1 ++ x :: r2 ->
    exists o1 o2, out = o1 ++ x :: o2 /\ ~ In x o1 /\
                  forall y, In y r1 -> In y o1.
Proof.
  induction out as [|s out IH]; intros seen r1 x r2; simpl.
  - destruct r1; discriminate.
  - destruct (existsb (str_eqb s) seen) eqn:E.
    + intros H. assert (Hx : In x (dedup seen out)).
      { rewrite H. apply in_elt. }
      apply dedup_in in Hx as [_ Nx]. apply mem_str in E.
      destruct (IH _ _ _ _ H) as (o1 & o2 & -> & N1 & Hy).
      exists (s :: o1), o2. repeat split; [|simpl; auto].
      intros [-> | H1]; contradiction.
    + destruct r1 as [|s' r1]; simpl; intros [= <- H].
      * exists [], out. simpl. tauto.
      * assert (Hx : In x (dedup (s :: seen) out)).
        { rewrite H. apply in_elt. }
        apply dedup_in in Hx as [_ Nx]. simpl in Nx.
        destruct (IH _ _ _ _ H) as (o1 & o2 & -> & N1 & Hy).
        exists (s :: o1), o2. repeat split.
        -- intros [-> | H1]; tauto.
        -- intros y [<- | Hy1]; simpl; auto.
Qed.

(** C8.  The list that [clean_supported_systems] returns has no entry twice
    (entries are compared as strings, letter case included); it has the
    entries of the cleaned token list and no others; and an entry [x] is
    preceded in it only by entries that occur in the token list before the
    first occurrence of [x]: the order of first occurrence is kept.  On
    [["Mac Mini, Mac Mini"]] it returns [["Mac Mini"]]. *)
Theorem clean_supported_systems_unique :
  forall (U : Unicode) (raw_items : list str),
    NoDup (clean_supported_systems raw_items) /\
    (forall x, In x (clean_supported_systems raw_items) <->
               In x (cleaned_tokens raw_items)) /\
    (forall r1 x r2,
        clean_supported_systems raw_items = r1 ++ x :: r2 ->
        exists o1 o2,
          cleaned_tokens raw_items = o1 ++ x :: o2 /\ ~ In x o1 /\
          forall y, In y r1 -> In y o1) /\
    clean_supported_systems [lit "Mac Mini, Mac Mini"] = [lit "Mac Mini"].
Proof.
  intros U raw_items. unfold clean_supported_systems.
  split; [apply dedup_nodup|].
  split; [intros x; rewrite dedup_in; simpl; tauto|].
  split; [apply dedup_order|].
  vm_compute. reflexivity.
Qed.

End MacosDedup.

(** * The tokens of the list of supported systems *)

Module MacosTokens.
Import Py Spec PyFacts PyGreedy StripFacts MacosCompat MacosDedup.

Lemma split_on_no_sep (sep : char) (s : str) :
  forall p, In p (split_on sep s) -> ~ In sep p.
Proof.
  induction s as [|c t IH]; simpl.
  - intros p [<- | []]. tauto.
  - destruct (N.eqb_spec c sep) as [-> | D].
    + intros p [<- | H]; [tauto | now apply IH].
    + destruct (split_on sep t) as [|q qs].
      * intros p [<- | []]. simpl. intros [E | []]. congruence.
      * intros p [<- | H].
        -- simpl. intros [E | H]; [congruence|]. apply (IH q); simpl; auto.
        -- apply IH. simpl. auto.
Qed.

Lemma takewhile_all (p : char -> bool) (s : str) :
  forallb p (takewhile p s) = true.
Proof.
  induction s as [|c t IH]; simpl; [reflexivity|].
  destruct (p c) eqn:E; simpl; [now rewrite E | reflexivity].
Qed.

Section Tokens.
Context {U : Unicode}.

Lemma run_class_seq (p : char -> bool) (a : regex) (pv : option char) s g :
  run (Seq (Class p) a) (MState pv s g) =
  match s with
  | c :: t => if p c then run a (MState (Some c) t g) else []
  | [] => []
  end.
Proof.
  cbn [run rest groups]. destruct s as [|c t]; [reflexivity|].
  destruct (p c); [|reflexivity]. simpl. apply app_nil_r.
Qed.

(** [\s{2,}] takes a run of whitespace that has two characters or more. *)
Lemma try_match_spaces2 (pv : option char) (s : str) :
  try_match spaces2 pv s =
  match s with
  | a :: b :: t =>
      if isspace a && isspace b
      then Some (MState (last_prev (Some b) (takewhile isspace t))
                        (dropwhile isspace t) [])
      else None
  | _ => None
  end.
Proof.
  unfold try_match, spaces2. rewrite run_class_seq.
  destruct s as [|a [|b t]]; [reflexivity | |].
  - destruct (isspace a); [|reflexivity]. now rewrite run_class_seq.
  - destruct (isspace a); [|reflexivity]. rewrite run_class_seq.
    destruct (isspace b); [|reflexivity]. apply run_star_class_hd.
Qed.

Lemma sub_go_skip (r : regex) (repl : str) :
  forall u p v,
    sub_go r repl p (length u) (u ++ v) = sub_go r repl (last_prev p u) 0 v.
Proof.
  induction u as [|x u IH]; intros p v; [reflexivity|].
  simpl. apply IH.
Qed.

Lemma collapse_eq (p : option char) (s : str) :
  collapse p s =
  match s with
  | [] => []
  | [c] => [c]
  | c :: (b :: t) as s' =>
      if isspace c && isspace b
      then space :: collapse (last_prev (Some b) (takewhile isspace t))
                             (dropwhile isspace t)
      else c :: collapse (Some c) s'
  end.
Proof.
  unfold collapse. destruct s as [|c [|b t]].
  - cbn [sub_go]. now rewrite try_match_spaces2.
  - cbn [sub_go]. now rewrite !try_match_spaces2.
  - change (sub_go spaces2 (lit " ") p 0 (c :: b :: t))
      with (match try_match spaces2 p (c :: b :: t) with
            | Some st =>
                match length (c :: b :: t) - length (rest st) with
                | O => lit " " ++ c :: sub_go spaces2 (lit " ") (Some c) 0 (b :: t)
                | S k => lit " " ++ sub_go spaces2 (lit " ") (Some c) k (b :: t)
                end
            | None => c :: sub_go spaces2 (lit " ") (Some c) 0 (b :: t)
            end).
    rewrite try_match_spaces2.
    destruct (isspace c && isspace b); [|reflexivity].
    cbn [rest].
    replace (length (c :: b :: t) - length (dropwhile isspace t))
      with (S (S (length (takewhile isspace t)))).
    2:{ assert (X : length t = length (takewhile isspace t)
                                + length (dropwhile isspace t))
          by now rewrite <- length_app, take_drop.
        cbn [length]. lia. }
    cbn [sub_go]. rewrite <- (take_drop isspace t) at 2.
    rewrite sub_go_skip. reflexivity.
Qed.

Lemma last_of_tail (c : char) (s t : str) (x : char) :
  s <> [] -> c :: s = t ++ [x] -> exists t', s = t' ++ [x].
Proof.
  intros Hn E. destruct (exists_last Hn) as (t' & y & ->).
  change (c :: t' ++ [y]) with ((c :: t') ++ [y]) in E.
  apply app_inj_tail in E as [_ ->]. eauto.
Qed.

(** What collapsing does to a text: it is unchanged or has a space; it has no
    new character but the space; and an end that is not whitespace stays. *)
Lemma collapse_shape :
  forall n s p, length s <= n ->
    (collapse p s = s \/ In space (collapse p s)) /\
    (forall x, In x (collapse p s) -> x = space \/ In x s) /\
    (forall c t, s = c :: t -> isspace c = false ->
                 exists t', collapse p s = c :: t') /\
    (forall t c, s = t ++ [c] -> isspace c = false ->
                 exists t', collapse p s = t' ++ [c]).
Proof.
  induction n as [|n IH]; intros s p L.
  - destruct s; [|simpl in L; lia]. rewrite collapse_eq.
    repeat split; auto; try (intros ? ? E; discriminate);
      intros [|? ?] ? E; discriminate.
  - rewrite collapse_eq. destruct s as [|c [|b t]].
    + repeat split; auto; try (intros ? ? E; discriminate);
        intros [|? ?] ? E; discriminate.
    + repeat split; auto.
      * intros c0 t0 [= <- <-] _. eauto.
      * intros t0 c0 E _. exists []. destruct t0 as [|? [|? ?]]; try discriminate.
        now injection E as ->.
    + destruct (isspace c && isspace b) eqn:E.
      * apply andb_true_iff in E as [Ec Eb].
        assert (Ld : length (dropwhile isspace t) <= n).
        { pose proof (dropwhile_length isspace t). simpl in L. lia. }
        destruct (IH _ (last_prev (Some b) (takewhile isspace t)) Ld)
          as (_ & I2 & _ & I4).
        repeat split.
        -- right. now left.
        -- intros x [<- | H]; [now left|].
           destruct (I2 _ H) as [-> | H']; [now left|]. right.
           right. right. eapply dropwhile_incl. exact H'.
        -- intros c0 t0 [= <- <-] N. congruence.
        -- intros t0 c0 E0 N.
           destruct (dropwhile isspace t) as [|d ds] eqn:Ed.
           ++ exfalso. pose proof (take_drop isspace t) as X.
              rewrite Ed, app_nil_r in X.
              assert (A : forallb isspace (c :: b :: t) = true).
              { simpl. rewrite Ec, Eb, <- X. apply takewhile_all. }
              rewrite E0, forallb_app in A. simpl in A. rewrite N in A.
              rewrite andb_false_r in A. discriminate.
           ++ assert (T : exists t', d :: ds = t' ++ [c0]).
              { pose proof (take_drop isspace t) as X. rewrite Ed in X.
                assert (Hn : d :: ds <> []) by discriminate.
                destruct (exists_last Hn) as (t' & y & Ey).
                exists t'. rewrite Ey. f_equal. f_equal.
                rewrite <- X, Ey in E0.
                change (c :: b :: takewhile isspace t ++ t' ++ [y])
                  with ((c :: b :: takewhile isspace t) ++ t' ++ [y]) in E0.
                rewrite app_assoc in E0.
                now apply app_inj_tail in E0 as [_ ->]. }
              destruct T as (t' & T).
              destruct (I4 _ _ T N) as (y' & ->).
              exists (space :: y'). reflexivity.
      * assert (Lt : length (b :: t) <= n) by (simpl in *; lia).
        destruct (IH _ (Some c) Lt) as (I1 & I2 & _ & I4).
        repeat split.
        -- destruct I1 as [-> | H]; [now left | right; now right].
        -- intros x [<- | H]; [right; now left|].
           destruct (I2 _ H) as [-> | H']; [now left | right; now right].
        -- intros c0 t0 [= <- <-] _. eauto.
        -- intros t0 c0 E0 N.
           destruct (@last_of_tail c (b :: t) t0 c0 ltac:(discriminate) E0)
             as (t' & T).
           destruct (I4 _ _ T N) as (y' & ->).
           exists (c :: y'). reflexivity.
Qed.

Lemma lower_keeps_space (s : str) : In space s -> In space (lower s).
Proof.
  unfold lower. intros H. destruct (forallb is_ascii s).
  - change space with (ascii_lower space). now apply in_map.
  - change space with (ascii_lower space). now apply uni_lower_ascii.
Qed.

Lemma one_of_false (cs : str) (c : char) : ~ In c cs -> one_of cs c = false.
Proof.
  intros H. unfold one_of. apply not_true_is_false. intros E.
  apply existsb_exists in E as (x & Hx & E). apply N.eqb_eq in E. now subst.
Qed.

(** A token that is kept is another word than "and", however its letters are
    cased, and has no whitespace at its ends. *)
Lemma clean_token_kept (sub x : str) :
  sub <> [] -> clean_ends isspace sub -> ~ In comma sub ->
  In x (clean_token sub) ->
  strip x = x /\ lower x <> lit "and".
Proof.
  intros Hn [Hh Hl] Hc. unfold clean_token. cbn [existsb].
  rewrite orb_false_r.
  destruct (str_eqb (lower sub) (lit "and")) eqn:E; [contradiction|].
  assert (Na : lower sub <> lit "and").
  { intros A. rewrite A in E. discriminate. }
  change (re_sub spaces2 (lit " ") sub) with (collapse None sub).
  destruct (@collapse_shape (length sub) sub None (le_n _)) as (I1 & I2 & I3 & I4).
  destruct sub as [|c t]; [congruence|].
  destruct (exists_last Hn) as (t' & c' & El).
  pose proof (Hh c t eq_refl) as Sc. pose proof (Hl t' c' El) as Sc'.
  destruct (I3 c t eq_refl Sc) as (y1 & Y1).
  destruct (I4 t' c' El Sc') as (y2 & Y2).
  set (y := collapse None (c :: t)) in *.
  assert (C1 : clean_ends (one_of (lit " ,")) y).
  { split.
    - intros c0 t0 E0. rewrite Y1 in E0. injection E0 as <- _.
      apply one_of_false. intros [<- | [<- | []]].
      + discriminate Sc.
      + apply Hc. now left.
    - intros t0 c0 E0. rewrite Y2 in E0. apply app_inj_tail in E0 as [_ ->].
      apply one_of_false. intros [<- | [<- | []]].
      + discriminate Sc'.
      + apply Hc. rewrite El. apply in_elt. }
  assert (C2 : clean_ends isspace y).
  { split.
    - intros c0 t0 E0. rewrite Y1 in E0. now injection E0 as <- _.
    - intros t0 c0 E0. rewrite Y2 in E0. now apply app_inj_tail in E0 as [_ ->]. }
  unfold strip_chars. rewrite (strip_by_fix C1).
  destruct (nonempty y); [|contradiction].
  intros [<- | []]. split; [now apply strip_by_fix|].
  destruct I1 as [-> | S]; [assumption|].
  intros A. apply lower_keeps_space in S. rewrite A in S.
  simpl in S. repeat destruct S as [S | S]; try discriminate S; contradiction.
Qed.

Lemma tokens_shape (ch sub : str) :
  In sub (tokens ch) ->
  sub <> [] /\ clean_ends isspace sub /\ ~ In comma sub.
Proof.
  unfold tokens. rewrite in_map_iff. intros (c & <- & H).
  apply filter_In in H as [H N]. repeat split.
  - destruct (strip c); [discriminate | discriminate].
  - apply (strip_by_ends isspace c).
  - apply (strip_by_ends isspace c).
  - intros I. apply strip_by_incl in I. revert I.
    exact (@split_on_no_sep (ord ",") ch c H).
Qed.

Lemma cleaned_tokens_kept (raw_items : list str) (x : str) :
  In x (cleaned_tokens raw_items) -> strip x = x /\ lower x <> lit "and".
Proof.
  unfold cleaned_tokens. rewrite in_flat_map. intros (item & _ & H).
  apply in_flat_map in H as (ch & _ & H).
  apply in_flat_map in H as (sub & Hs & H).
  destruct (tokens_shape _ _ Hs) as (Hn & He & Hc).
  exact (@clean_token_kept sub x Hn He Hc H).
Qed.

End Tokens.
(** C2, as the code has it.  The fragment "iMac (2020 or later) and Mac Pro
    (2019 or later)" has no comma and no category label: it is returned whole,
    as the only entry.  A token, that is a piece between commas, trimmed,
    that is the word "and" in any letter case is dropped: no entry of the
    result, trimmed and in lower case, is "and". *)
Theorem clean_supported_systems_and :
  forall U : Unicode,
    clean_supported_systems
      [lit "iMac (2020 or later) and Mac Pro (2019 or later)"]
    = [lit "iMac (2020 or later) and Mac Pro (2019 or later)"] /\
    clean_supported_systems [lit "iMac, and, Mac Pro, AND"]
    = [lit "iMac"; lit "Mac Pro"] /\
    forall raw_items x,
      In x (clean_supported_systems raw_items) ->
      lower (strip x) <> lit "and".
Proof.
  intros U. split; [vm_compute; reflexivity|].
  split; [vm_compute; reflexivity|].
  intros raw_items x H. unfold clean_supported_systems in H.
  apply dedup_in in H as [H _].
  apply cleaned_tokens_kept in H as [-> H]. exact H.
Qed.

(** The claim C2 fails on its own example: whatever the character database,
    the fragment does not come back as the two entries that the claim
    lists. *)
Lemma clean_supported_systems_and_counterexample :
  ~ exists U : Unicode,
      clean_supported_systems
        [lit "iMac (2020 or later) and Mac Pro (2019 or later)"]
      = [lit "iMac (2020 or later)"; lit "Mac Pro (2019 or later)"].
Proof.
  intros [U H]. vm_compute in H. discriminate H.
Qed.

End MacosTokens.

(** * Groups and successive matches *)

Module GroupFacts.
Import Py Spec PyFacts PyGreedy SearchFacts.

Section Groups.
Context {U : Unicode}.

Lemma star_groups (a : regex) :
  (forall st st', In st' (run a st) -> groups st' = groups st) ->
  forall fuel st st', In st' (star (run a) fuel st) -> groups st' = groups st.
Proof.
  intros Ha. induction fuel as [|f IH]; intros st st'; simpl.
  - now intros [<- | []].
  - rewrite in_app_iff, in_flat_map. intros [(st1 & H1 & H2) | [<- | []]];
      [|reflexivity].
    destruct (length (rest st1) <? length (rest st)); [|contradiction].
    rewrite (IH _ _ H2). now apply Ha.
Qed.

Lemma run_groups (r : regex) :
  group_free r = true ->
  forall st st', In st' (run r st) -> groups st' = groups st.
Proof.
  induction r as [|p|a IHa b IHb|a IHa b IHb|a IHa|n a IHa|]; simpl; intros F st st'.
  - now intros [<- | []].
  - destruct (rest st) as [|c t]; [contradiction|].
    destruct (p c); [|contradiction]. now intros [<- | []].
  - apply andb_true_iff in F as [Fa Fb]. rewrite in_flat_map.
    intros (st1 & H1 & H2). rewrite (IHb Fb _ _ H2). now apply IHa.
  - apply andb_true_iff in F as [Fa Fb]. rewrite in_app_iff.
    intros [H | H]; [now apply IHa | now apply IHb].
  - apply star_groups. now apply IHa.
  - discriminate.
  - destruct (at_boundary st); [|contradiction]. now intros [<- | []].
Qed.

(** A group that closes a pattern holds a word of its body. *)
Lemma run_group_last (n : nat) (r : regex) (st st' : mstate) :
  In st' (run (Group n r) st) ->
  group_free r = true ->
  exists w, lang r w /\ groups st' = (n, w) :: groups st.
Proof.
  cbn [run]. rewrite in_map_iff. intros (st1 & <- & H) F. cbn [groups].
  destruct (run_sound _ _ _ H) as (w & E & L).
  exists w. rewrite E, consumed_app, (run_groups _ F _ _ H). auto.
Qed.

(** A group holds the word of its body that the match read. *)
Lemma run_group_split (n : nat) (r : regex) (st st' : mstate) :
  In st' (run (Group n r) st) ->
  group_free r = true ->
  exists w, rest st = w ++ rest st' /\ lang r w /\
            groups st' = (n, w) :: groups st.
Proof.
  cbn [run]. rewrite in_map_iff. intros (st1 & <- & H) F. cbn [groups rest].
  destruct (run_sound _ _ _ H) as (w & E & L).
  exists w. rewrite E, consumed_app, (run_groups _ F _ _ H). auto.
Qed.

(** A pattern without [\b] that has a word at some place of the text is
    found by [re.search], and not to the right of that place. *)
Lemma search_at_leftmost (r : regex) (u w post : str) :
  lang r w -> wordb_free r = true ->
  forall pre,
    exists m, search_at r pre (u ++ w ++ post) = Some m /\
              length (m_pre m) <= length pre + length u.
Proof.
  intros L F. induction u as [|c u IH]; intros pre.
  - destruct (run_complete L F (hd_error pre) post []) as (st & I & _).
    assert (E : exists st0,
               try_match r (hd_error pre) (w ++ post) = Some st0).
    { unfold try_match.
      destruct (run r (MState (hd_error pre) (w ++ post) [])) as [|st0 l];
        [contradiction | now exists st0]. }
    destruct E as (st0 & E). cbn [app].
    exists (RMatch (rev pre) (consumed (w ++ post) (rest st0)) (rest st0)
                   (groups st0)).
    split.
    + destruct (w ++ post); cbn [search_at]; rewrite E; reflexivity.
    + cbn [m_pre]. rewrite length_rev. lia.
  - cbn [app search_at].
    destruct (try_match r (hd_error pre) (c :: u ++ w ++ post)) as [st|].
    + eexists. split; [reflexivity|]. cbn [m_pre]. rewrite length_rev.
      simpl. lia.
    + destruct (IH (c :: pre)) as (m & E & Len). exists m.
      split; [exact E|]. simpl in Len |- *. lia.
Qed.

(** The first match of [re.finditer] is the match of [re.search]. *)
Lemma finditer_go_hd (r : regex) (s : str) :
  forall pre, hd_error (finditer_go r pre 0 s) = search_at r pre s.
Proof.
  induction s as [|c t IH]; intros pre; cbn [finditer_go search_at].
  - destruct (try_match r (hd_error pre) []) as [st|] eqn:E; [|reflexivity].
    apply hd_error_in, run_sound in E. destruct E as (w & E & _).
    cbn [rest] in E. symmetry in E. apply app_eq_nil in E as [_ ->].
    reflexivity.
  - destruct (try_match r (hd_error pre) (c :: t)) as [st|]; [reflexivity|].
    apply IH.
Qed.

Lemma finditer_token_of (r : regex) (s : str) :
  forall pre skip m,
    In m (finditer_go (token_of r) pre skip s) ->
    exists w, group m 1 = Some w /\ lang r w.
Proof.
  assert (X : forall p s0 st, try_match (token_of r) p s0 = Some st ->
                exists w, assoc 1 (groups st) = Some w /\ lang r w).
  { intros p s0 st E. apply hd_error_in, run_token_of in E.
    destruct E as (w & _ & L & G). exists w. rewrite G. auto. }
  induction s as [|c t IH]; intros pre skip m; cbn [finditer_go].
  - destruct skip; [|contradiction].
    destruct (try_match _ _ []) as [st|] eqn:E; [|contradiction].
    intros [<- | []]. exact (X _ _ _ E).
  - destruct skip as [|k]; [|apply IH].
    destruct (try_match _ _ (c :: t)) as [st|] eqn:E; [|apply IH].
    intros [<- | H]; [exact (X _ _ _ E) | exact (IH _ _ _ H)].
Qed.

End Groups.
End GroupFacts.

(** * The macOS requirement of an Xcode release *)

Module XcodeMacos.
Import Py Spec PyFacts PyGreedy SearchFacts Consume GroupFacts XcodeReleases.

Section Macos.
Context {U : Unicode}.

(** The three rules of [parse_macos_versions] that the claim is about, in the
    order in which the function tries them. *)
Lemma parse_macos_versions_range (text : str) (m : rmatch) :
  search macos_range (clean_version_text text) = Some m ->
  parse_macos_versions text = group_text m 1 ++ lit " - " ++ group_text m 2.
Proof. unfold parse_macos_versions. now intros ->. Qed.

Lemma parse_macos_versions_or_later (text v : str) (vs : list str) :
  search macos_range (clean_version_text text) = None ->
  contains (lit "or later") (lower (clean_version_text text)) = true ->
  findall1 dotted_token (clean_version_text text) = v :: vs ->
  parse_macos_versions text = v ++ lit "+".
Proof.
  unfold parse_macos_versions. intros -> ->. fold dotted_token. now intros ->.
Qed.

(** The two groups of a match of the range pattern are two version tokens. *)
Lemma run_macos_range (p : option char) (s : str) (st : mstate) :
  In st (run macos_range (MState p s [])) ->
  exists a b, lang version_x a /\ lang version_x b /\
              groups st = [(2, b); (1, a)].
Proof.
  unfold macos_range. intros H.
  apply in_flat_map in H as (st1 & H1 & H).
  apply run_group_last in H1 as (a & La & G1); [|reflexivity].
  apply in_flat_map in H as (st2 & H2 & H).
  apply run_groups in H2; [|reflexivity].
  apply in_flat_map in H as (st3 & H3 & H).
  apply (@run_groups U (Class (one_of [ord "-"; 8211%N]))) in H3; [|reflexivity].
  apply in_flat_map in H as (st4 & H4 & H).
  apply run_groups in H4; [|reflexivity].
  apply in_flat_map in H as (st5 & H5 & H).
  apply run_groups in H5; [|reflexivity].
  apply run_group_last in H as (b & Lb & G); [|reflexivity].
  exists a, b. rewrite G, H5, H4, H3, H2, G1. auto.
Qed.

Lemma search_at_macos_range (s : str) :
  forall pre m,
    search_at macos_range pre s = Some m ->
    exists a b, lang version_x a /\ lang version_x b /\
                group_text m 1 = a /\ group_text m 2 = b.
Proof.
  assert (X : forall p s0 st m,
             try_match macos_range p s0 = Some st -> m_groups m = groups st ->
             exists a b, lang version_x a /\ lang version_x b /\
                         group_text m 1 = a /\ group_text m 2 = b).
  { intros p s0 st m E G. apply hd_error_in, run_macos_range in E.
    destruct E as (a & b & La & Lb & G'). exists a, b.
    unfold group_text, group. rewrite G, G'. auto. }
  induction s as [|c t IH]; intros pre m; cbn [search_at];
    destruct (try_match macos_range (hd_error pre) _) as [st|] eqn:E;
    try discriminate; try (apply IH).
  all: intros [= <-]; eapply X; [exact E | reflexivity].
Qed.

(** A match of the range pattern, laid over the text it was found in. *)
Lemma run_macos_range_split (p : option char) (s : str) (st : mstate) :
  In st (run macos_range (MState p s [])) ->
  exists a gap b,
    s = a ++ gap ++ b ++ rest st /\
    lang version_x a /\ lang range_gap gap /\ lang version_x b /\
    groups st = [(2, b); (1, a)].
Proof.
  unfold macos_range. intros H.
  apply in_flat_map in H as (st1 & H1 & H).
  apply run_group_split in H1 as (a & Ea & La & G1); [|reflexivity].
  apply in_flat_map in H as (st2 & H2 & H).
  destruct (run_sound spaces _ _ H2) as (w2 & E2 & L2).
  apply run_groups in H2; [|reflexivity].
  apply in_flat_map in H as (st3 & H3 & H).
  destruct (run_sound (Class (one_of [ord "-"; 8211%N])) _ _ H3)
    as (w3 & E3 & L3).
  apply (@run_groups U (Class (one_of [ord "-"; 8211%N]))) in H3; [|reflexivity].
  apply in_flat_map in H as (st4 & H4 & H).
  destruct (run_sound spaces _ _ H4) as (w4 & E4 & L4).
  apply run_groups in H4; [|reflexivity].
  apply in_flat_map in H as (st5 & H5 & H).
  destruct (run_sound
              (Opt (Seq (Lit (lit "macOS"))
                        (Seq spaces1 (Seq (Plus (Class isword)) spaces1))))
              _ _ H5) as (w5 & E5 & L5).
  apply run_groups in H5; [|reflexivity].
  apply run_group_split in H as (b & Eb & Lb & G); [|reflexivity].
  exists a, (w2 ++ w3 ++ w4 ++ w5), b. cbn [rest] in Ea.
  split; [|split; [exact La|split; [|split; [exact Lb|]]]].
  - rewrite Ea, E2, E3, E4, E5, Eb. now rewrite <- !app_assoc.
  - unfold range_gap. auto with re.
  - rewrite G, H5, H4, H3, H2, G1. reflexivity.
Qed.

Lemma search_at_macos_range_split (s : str) :
  forall pre m,
    search_at macos_range pre s = Some m ->
    exists a gap b,
      rev pre ++ s = m_pre m ++ a ++ gap ++ b ++ m_post m /\
      lang version_x a /\ lang range_gap gap /\ lang version_x b /\
      group_text m 1 = a /\ group_text m 2 = b.
Proof.
  assert (X : forall pre s0 st,
             try_match macos_range (hd_error pre) s0 = Some st ->
             let m := RMatch (rev pre) (consumed s0 (rest st)) (rest st)
                             (groups st) in
             exists a gap b,
               rev pre ++ s0 = m_pre m ++ a ++ gap ++ b ++ m_post m /\
               lang version_x a /\ lang range_gap gap /\ lang version_x b /\
               group_text m 1 = a /\ group_text m 2 = b).
  { intros pre s0 st E m. apply hd_error_in, run_macos_range_split in E.
    destruct E as (a & gap & b & E & La & Lg & Lb & G). exists a, gap, b.
    unfold group_text, group. subst m. cbn [m_pre m_post m_groups].
    rewrite G. cbn [assoc Nat.eqb]. rewrite <- E. repeat split; auto. }
  induction s as [|c t IH]; intros pre m; cbn [search_at];
    destruct (try_match macos_range (hd_error pre) _) as [st|] eqn:E;
    try discriminate.
  - intros [= <-]. exact (X _ _ _ E).
  - intros H. destruct (IH _ _ H) as (a & gap & b & Eq & R).
    exists a, gap, b. split; [|exact R].
    rewrite <- Eq. cbn [rev]. now rewrite <- app_assoc.
Qed.

(** Where the text holds a range, the range rule answers, with the two
    version tokens of the leftmost place that holds one. *)
Lemma parse_macos_versions_has_range (text : str) :
  has_range (clean_version_text text) ->
  exists u a gap b post,
    clean_version_text text = u ++ a ++ gap ++ b ++ post /\
    lang version_x a /\ lang range_gap gap /\ lang version_x b /\
    (forall u', range_at (clean_version_text text) u' ->
                length u <= length u') /\
    parse_macos_versions text = a ++ lit " - " ++ b.
Proof.
  intros (u0 & w0 & post0 & E0 & L0).
  destruct (@search_at_leftmost U macos_range u0 w0 post0 L0 eq_refl [])
    as (m & S & _).
  rewrite <- E0 in S.
  destruct (search_at_macos_range_split _ _ S)
    as (a & gap & b & Eq & La & Lg & Lb & G1 & G2).
  exists (m_pre m), a, gap, b, (m_post m).
  split; [exact Eq|]. repeat (split; [assumption|]). split.
  - intros u' (w' & post' & E' & L').
    destruct (@search_at_leftmost U macos_range u' w' post' L' eq_refl [])
      as (m' & S' & Len).
    rewrite <- E' in S'. rewrite S in S'. injection S' as <-. exact Len.
  - rewrite (parse_macos_versions_range _ S), G1, G2. reflexivity.
Qed.

(** The text holds a range exactly when the search for one succeeds. *)
Lemma has_range_search (c : str) :
  ~ has_range c <-> search macos_range c = None.
Proof.
  split.
  - intros N. destruct (search macos_range c) as [m|] eqn:S; [|reflexivity].
    exfalso. apply N. apply search_at_split in S as (u & w & E & L).
    exists u, w, (m_post m). auto.
  - intros S (u & w & post & E & L).
    destruct (@search_at_leftmost U macos_range u w post L eq_refl [])
      as (m & S' & _).
    rewrite <- E in S'. unfold search in S. congruence.
Qed.

(** Where the text holds no range, the search for one fails. *)
Lemma search_macos_range_none (c : str) :
  ~ has_range c -> search macos_range c = None.
Proof.
  intros N. destruct (search macos_range c) as [m|] eqn:S; [|reflexivity].
  exfalso. apply N. apply search_at_split in S as (u & w & E & L).
  exists u, w, (m_post m). auto.
Qed.

(** Where the text holds no range and says "or later", the answer is its
    first strictly dotted token with "+" behind it. *)
Lemma parse_macos_versions_first_dotted (text v : str) :
  ~ has_range (clean_version_text text) ->
  contains (lit "or later") (lower (clean_version_text text)) = true ->
  first_dotted (clean_version_text text) = Some v ->
  (exists u post, clean_version_text text = u ++ v ++ post) /\
  lang version_dotted v /\
  parse_macos_versions text = v ++ lit "+".
Proof.
  intros N C F. unfold first_dotted in F.
  destruct (search dotted_token (clean_version_text text)) as [m|] eqn:S;
    [|discriminate].
  injection F as <-.
  pose proof S as S'. unfold search in S'.
  rewrite <- finditer_go_hd in S'.
  destruct (@search_at_token_split U version_dotted _ _ _ S)
    as (u & w & E & G & L).
  unfold group_text. rewrite G. split; [eauto|]. split; [exact L|].
  destruct (finditer_go dotted_token [] 0 (clean_version_text text))
    as [|m0 ms] eqn:Fi; [discriminate|].
  injection S' as ->.
  apply (@parse_macos_versions_or_later text w (map (fun m => group_text m 1) ms));
    [now apply search_macos_range_none | exact C |].
  unfold findall1, finditer. rewrite Fi. cbn [map].
  unfold group_text. now rewrite G.
Qed.

End Macos.

(** C6.  [parse_macos_versions] gives ["14.0+"] for "macOS Sonoma 14.0 or
    later" and ["14.5 - 15.x"] for "macOS Sonoma 14.5 - macOS Sequoia 15.x",
    and the range rule comes before the "or later" rule: "14.5 - 15.x or
    later" gives ["14.5 - 15.x"].  But the phrase that the range pattern lets
    stand before the second token is "macOS" and ONE word: on "macOS Catalina
    10.15.4 - macOS Big Sur 11.x", where the name has two words, the range is
    lost: the cleaned text holds no range of the pattern, and the result is
    ["10.15.4"], not ["10.15.4 - 11.x"].
    In general, when the cleaned text holds a range (a version token, the
    dash, at most a phrase of "macOS" and one word, a version token), the
    result is [a ++ " - " ++ b] for the two version tokens [a] and [b] of the
    leftmost place of the text that holds one, [a] standing before [b] with
    only the dash and such a phrase between them, whatever else the text
    says.  When it holds none and says "or later", the result is the first
    strictly dotted token of the text with "+" behind it. *)
Theorem parse_macos_versions_rules :
  forall U : Unicode,
    parse_macos_versions (lit "macOS Sonoma 14.0 or later") = lit "14.0+" /\
    parse_macos_versions (lit "macOS Sonoma 14.5 - macOS Sequoia 15.x")
    = lit "14.5 - 15.x" /\
    parse_macos_versions (lit "14.5 - 15.x or later") = lit "14.5 - 15.x" /\
    parse_macos_versions two_word_range = lit "10.15.4" /\
    ~ has_range (clean_version_text two_word_range) /\
    (forall text,
        has_range (clean_version_text text) ->
        exists u a gap b post,
          clean_version_text text = u ++ a ++ gap ++ b ++ post /\
          lang version_x a /\ lang range_gap gap /\ lang version_x b /\
          (forall u', range_at (clean_version_text text) u' ->
                      length u <= length u') /\
          parse_macos_versions text = a ++ lit " - " ++ b) /\
    (forall text v,
        ~ has_range (clean_version_text text) ->
        contains (lit "or later") (lower (clean_version_text text)) = true ->
        first_dotted (clean_version_text text) = Some v ->
        (exists u post, clean_version_text text = u ++ v ++ post) /\
        lang version_dotted v /\
        parse_macos_versions text = v ++ lit "+").
Proof.
  intros U. repeat (split; [vm_compute; reflexivity|]). split; [|split].
  - apply has_range_search. vm_compute. reflexivity.
  - intros text H. now apply parse_macos_versions_has_range.
  - intros text v N C F. now apply parse_macos_versions_first_dotted.
Qed.

End XcodeMacos.

(** * The rows of the Xcode tables *)

Module XcodeRows.
Import Py Spec PyFacts PyGreedy SearchFacts GroupFacts Consume XcodeReleases.

Section Rows.
Context {U : Unicode}.

Lemma lang_ch_inv (c : char) (w : str) : lang (Ch c) w -> w = [c].
Proof.
  intros H. apply lang_class_inv in H as (d & -> & E).
  apply N.eqb_eq in E. now subst.
Qed.

Lemma lang_opt_dot_digits (w : str) :
  lang (Opt (Seq dot digits)) w ->
  w = [] \/ exists d, is_number d /\ w = ord "." :: d.
Proof.
  unfold Opt. inversion 1 as [| | |? ? ? H1|? ? ? H1| | | |]; subst.
  - right. inversion H1 as [| |? ? x d Hx Hd| | | | | |]; subst.
    apply lang_ch_inv in Hx as ->. apply lang_plus_class_inv in Hd.
    exists d. auto.
  - left. now inversion H1.
Qed.

Lemma lang_version_123 (w : str) : lang version_123 w -> dotted_numeric w.
Proof.
  unfold version_123. inversion 1 as [| |? ? a r Ha Hr| | | | | |]; subst.
  inversion Hr as [| |? ? x y Hx Hy| | | | | |]; subst.
  apply lang_plus_class_inv in Ha.
  apply lang_opt_dot_digits in Hx as [-> | (b & Hb & ->)];
    apply lang_opt_dot_digits in Hy as [-> | (c & Hc & ->)]; simpl.
  - rewrite app_nil_r. now constructor.
  - now constructor.
  - rewrite app_nil_r. now constructor.
  - now constructor.
Qed.

Lemma parse_row_version ix im isd (cells : list str) (r : release) :
  parse_row ix im isd cells = Some r -> dotted_numeric (xcode_version r).
Proof.
  unfold parse_row. destruct (_ <=? _); [discriminate|].
  fold xcode_token.
  destruct (search xcode_token _) as [m|] eqn:E; [|discriminate].
  intros [= <-]. cbn [xcode_version].
  apply (@search_token_of U version_123) in E as (w & G & L).
  unfold group_text. rewrite G. now apply lang_version_123.
Qed.

Lemma parse_rows_version ix im isd (rows : list (list str)) :
  Forall (fun r => dotted_numeric (xcode_version r)) (parse_rows ix im isd rows).
Proof.
  apply Forall_forall. intros r H. unfold parse_rows in H.
  apply in_flat_map in H as (cells & _ & H).
  destruct (parse_row ix im isd cells) as [r'|] eqn:E; [|contradiction].
  destruct H as [<- | []]. eapply parse_row_version. exact E.
Qed.

Lemma parse_tables_version (tables : list table) :
  forall out, parse_tables tables = Some out ->
    Forall (fun r => dotted_numeric (xcode_version r)) out.
Proof.
  induction tables as [|t ts IH]; simpl; intros out.
  - intros [= <-]. constructor.
  - destruct (parse_table t) as [rows|] eqn:E; [|discriminate].
    destruct (parse_tables ts) as [more|]; [|discriminate].
    intros [= <-]. apply Forall_app. split; [|now apply IH].
    unfold parse_table in E.
    destruct (header_indices _) as [[[ix|] im] isd]; [|discriminate].
    injection E as <-. apply parse_rows_version.
Qed.

Lemma parse_rows_app ix im isd (r1 r2 : list (list str)) :
  parse_rows ix im isd (r1 ++ r2)
  = parse_rows ix im isd r1 ++ parse_rows ix im isd r2.
Proof. unfold parse_rows. apply flat_map_app. Qed.

Lemma parse_row_no_token ix im isd (cells : list str) :
  search xcode_token (clean_version_text (nth ix cells [])) = None ->
  parse_row ix im isd cells = None.
Proof.
  unfold parse_row. destruct (_ <=? _); [reflexivity|].
  fold xcode_token. now intros ->.
Qed.

(** *** A cell without a digit has no version token *)

Lemma replace_go_in (old new : str) (x : char) (s : str) :
  forall skip, In x (replace_go old new skip s) -> In x new \/ In x s.
Proof.
  induction s as [|c t IH]; intros skip; cbn [replace_go]; [tauto|].
  destruct skip as [|k].
  - destruct (startswith old (c :: t)).
    + rewrite in_app_iff. intros [H | H]; [now left|].
      destruct (IH _ H); [now left | right; now right].
    + intros [<- | H]; [right; now left|].
      destruct (IH _ H); [now left | right; now right].
  - intros H. destruct (IH _ H); [now left | right; now right].
Qed.

Lemma replace_in (old new s : str) (x : char) :
  In x (replace old new s) -> In x new \/ In x s.
Proof. apply replace_go_in. Qed.

Lemma sub_go_in (r : regex) (repl : str) (x : char) (s : str) :
  forall p skip, In x (sub_go r repl p skip s) -> In x repl \/ In x s.
Proof.
  induction s as [|c t IH]; intros p skip; cbn [sub_go].
  - destruct skip; [|tauto]. destruct (try_match r p []); tauto.
  - destruct skip as [|k].
    + destruct (try_match r p (c :: t)) as [st|].
      * destruct (length (c :: t) - length (rest st)).
        -- rewrite in_app_iff. intros [H | [<- | H]];
             [now left | right; now left |].
           destruct (IH _ _ H); [now left | right; now right].
        -- rewrite in_app_iff. intros [H | H]; [now left|].
           destruct (IH _ _ H); [now left | right; now right].
      * intros [<- | H]; [right; now left|].
        destruct (IH _ _ H); [now left | right; now right].
    + intros H. destruct (IH _ _ H); [now left | right; now right].
Qed.

(** [clean_version_text] brings in no character but the space and the
    hyphen. *)
Lemma clean_version_text_in (text : str) (x : char) :
  In x (clean_version_text text) ->
  x = ord " " \/ x = ord "-" \/ In x text.
Proof.
  unfold clean_version_text. intros H.
  apply StripFacts.strip_by_incl in H.
  apply sub_go_in in H as [[<- | []] | H]; [now left|].
  repeat (apply replace_in in H as [[<- | []] | H]; [tauto|]).
  tauto.
Qed.

Lemma clean_version_text_no_digit (text : str) :
  no_digit text = true -> no_digit (clean_version_text text) = true.
Proof.
  unfold no_digit. rewrite !forallb_forall. intros H x I.
  apply clean_version_text_in in I as [-> | [-> | I]];
    [reflexivity | reflexivity | now apply H].
Qed.

Lemma dotted_numeric_digit (w : str) :
  dotted_numeric w -> exists c t, w = c :: t /\ isdecimal c = true.
Proof.
  assert (X : forall a r, is_number a ->
                exists c t, a ++ r = c :: t /\ isdecimal c = true).
  { intros [|c a] r [Hn Ha]; [congruence|]. simpl in Ha.
    apply andb_true_iff in Ha as [Hc _]. exists c, (a ++ r). auto. }
  intros [a Ha | a b Ha _ | a b c Ha _ _].
  - rewrite <- (app_nil_r a). now apply X.
  - now apply X.
  - now apply X.
Qed.

Lemma search_no_digit (s : str) :
  no_digit s = true -> search xcode_token s = None.
Proof.
  intros H. destruct (search xcode_token s) as [m|] eqn:E; [|reflexivity].
  exfalso. apply search_at_split in E as (u & w & -> & L).
  unfold xcode_token in L.
  inversion L as [| |? ? w0 w1 L0 L1| | | | | |]; subst.
  inversion L0; subst.
  inversion L1 as [| |? ? w2 w3 L2 L3| | | | | |]; subst.
  inversion L3; subst. inversion L2 as [| | | | | | |? ? ? L4|]; subst.
  apply lang_version_123, dotted_numeric_digit in L4 as (c & t & -> & Hc).
  unfold no_digit in H. rewrite forallb_forall in H.
  specialize (H c). rewrite Hc in H. simpl in H.
  assert (I : In c (u ++ ([] ++ (c :: t) ++ []) ++ m_post m)).
  { apply in_or_app. right. simpl. now left. }
  specialize (H I). discriminate.
Qed.

Lemma parse_row_no_digit ix im isd (cells : list str) :
  no_digit (nth ix cells []) = true -> parse_row ix im isd cells = None.
Proof.
  intros H. apply parse_row_no_token, search_no_digit.
  now apply clean_version_text_no_digit.
Qed.

End Rows.

(** C9.  In every record of the output of the Xcode pipeline,
    [xcode_version] is one, two or three non-empty runs of digits with dots
    between them, and so not empty.  A row in whose Xcode cell the search
    finds no such token adds nothing to the output, and the rows around it
    are treated as without it; such is every row whose Xcode cell has no
    decimal digit.  In the sample table the row "Xcode beta" goes and the two
    others stay. *)
Theorem xcode_version_dotted :
  forall U : Unicode,
    (forall doc out,
        all_data doc = Some out ->
        Forall (fun r => dotted_numeric (xcode_version r) /\
                         xcode_version r <> []) out) /\
    (forall ix im isd before cells after,
        search xcode_token (clean_version_text (nth ix cells [])) = None ->
        parse_rows ix im isd (before ++ cells :: after)
        = parse_rows ix im isd before ++ parse_rows ix im isd after) /\
    (forall ix im isd cells,
        no_digit (nth ix cells []) = true ->
        parse_row ix im isd cells = None) /\
    all_data [sample_table]
    = Some [Release (lit "15.0.1") (lit "13.5+") [(lit "iOS", lit "17.0")];
            Release (lit "14") (lit "12.5") [(lit "macOS", lit "13")]].
Proof.
  intros U. split; [|split; [|split]].
  - intros doc out. unfold all_data.
    destruct (find_xcode_tables doc); [|discriminate].
    intros H. apply parse_tables_version in H.
    eapply Forall_impl; [|exact H]. cbv beta. intros r D.
    split; [exact D|].
    apply dotted_numeric_digit in D as (c & t & -> & _). discriminate.
  - intros ix im isd before cells after H.
    rewrite parse_rows_app. f_equal.
    change (cells :: after) with ([cells] ++ after).
    rewrite parse_rows_app. unfold parse_rows at 1. simpl.
    now rewrite (parse_row_no_token _ _ _ _ H).
  - intros ix im isd cells. apply parse_row_no_digit.
  - vm_compute. reflexivity.
Qed.

(** C3: what the code does.  The key of an entry is the platform name as the
    text spells it, not the spelling of the list of names: "ios 17.0" gives
    the key "ios", and a name in two spellings gives two entries.  On the
    text of the claim the five entries are as expected. *)
Theorem parse_sdk_column_keys :
  forall U : Unicode,
    parse_sdk_column (lit "ios 17.0") = [(lit "ios", lit "17.0")] /\
    parse_sdk_column (lit "IOS 17.0, iOS 17.2")
    = [(lit "IOS", lit "17.0"); (lit "iOS", lit "17.2")] /\
    parse_sdk_column
      (lit "iOS 16.1 tvOS 16.1 watchOS 9.1 macOS 13 DriverKit 22.1")
    = [(lit "iOS", lit "16.1"); (lit "tvOS", lit "16.1");
       (lit "watchOS", lit "9.1"); (lit "macOS", lit "13");
       (lit "DriverKit", lit "22.1")].
Proof.
  intros U. repeat split; vm_compute; reflexivity.
Qed.

End XcodeRows.

(** * The columns that the row extractors choose *)

Module HeaderFacts.
Import Py Spec.

Lemma xcode_header_fold (l : list str) :
  forall i acc,
    fold_left XcodeReleases.header_step (combine (seq i (length l)) l) acc
    = (or_else (last_index_from is_xcode i l) (fst (fst acc)),
       or_else (last_index_from is_macos i l) (snd (fst acc)),
       or_else (last_index_from is_sdk i l) (snd acc)).
Proof.
  induction l as [|h t IH]; intros i [[ax am] asd]; [reflexivity|].
  cbn [length seq combine fold_left]. rewrite IH.
  cbn [last_index_from]. unfold XcodeReleases.header_step, is_sdk, is_macos, is_xcode.
  destruct (last_index_from _ (S i) t), (last_index_from _ (S i) t),
    (last_index_from _ (S i) t); cbn [or_else fst snd];
    destruct (contains (lit "xcode") h); cbn [negb andb or_else fst snd];
      try reflexivity;
    destruct (contains (lit "macos") h || contains (lit "minimum") h
              || contains (lit "os") h);
      cbn [negb andb or_else fst snd]; try reflexivity;
    destruct (contains (lit "sdk") h); reflexivity.
Qed.

Lemma xcode_header_indices (headers : list str) :
  XcodeReleases.header_indices headers
  = (last_index is_xcode headers, last_index is_macos headers,
     last_index is_sdk headers).
Proof.
  unfold XcodeReleases.header_indices, XcodeReleases.enumerate.
  rewrite xcode_header_fold. unfold last_index, or_else. cbn [fst snd].
  destruct (last_index_from is_xcode 0 headers),
    (last_index_from is_macos 0 headers),
    (last_index_from is_sdk 0 headers); reflexivity.
Qed.

Section Macos.
Context {U : Unicode}.

Lemma macos_header_fold (l : list str) :
  forall i acc,
    fold_left MacosCompat.header_step (combine (seq i (length l)) l) acc
    = (or_else (last_index_from is_os i l) (fst acc),
       or_else (last_index_from is_sup i l) (snd acc)).
Proof.
  induction l as [|h t IH]; intros i [ao asu]; [reflexivity|].
  cbn [length seq combine fold_left]. rewrite IH.
  cbn [last_index_from]. unfold MacosCompat.header_step, is_os, is_sup.
  cbn [fst snd].
  destruct (last_index_from _ (S i) t), (last_index_from _ (S i) t);
    cbn [or_else];
    destruct (startswith (lit "operating system") (lower h));
    destruct (startswith (lit "supported systems") (lower h)); reflexivity.
Qed.

Lemma macos_header_indices (headers : list str) :
  MacosCompat.header_indices headers
  = (last_index is_os headers, last_index is_sup headers).
Proof.
  unfold MacosCompat.header_indices, MacosCompat.enumerate.
  rewrite macos_header_fold. unfold last_index, or_else. cbn [fst snd].
  destruct (last_index_from is_os 0 headers),
    (last_index_from is_sup 0 headers); reflexivity.
Qed.

End Macos.

(** C4, as the code has it.  The loops over the headers run to the end and
    overwrite: the column of a role is that of the LAST header that fits the
    role.  In the Xcode pipeline a header counts for the first of the roles
    Xcode version, macOS requirement, SDK that it fits. *)
Theorem header_last_match :
  forall U : Unicode,
    (forall headers,
        MacosCompat.header_indices headers
        = (last_index is_os headers, last_index is_sup headers)) /\
    (forall headers,
        XcodeReleases.header_indices headers
        = (last_index is_xcode headers, last_index is_macos headers,
           last_index is_sdk headers)) /\
    MacosCompat.header_indices
      [lit "Operating system"; lit "Operating system (latest)";
       lit "Supported systems"]
    = (Some 1, Some 2) /\
    XcodeReleases.header_indices
      (map lower [lit "Xcode"; lit "Xcode build"; lit "Minimum OS"; lit "SDK"])
    = (Some 1, Some 2, Some 3).
Proof.
  intros U. split; [exact macos_header_indices|].
  split; [exact xcode_header_indices|].
  split; vm_compute; reflexivity.
Qed.

(** The claim C4 fails: of two headers that name Xcode the second is taken,
    not the first. *)
Lemma header_first_match_counterexample :
  fst (fst (XcodeReleases.header_indices [lit "xcode"; lit "xcode build"]))
  <> first_index is_xcode [lit "xcode"; lit "xcode build"].
Proof. vm_compute. discriminate. Qed.

End HeaderFacts.

(** * The rows that the Xcode row extractor passes over *)

Module XcodeShortRows.
Import Py Spec XcodeReleases XcodeRows.

Lemma max_index_spec (ix : nat) (im isd : option nat) :
  max_index ix im isd
  = Nat.max (Nat.max ix (index_or_0 im)) (index_or_0 isd).
Proof.
  unfold max_index. destruct im, isd; simpl; lia.
Qed.

(** C5, as the code has it.  The test on the number of cells takes the
    highest index among ALL the columns found, the optional ones included: a
    row is passed over when it has no cell at that index, even when it
    reaches the Xcode column.  A row that is long enough is emitted when its
    Xcode cell has a version token; an optional field is empty when the header has
    no column for it. *)
Theorem parse_row_cells :
  forall (U : Unicode) (ix : nat) (im isd : option nat) (cells : list str),
    max_index ix im isd
    = Nat.max (Nat.max ix (index_or_0 im)) (index_or_0 isd) /\
    (length cells <= max_index ix im isd ->
     parse_row ix im isd cells = None) /\
    (max_index ix im isd < length cells ->
     parse_row ix im isd cells
     = match search xcode_token (clean_version_text (nth ix cells [])) with
       | None => None
       | Some m =>
           Some (Release
                   (group_text m 1)
                   (match im with
                    | Some i => parse_macos_versions (nth i cells [])
                    | None => []
                    end)
                   (match isd with
                    | Some i => parse_sdk_column (nth i cells [])
                    | None => []
                    end))
       end) /\
    parse_table short_row_table = Some [] /\
    parse_table one_column_table = Some [Release (lit "15.0") [] []].
Proof.
  intros U ix im isd cells. split; [apply max_index_spec|].
  split; [|split; [|split; vm_compute; reflexivity]].
  - intros H. unfold parse_row.
    destruct (Nat.leb_spec (length cells) (max_index ix im isd)); [reflexivity | lia].
  - intros H. unfold parse_row. fold xcode_token.
    destruct (Nat.leb_spec (length cells) (max_index ix im isd)); [lia|].
    destruct (search xcode_token _); [|reflexivity].
    rewrite max_index_spec in H.
    destruct im as [i|], isd as [j|]; cbn [index_or_0] in H;
      repeat match goal with
             | |- context [?a <? ?b] =>
                 destruct (Nat.ltb_spec a b); [|lia]
             end; reflexivity.
Qed.

(** The claim C5 fails: the row of [short_row_table] reaches the Xcode column
    and not the optional ones, and no record comes out of it, whatever the
    character database. *)
Lemma parse_row_cells_counterexample :
  ~ exists U : Unicode,
      parse_table short_row_table = Some [Release (lit "15.0") [] []].
Proof. intros [U H]. vm_compute in H. discriminate H. Qed.

End XcodeShortRows.

(** * Locating the hardware table, and when the macOS run fails *)

Module MacosLocate.
Import Py Spec PyFacts HeaderFacts MacosCompat MacosFilter.

Lemma last_index_from_none (p : str -> bool) (l : list str) :
  forall i, last_index_from p i l = None <-> existsb p l = false.
Proof.
  induction l as [|h t IH]; intros i; simpl; [tauto|].
  specialize (IH (S i)).
  destruct (last_index_from p (S i) t).
  - split; [discriminate|]. rewrite orb_false_iff. intros [_ H].
    apply IH in H. discriminate.
  - destruct (p h); simpl; [split; discriminate|]. tauto.
Qed.

Lemma existsb_map_lower {A B : Type} (f : B -> bool) (g : A -> B) (l : list A) :
  existsb f (map g l) = existsb (fun x => f (g x)) l.
Proof. induction l as [|x l IH]; simpl; [reflexivity | now rewrite IH]. Qed.

Lemma first_wikitable_some (sibs : list node) (t : table) :
  first_wikitable sibs = Some t <->
  exists before sib after,
    sibs = before ++ sib :: after /\ wikitable_of sib = Some t /\
    Forall (fun n => wikitable_of n = None) before.
Proof.
  induction sibs as [|n sibs IH]; simpl.
  - split; [discriminate|]. intros (b & s & a & E & _). destruct b; discriminate.
  - destruct (wikitable_of n) as [t'|] eqn:W.
    + split.
      * intros [= <-]. exists [], n, sibs. repeat split; auto.
      * intros ([|n' b] & s & a & E & Ws & F).
        -- injection E as <- _. congruence.
        -- injection E as <- _. inversion F; congruence.
    + rewrite IH. split.
      * intros (b & s & a & -> & Ws & F). exists (n :: b), s, a.
        repeat split; auto.
      * intros ([|n' b] & s & a & E & Ws & F).
        -- injection E as <- _. congruence.
        -- injection E as <- ->. inversion F; subst.
           exists b, s, a. repeat split; auto.
Qed.

Lemma first_wikitable_none (sibs : list node) :
  first_wikitable sibs = None <-> Forall (fun n => wikitable_of n = None) sibs.
Proof.
  induction sibs as [|n sibs IH]; simpl; [split; auto|].
  destruct (wikitable_of n) eqn:W.
  - split; [discriminate|]. inversion 1; congruence.
  - rewrite IH. split; [auto|]. now inversion 1.
Qed.

Lemma wikitable_of_some (sib : node) (t : table) :
  wikitable_of sib = Some t <->
  exists classes,
    sib = NTag (lit "table") classes t /\ In (lit "wikitable") classes.
Proof.
  destruct sib as [s | name classes content]; cbn [wikitable_of].
  - split; [discriminate | intros (c & E & _); discriminate].
  - split.
    + destruct (str_eqb name (lit "table")) eqn:En; [|discriminate].
      destruct (existsb (str_eqb (lit "wikitable")) classes) eqn:Ec;
        [|discriminate].
      cbn [andb]. intros [= ->]. apply str_eqb_eq in En. subst name.
      exists classes. split; [reflexivity|].
      apply existsb_exists in Ec as (x & Hx & E).
      apply str_eqb_eq in E. now subst x.
    + intros (c & E & I). injection E as -> -> ->.
      rewrite str_eqb_refl.
      assert (X : existsb (str_eqb (lit "wikitable")) c = true).
      { apply existsb_exists. exists (lit "wikitable").
        split; [assumption | apply str_eqb_refl]. }
      now rewrite X.
Qed.

Lemma find_split {A : Type} (f : A -> bool) (l : list A) (x : A) :
  find f l = Some x <->
  exists before after,
    l = before ++ x :: after /\ f x = true /\
    Forall (fun y => f y = false) before.
Proof.
  induction l as [|y l IH]; simpl.
  - split; [discriminate|]. intros ([|y0 b0] & aft & E & _); discriminate.
  - destruct (f y) eqn:Fy.
    + split.
      * intros [= <-]. exists [], l. repeat split; auto.
      * intros ([|y' b] & a & E & Fx & F).
        -- now injection E as <- _.
        -- injection E as <- _. inversion F; congruence.
    + rewrite IH. split.
      * intros (b & a & -> & Fx & F). exists (y :: b), a. repeat split; auto.
      * intros ([|y' b] & a & E & Fx & F).
        -- injection E as <- _. congruence.
        -- injection E as <- ->. inversion F; subst.
           exists b, a. repeat split; auto.
Qed.

Section Locate.
Context {U : Unicode}.

Lemma has_both_headers_spec (t : table) :
  has_both_headers t = existsb is_os (th_texts t) && existsb is_sup (th_texts t).
Proof.
  unfold has_both_headers. cbv zeta. now rewrite !existsb_map_lower.
Qed.

Lemma parse_table_none (t : table) :
  parse_table t = None <-> has_both_headers t = false.
Proof.
  unfold parse_table. rewrite macos_header_indices, has_both_headers_spec.
  unfold last_index.
  pose proof (last_index_from_none is_os (th_texts t) 0) as Ho.
  pose proof (last_index_from_none is_sup (th_texts t) 0) as Hs.
  destruct (last_index_from is_os 0 (th_texts t)),
    (last_index_from is_sup 0 (th_texts t));
    rewrite andb_false_iff; split; try discriminate; try tauto.
  intros [H | H]; [apply Ho in H | apply Hs in H]; discriminate.
Qed.

End Locate.

(** X1.  [parse_table] of the macOS pipeline raises its [RuntimeError]
    exactly on the tables that fail the header test of the fallback of
    [find_hardware_table]: some header must start with "operating system"
    and some header with "supported systems", letter case apart. *)
Theorem parse_table_fails_iff :
  forall (U : Unicode) (t : table),
    parse_table t = None <-> has_both_headers t = false.
Proof. intros U t. apply parse_table_none. Qed.

(** X2.  [find_hardware_table] returns the first sibling that is a [table]
    tag with the class [wikitable], whatever its headers, when the section is
    found and has one; otherwise the first table of class [wikitable] in the
    document that passes the header test; and it raises when there is
    neither. *)
Theorem find_hardware_table_order :
  forall (U : Unicode) (doc : soup),
    match find_hardware_table doc with
    | Some t =>
        (exists sibs before classes after,
            hardware_siblings doc = Some sibs /\
            sibs = before ++ NTag (lit "table") classes t :: after /\
            In (lit "wikitable") classes /\
            Forall (fun n => wikitable_of n = None) before)
        \/
        ((forall sibs, hardware_siblings doc = Some sibs ->
                       Forall (fun n => wikitable_of n = None) sibs) /\
         exists before after,
           wikitables doc = before ++ t :: after /\
           has_both_headers t = true /\
           Forall (fun t' => has_both_headers t' = false) before)
    | None =>
        (forall sibs, hardware_siblings doc = Some sibs ->
                      Forall (fun n => wikitable_of n = None) sibs) /\
        Forall (fun t' => has_both_headers t' = false) (wikitables doc)
    end.
Proof.
  intros U doc. unfold find_hardware_table. cbv zeta.
  destruct (hardware_siblings doc) as [sibs|] eqn:Hs.
  - destruct (first_wikitable sibs) as [t|] eqn:Fw.
    + left. apply first_wikitable_some in Fw as (b & s & a & -> & Ws & F).
      apply wikitable_of_some in Ws as (c & -> & I).
      exists (b ++ NTag (lit "table") c t :: a), b, c, a. auto.
    + apply first_wikitable_none in Fw.
      assert (N : forall sibs0, Some sibs = Some sibs0 ->
                    Forall (fun n => wikitable_of n = None) sibs0)
        by (intros ? [= <-]; exact Fw).
      destruct (find has_both_headers (wikitables doc)) as [t|] eqn:Ff.
      * right. split; [exact N|]. now apply find_split in Ff.
      * split; [exact N|]. apply Forall_forall. intros t' I.
        apply not_true_is_false. intros E.
        eapply find_none in Ff; [|exact I]. congruence.
  - assert (N : forall sibs0, @None (list node) = Some sibs0 ->
                  Forall (fun n => wikitable_of n = None) sibs0)
      by discriminate.
    destruct (find has_both_headers (wikitables doc)) as [t|] eqn:Ff.
    + right. split; [exact N|]. now apply find_split in Ff.
    + split; [exact N|]. apply Forall_forall. intros t' I.
      apply not_true_is_false. intros E.
      eapply find_none in Ff; [|exact I]. congruence.
Qed.

Lemma build_clean_json_none (U : Unicode) (rows : list row) :
  build_clean_json rows = None <->
  exists r, In r rows /\
            should_include_os (normalize_os (strip (os r))) = None.
Proof.
  induction rows as [|r rows IH]; cbn [build_clean_json]; cbv zeta.
  - split; [discriminate | intros (r & [] & _)].
  - destruct (should_include_os (normalize_os (strip (os r)))) as [keep|] eqn:E.
    + destruct (build_clean_json rows) as [cleaned|].
      * split; [discriminate|]. intros (r' & [<- | I] & H); [congruence|].
        destruct IH as [_ IH]. discriminate IH. eauto.
      * split; [|reflexivity]. intros _.
        destruct IH as [IH _]. destruct (IH eq_refl) as (r' & I & H).
        exists r'. split; [now right | exact H].
    + split; [|reflexivity]. intros _. exists r. split; [now left | exact E].
Qed.

(** X3.  The macOS run from the parsed document on fails in three cases
    only: no table is located; the table located through the section id
    lacks one of the two headers; or the table is parsed and the first
    numeric token of the normalised [os] text of one of its rows has a run
    of more than 4300 digits, on which [int] raises [ValueError].  A table
    located by the fallback is always parsed. *)
Theorem main_data_fails_iff :
  forall (U : Unicode) (doc : soup),
    main_data doc = None <->
    (find_hardware_table doc = None \/
     (exists sibs t,
         hardware_siblings doc = Some sibs /\
         first_wikitable sibs = Some t /\ has_both_headers t = false) \/
     (exists t rows r major minor,
         find_hardware_table doc = Some t /\
         parse_table t = Some rows /\ In r rows /\
         first_token (normalize_os (strip (os r))) = Some (major, minor) /\
         (int_max_str_digits < length major \/
          int_max_str_digits < minor_digits minor))).
Proof.
  intros U doc. unfold main_data.
  destruct (find_hardware_table doc) as [t|] eqn:F.
  - destruct (parse_table t) as [rows|] eqn:P.
    + rewrite build_clean_json_none. split.
      * intros (r & I & H). right. right.
        apply should_include_os_raises in H as (major & minor & H1 & H2).
        exists t, rows, r, major, minor. auto.
      * intros [H | [(sibs & t' & Hs & Fw & Hb) | H]]; [discriminate | |].
        -- unfold find_hardware_table in F. cbv zeta in F.
           rewrite Hs, Fw in F. injection F as <-.
           apply parse_table_none in Hb. congruence.
        -- destruct H as (t' & rows' & r & major & minor & [= <-] & P' & I & H).
           rewrite P in P'. injection P' as <-.
           exists r. split; [exact I|].
           apply should_include_os_raises. exists major, minor. exact H.
    + split; [|reflexivity]. intros _. right. left.
      apply parse_table_none in P.
      unfold find_hardware_table in F. cbv zeta in F.
      destruct (hardware_siblings doc) as [sibs|].
      * destruct (first_wikitable sibs) as [t'|] eqn:Fw.
        -- injection F as ->. eauto.
        -- apply find_some in F as [_ F]. congruence.
      * apply find_some in F as [_ F]. congruence.
  - split; auto.
Qed.

End MacosLocate.

(** * The raw rows of the macOS table *)

Module MacosRows.
Import Py Spec PyFacts StripFacts SearchFacts MacosCompat MacosTokens.

Section Rows.
Context {U : Unicode}.

Definition nonspace (c : char) : bool := negb (isspace c).

Lemma split_ws_go_words (s : str) :
  forall cur,
    forallb nonspace cur = true -> Forall word (split_ws_go cur s).
Proof.
  assert (W : forall cur, cur <> [] -> forallb nonspace cur = true ->
                word (rev cur)).
  { intros cur Hn Hc. split.
    - intros E. apply (f_equal (@rev char)) in E.
      rewrite rev_involutive in E. now subst.
    - now apply forallb_rev_true. }
  induction s as [|c t IH]; intros cur Hc; cbn [split_ws_go].
  - destruct cur as [|x cur]; [constructor|].
    constructor; [|constructor]. now apply W.
  - destruct (isspace c) eqn:Ec.
    + destruct cur as [|x cur]; [now apply IH|].
      constructor; [now apply W | now apply IH].
    + apply IH. simpl. unfold nonspace at 1. now rewrite Ec.
Qed.

Lemma split_ws_words (s : str) : Forall word (split_ws s).
Proof. now apply split_ws_go_words. Qed.

Lemma join_cons2 (sep x y : str) (l : list str) :
  join sep (x :: y :: l) = x ++ sep ++ join sep (y :: l).
Proof. reflexivity. Qed.

Lemma join_words_ends (ws : list str) :
  Forall word ws -> ws <> [] -> ends_in nonspace (join (lit " ") ws).
Proof.
  induction 1 as [|x ws [Hn Hx] Hws IH]; [congruence|]. intros _.
  destruct ws as [|y l].
  - now apply ends_in_all.
  - rewrite join_cons2. apply ends_in_mid.
    + now apply ends_in_all.
    + apply IH. discriminate.
Qed.

Lemma ends_in_clean (q p : char -> bool) (w : str) :
  (forall c, q c = true -> p c = false) -> ends_in q w -> clean_ends p w.
Proof.
  intros Q [(c & t & -> & Hc) (t' & c' & E & Hc')]. split.
  - intros c1 t1 [= <- <-]. now apply Q.
  - intros t1 c1 E1. rewrite E in E1. apply app_inj_tail in E1 as [_ <-].
    now apply Q.
Qed.

Lemma nonspace_not_space (c : char) : nonspace c = true -> isspace c = false.
Proof. unfold nonspace. now destruct (isspace c). Qed.

Lemma join_words_strip (ws : list str) :
  Forall word ws -> strip (join (lit " ") ws) = join (lit " ") ws.
Proof.
  intros H. destruct ws as [|x l]; [reflexivity|].
  apply strip_by_fix. apply (@ends_in_clean nonspace isspace _ nonspace_not_space).
  apply join_words_ends; [assumption | discriminate].
Qed.

Lemma single_spaced_word (x : str) :
  forallb nonspace x = true -> single_spaced x.
Proof.
  intros Hx a c b -> Hc. rewrite forallb_app in Hx. simpl in Hx.
  unfold nonspace at 2 in Hx. rewrite Hc in Hx. simpl in Hx.
  rewrite andb_false_r in Hx. discriminate.
Qed.

Lemma single_spaced_prepend (x r : str) :
  forallb nonspace x = true -> single_spaced r ->
  (forall d r', r = d :: r' -> isspace d = false) ->
  single_spaced (x ++ space :: r).
Proof.
  intros Hx Hr Hd. induction x as [|e x IH]; intros a c b E Hc.
  - destruct a as [|a0 a]; simpl in E.
    + injection E as <- <-. auto.
    + injection E as _ E. exact (Hr _ _ _ E Hc).
  - simpl in Hx. apply andb_true_iff in Hx as [He Hx].
    destruct a as [|a0 a]; simpl in E.
    + injection E as <- _. apply nonspace_not_space in He. congruence.
    + injection E as _ E. exact (IH Hx _ _ _ E Hc).
Qed.

Lemma join_words_single_spaced (ws : list str) :
  Forall word ws -> single_spaced (join (lit " ") ws).
Proof.
  induction 1 as [|x ws [Hn Hx] Hws IH].
  - intros [|a0 a1] c0 b0 E; discriminate.
  - destruct ws as [|y l]; [now apply single_spaced_word|].
    rewrite join_cons2. apply single_spaced_prepend; [assumption.. |].
    intros d r' E.
    destruct (join_words_ends Hws ltac:(discriminate))
      as [(c & t & E' & Hc) _].
    rewrite E in E'. injection E' as -> _. now apply nonspace_not_space.
Qed.

(** The list [raw_items] of [parse_table] is the list of the trimmed pieces
    between commas: stripping commas from a piece changes nothing. *)
Lemma raw_items_tokens (sup_text : str) :
  map (fun p => strip_chars (lit ",") (strip p))
      (filter (fun p => nonempty (strip p)) (split_on (ord ",") sup_text))
  = tokens sup_text.
Proof.
  unfold tokens. apply map_ext_in. intros p H.
  apply filter_In in H as [H _]. apply strip_by_fix.
  assert (N : ~ In comma (strip p)).
  { intros I. apply strip_by_incl in I. revert I.
    exact (@split_on_no_sep (ord ",") sup_text p H). }
  split.
  - intros c t E. apply one_of_false. intros [<- | []].
    apply N. rewrite E. now left.
  - intros t c E. apply one_of_false. intros [<- | []].
    apply N. rewrite E. apply in_elt.
Qed.

Lemma parse_row_shape (idx_os idx_sup : nat) (cells : list str) (r : row) :
  parse_row idx_os idx_sup cells = Some r ->
  Nat.max idx_os idx_sup < length cells /\
  strip (os r) = os r /\ single_spaced (os r) /\
  Forall (fun item => item <> [] /\ ~ In comma item /\ clean_ends isspace item)
         (supported_systems r).
Proof.
  unfold parse_row.
  destruct (Nat.leb_spec (length cells) (Nat.max idx_os idx_sup));
    [discriminate|].
  intros [= <-]. cbn [os supported_systems]. split; [assumption|].
  split; [apply join_words_strip, split_ws_words|].
  split; [apply join_words_single_spaced, split_ws_words|].
  rewrite raw_items_tokens. apply Forall_forall. intros item I.
  now apply tokens_shape in I.
Qed.

End Rows.

(** X4.  Every raw row that [parse_table] of the macOS pipeline returns has
    an [os] text without whitespace at its ends, in which the only
    whitespace is single spaces, and a list of items each of which is not
    empty, has no comma and no whitespace at its ends; and there are no more
    rows than the table has rows under its first. *)
Theorem parse_table_rows_tidy :
  forall (U : Unicode) (t : table),
    match parse_table t with
    | Some rows =>
        length rows <= length (tl (tr_cells t)) /\
        Forall
          (fun r =>
             strip (os r) = os r /\ single_spaced (os r) /\
             Forall (fun item =>
                       item <> [] /\ ~ In comma item /\
                       clean_ends isspace item)
                    (supported_systems r))
          rows
    | None => True
    end.
Proof.
  intros U t. unfold parse_table.
  destruct (header_indices (th_texts t)) as [[io|] [isu|]]; try exact I.
  split.
  - induction (tl (tr_cells t)) as [|cells l IH]; simpl; [lia|].
    rewrite length_app. destruct (parse_row io isu cells); simpl; lia.
  - apply Forall_forall. intros r H.
    apply in_flat_map in H as (cells & _ & H).
    destruct (parse_row io isu cells) as [r'|] eqn:E; [|contradiction].
    destruct H as [<- | []]. now apply parse_row_shape in E.
Qed.

End MacosRows.

(** * The entries of the cleaned list of supported systems *)

Module MacosEntries.
Import Py Spec PyFacts PyGreedy StripFacts MacosCompat MacosDedup MacosTokens.

Section Entries.
Context {U : Unicode}.

(** Collapsing leaves no two whitespace characters side by side, and its
    result starts with whitespace only where the text does. *)
Lemma collapse_no_double :
  forall n s p, length s <= n ->
    (forall a c d b, collapse p s = a ++ c :: d :: b ->
                     isspace c && isspace d = false) /\
    (forall h y, collapse p s = h :: y -> isspace h = true ->
                 exists c t, s = c :: t /\ isspace c = true).
Proof.
  induction n as [|n IH]; intros s p L.
  - destruct s; [|simpl in L; lia]. rewrite collapse_eq. split.
    + intros [|a0 a1] c d b E; discriminate.
    + discriminate.
  - rewrite collapse_eq. destruct s as [|c [|b t]].
    + split; [intros [|a0 a1] c d b E; discriminate | discriminate].
    + split.
      * intros [|a0 [|a1 a2]] c0 d b E; discriminate.
      * intros h y [= <- <-] Hh. eauto.
    + destruct (isspace c && isspace b) eqn:E.
      * apply andb_true_iff in E as [Ec Eb].
        assert (Ld : length (dropwhile isspace t) <= n).
        { pose proof (dropwhile_length isspace t). simpl in L. lia. }
        destruct (IH _ (last_prev (Some b) (takewhile isspace t)) Ld)
          as (I1 & I2).
        split; [|intros h y _ _; eauto].
        intros [|a0 a] c1 d1 b1 E1; simpl in E1.
        -- injection E1 as <- E1.
           destruct (isspace d1) eqn:Ed; [|apply andb_false_r].
           destruct (I2 _ _ E1 Ed) as (c' & t' & Ex & Hc').
           apply dropwhile_hd in Ex. congruence.
        -- injection E1 as _ E1. exact (I1 _ _ _ _ E1).
      * assert (Lt : length (b :: t) <= n) by (simpl in *; lia).
        destruct (IH _ (Some c) Lt) as (I1 & I2).
        split; [|intros h y [= <- _] Hh; eauto].
        intros [|a0 a] c1 d1 b1 E1; simpl in E1.
        -- injection E1 as <- E1.
           destruct (isspace c) eqn:Ec; [|reflexivity].
           destruct (isspace d1) eqn:Ed; [|reflexivity].
           destruct (I2 _ _ E1 Ed) as (c' & t' & [= <- <-] & Hb).
           simpl in E. congruence.
        -- injection E1 as _ E1. exact (I1 _ _ _ _ E1).
Qed.

Lemma clean_token_tidy (sub x : str) :
  sub <> [] -> clean_ends isspace sub -> ~ In comma sub ->
  In x (clean_token sub) -> tidy_entry x.
Proof.
  intros Hn [Hh Hl] Hc. unfold clean_token.
  destruct (existsb _ _); [contradiction|].
  change (re_sub spaces2 (lit " ") sub) with (collapse None sub).
  destruct (@collapse_shape U (length sub) sub None (le_n _)) as (_ & I2 & I3 & I4).
  destruct (@collapse_no_double (length sub) sub None (le_n _)) as (D & _).
  destruct sub as [|c t]; [congruence|].
  destruct (exists_last Hn) as (t' & c' & El).
  pose proof (Hh c t eq_refl) as Sc. pose proof (Hl t' c' El) as Sc'.
  destruct (I3 c t eq_refl Sc) as (y1 & Y1).
  destruct (I4 t' c' El Sc') as (y2 & Y2).
  set (y := collapse None (c :: t)) in *.
  assert (Nc : ~ In comma y).
  { intros I. destruct (I2 _ I) as [E | I']; [discriminate E | contradiction]. }
  assert (C2 : clean_ends isspace y).
  { split.
    - intros c0 t0 E0. rewrite Y1 in E0. now injection E0 as <- _.
    - intros t0 c0 E0. rewrite Y2 in E0.
      now apply app_inj_tail in E0 as [_ ->]. }
  assert (C1 : clean_ends (one_of (lit " ,")) y).
  { destruct C2 as [Ch Cl]. split.
    - intros c0 t0 E0. apply one_of_false. intros [<- | [<- | []]].
      + specialize (Ch _ _ E0). discriminate Ch.
      + apply Nc. rewrite E0. now left.
    - intros t0 c0 E0. apply one_of_false. intros [<- | [<- | []]].
      + specialize (Cl _ _ E0). discriminate Cl.
      + apply Nc. rewrite E0. apply in_elt. }
  unfold strip_chars. rewrite (strip_by_fix C1).
  destruct (nonempty y) eqn:Ne; [|contradiction].
  intros [<- | []]. repeat split; try apply C2; auto.
  intros E. rewrite E in Ne. discriminate.
Qed.

Lemma cleaned_tokens_tidy (raw_items : list str) :
  Forall tidy_entry (cleaned_tokens raw_items).
Proof.
  apply Forall_forall. intros x. unfold cleaned_tokens.
  rewrite in_flat_map. intros (item & _ & H).
  apply in_flat_map in H as (ch & _ & H).
  apply in_flat_map in H as (sub & Hs & H).
  destruct (tokens_shape _ _ Hs) as (Hn & He & Hc).
  exact (@clean_token_tidy sub x Hn He Hc H).
Qed.

Lemma clean_supported_systems_tidy_all (raw_items : list str) :
  Forall tidy_entry (clean_supported_systems raw_items).
Proof.
  apply Forall_forall. intros x H. unfold clean_supported_systems in H.
  apply dedup_in in H as [H _].
  pose proof (cleaned_tokens_tidy raw_items) as F.
  rewrite Forall_forall in F. now apply F.
Qed.

End Entries.

(** X5.  Every entry of the list that [clean_supported_systems] returns is
    not empty, has no comma, has no whitespace at either end and has no two
    whitespace characters side by side. *)
Theorem clean_supported_systems_tidy :
  forall (U : Unicode) (raw_items : list str),
    Forall tidy_entry (clean_supported_systems raw_items).
Proof. intros U raw_items. apply clean_supported_systems_tidy_all. Qed.

End MacosEntries.

(** * What [normalize_os] returns, and the records of the macOS output *)

Module MacosShape.
Import Py Spec PyFacts PyGreedy StripFacts SearchFacts MacosFilter.
Import MacosCompat MacosNormalize MacosDedup MacosEntries MacosLocate.

Section Shape.
Context {U : Unicode}.

Lemma fullmatch_sound (r : regex) (s : str) :
  fullmatch r s = true -> lang r s.
Proof.
  unfold fullmatch. intros H. apply existsb_exists in H as (st & I & E).
  destruct (rest st) eqn:R; [|discriminate].
  apply run_sound in I as (w & Ew & L). cbn [rest] in Ew.
  rewrite R, app_nil_r in Ew. now subst.
Qed.

(** *** From the patterns back to the grammar *)

Lemma bare_version_of_lang (r : str) :
  lang (Star (Seq dot digits)) r ->
  forall d, is_number d -> bare_version (d ++ r).
Proof.
  remember (Star (Seq dot digits)) as e eqn:Ee.
  induction 1 as [| | | | | |a u v Hu Lu _ Lv IH| |]; try discriminate.
  - intros d Hd. rewrite app_nil_r. now constructor.
  - injection Ee as ->. intros d Hd.
    inversion Lu as [| |? ? x d2 Lx Ld| | | | | |]; subst.
    apply lang_class_inv in Lx as (c & -> & Ec). apply N.eqb_eq in Ec.
    subst c. apply lang_plus_class_inv in Ld.
    rewrite <- app_assoc. simpl. apply BV_dot; [assumption|].
    now apply IH.
Qed.

Lemma bare_version_lang (w : str) : lang version w -> bare_version w.
Proof.
  unfold version. inversion 1 as [| |? ? d r Ld Lr| | | | | |]; subst.
  apply lang_plus_class_inv in Ld. now apply bare_version_of_lang.
Qed.

Lemma version_range_lang (a m : str) :
  lang version a ->
  lang (Seq spaces (Seq dash (Seq spaces version))) m ->
  version_or_range (a ++ m).
Proof.
  intros La Lm.
  inversion Lm as [| |? ? s1 r2 Hs1 H2| | | | | |]; subst.
  inversion H2 as [| |? ? d r3 Hd H3| | | | | |]; subst.
  inversion H3 as [| |? ? s2 b Hs2 Hb| | | | | |]; subst.
  apply lang_class_inv in Hd as (c & -> & Hc).
  apply lang_star_class_inv in Hs1. apply lang_star_class_inv in Hs2.
  assert (D : is_dash c).
  { unfold one_of in Hc. cbn [existsb] in Hc.
    rewrite !orb_true_iff, !N.eqb_eq in Hc. unfold is_dash.
    destruct Hc as [H | [H | [H | H]]]; auto; discriminate. }
  change (a ++ s1 ++ [c] ++ s2 ++ b) with (a ++ s1 ++ c :: s2 ++ b).
  apply VR_range; auto using bare_version_lang.
Qed.

Lemma version_or_range_lang (w : str) :
  lang full_pattern w -> version_or_range w.
Proof.
  unfold full_pattern. inversion 1 as [| |? ? a r La Lr| | | | | |]; subst.
  inversion Lr as [| | |? ? ? L1|? ? ? L1| | | |]; subst.
  - now apply version_range_lang.
  - inversion L1; subst. rewrite app_nil_r.
    apply VR_version. now apply bare_version_lang.
Qed.

Lemma version_or_range_of_range (w : str) :
  lang version_range w -> version_or_range w.
Proof.
  unfold version_range. inversion 1 as [| |? ? a r La Lr| | | | | |]; subst.
  now apply version_range_lang.
Qed.

(** The result of [normalize_os]: a piece of the trimmed text, which is a
    version or a range of the grammar, or else the whole trimmed text, in
    which no version stands between word boundaries. *)
Lemma normalize_os_cases (s : str) :
  part_of (normalize_os s) (strip s) /\
  (version_or_range (normalize_os s) \/
   (normalize_os s = strip s /\
    search (token_of version) (strip s) = None)).
Proof.
  assert (W : part_of (strip s) (strip s)).
  { exists [], []. now rewrite app_nil_r. }
  unfold normalize_os.
  change (Seq version (Opt (Seq spaces (Seq dash (Seq spaces version)))))
    with full_pattern.
  change (Seq WordB (Seq (Group 1 version_range) WordB))
    with (token_of version_range).
  change (Seq WordB (Seq (Group 1 version) WordB)) with (token_of version).
  destruct (fullmatch full_pattern (strip s)) eqn:F.
  - split; [exact W|]. left.
    now apply version_or_range_lang, fullmatch_sound.
  - destruct (search (token_of version_range) (strip s)) as [m|] eqn:S1.
    + apply search_at_token_split in S1 as (u & w & E & G & L).
      unfold group1. rewrite G. split.
      * exists u, (m_post m). exact E.
      * left. now apply version_or_range_of_range.
    + destruct (search (token_of version) (strip s)) as [m|] eqn:S2.
      * apply search_at_token_split in S2 as (u & w & E & G & L).
        unfold group1. rewrite G. split.
        -- exists u, (m_post m). exact E.
        -- left. apply VR_version. now apply bare_version_lang.
      * split; [exact W|]. right. auto.
Qed.

Lemma first_token_prefix (pre s : str) :
  no_digit pre = true -> first_token (pre ++ s) = first_token s.
Proof.
  unfold no_digit. induction pre as [|c pre IH]; simpl; [reflexivity|].
  destruct (isdecimal c); simpl; [discriminate | exact IH].
Qed.

End Shape.

(** X6.  Whatever the input, the result of [normalize_os] is a piece of the
    trimmed input, nothing is added to it; and it is either a version or a
    range of the grammar [digits(.digits)*], with a dash between two, or the
    whole trimmed input, in which the search finds no version between word
    boundaries. *)
Theorem normalize_os_shape :
  forall (U : Unicode) (s : str),
    part_of (normalize_os s) (strip s) /\
    (version_or_range (normalize_os s) \/
     (normalize_os s = strip s /\
      search (token_of version) (strip s) = None)).
Proof. intros U s. apply normalize_os_cases. Qed.

(** X7.  The inclusion filter looks at the first digits only: a text before
    them that has no decimal digit, a name such as "macOS " for example,
    does not change the answer. *)
Theorem should_include_os_prefix :
  forall (U : Unicode) (pre s : str),
    no_digit pre = true ->
    should_include_os (pre ++ s) = should_include_os s.
Proof.
  intros U pre s H. rewrite !should_include_os_spec. unfold include_spec.
  now rewrite first_token_prefix.
Qed.

(** The theorem at "macOS " before "10.8 Mountain Lion". *)
Lemma should_include_os_prefix_witness :
  @no_digit ascii_only (lit "macOS ") = true /\
  @should_include_os ascii_only (lit "macOS " ++ lit "10.8 Mountain Lion")
  = @should_include_os ascii_only (lit "10.8 Mountain Lion").
Proof.
  split; [reflexivity|].
  exact (@should_include_os_prefix ascii_only (lit "macOS ")
           (lit "10.8 Mountain Lion") eq_refl).
Defined.


End MacosShape.

(** * The tables of the Xcode page, and the cleaned cell text *)

Module XcodeTables.
Import Py Spec PyFacts PyGreedy StripFacts HeaderFacts MacosLocate MacosTokens.
Import XcodeReleases XcodeRows.

Section Tables.
Context {U : Unicode}.

Lemma xcode_parse_table_none (t : table) :
  parse_table t = None <-> has_xcode_header t = false.
Proof.
  unfold parse_table, has_xcode_header. rewrite xcode_header_indices.
  unfold last_index.
  pose proof (last_index_from_none is_xcode (map lower (th_texts t)) 0) as H.
  unfold is_xcode in *.
  destruct (last_index_from _ 0 (map lower (th_texts t))).
  - split; [discriminate|]. intros E. apply H in E. discriminate.
  - split; [intros _; now apply H | reflexivity].
Qed.

Lemma parse_tables_selected (ts : list table) :
  Forall (fun t => has_xcode_header t = true) ts ->
  parse_tables ts = Some (flat_map rows_or_nil ts).
Proof.
  induction 1 as [|t ts Ht _ IH]; [reflexivity|].
  cbn [parse_tables flat_map]. unfold rows_or_nil at 1.
  destruct (parse_table t) eqn:E.
  - now rewrite IH.
  - apply xcode_parse_table_none in E. congruence.
Qed.

Lemma filter_all {A : Type} (f : A -> bool) (l : list A) :
  Forall (fun x => f x = true) (filter f l).
Proof. apply Forall_forall. intros x H. now apply filter_In in H. Qed.

Lemma filter_nil_iff {A : Type} (f : A -> bool) (l : list A) :
  filter f l = [] <-> Forall (fun x => f x = false) l.
Proof.
  induction l as [|x l IH]; simpl; [split; auto|].
  destruct (f x) eqn:E.
  - split; [discriminate|]. inversion 1; congruence.
  - rewrite IH. split; [auto|]. now inversion 1.
Qed.

(** *** [re.sub(r'\s+', ' ', text)] *)

Definition squeeze (p : option char) (s : str) : str :=
  sub_go spaces1 (lit " ") p 0 s.

Lemma try_match_spaces1 (pv : option char) (s : str) :
  try_match spaces1 pv s =
  match s with
  | c :: t =>
      if isspace c
      then Some (MState (last_prev (Some c) (takewhile isspace t))
                        (dropwhile isspace t) [])
      else None
  | [] => None
  end.
Proof. unfold try_match, spaces1. apply run_plus_class_hd. Qed.

Lemma squeeze_eq (p : option char) (s : str) :
  squeeze p s =
  match s with
  | [] => []
  | c :: t =>
      if isspace c
      then space :: squeeze (last_prev (Some c) (takewhile isspace t))
                            (dropwhile isspace t)
      else c :: squeeze (Some c) t
  end.
Proof.
  unfold squeeze. destruct s as [|c t].
  - cbn [sub_go]. now rewrite try_match_spaces1.
  - change (sub_go spaces1 (lit " ") p 0 (c :: t))
      with (match try_match spaces1 p (c :: t) with
            | Some st =>
                match length (c :: t) - length (rest st) with
                | O => lit " " ++ c :: sub_go spaces1 (lit " ") (Some c) 0 t
                | S k => lit " " ++ sub_go spaces1 (lit " ") (Some c) k t
                end
            | None => c :: sub_go spaces1 (lit " ") (Some c) 0 t
            end).
    rewrite try_match_spaces1. destruct (isspace c); [|reflexivity].
    cbn [rest].
    replace (length (c :: t) - length (dropwhile isspace t))
      with (S (length (takewhile isspace t))).
    2:{ assert (X : length t = length (takewhile isspace t)
                                + length (dropwhile isspace t))
          by now rewrite <- length_app, take_drop.
        cbn [length]. lia. }
    rewrite <- (take_drop isspace t) at 2.
    rewrite sub_go_skip. reflexivity.
Qed.

Lemma squeeze_single_spaced :
  forall n s p, length s <= n ->
    single_spaced (squeeze p s) /\
    (forall h y, squeeze p s = h :: y -> isspace h = true ->
                 exists c t, s = c :: t /\ isspace c = true).
Proof.
  induction n as [|n IH]; intros s p L.
  - destruct s; [|simpl in L; lia]. rewrite squeeze_eq. split.
    + intros [|a0 a1] c b E; discriminate.
    + discriminate.
  - rewrite squeeze_eq. destruct s as [|c t].
    + split; [intros [|a0 a1] c b E; discriminate | discriminate].
    + destruct (isspace c) eqn:Ec.
      * assert (Ld : length (dropwhile isspace t) <= n).
        { pose proof (dropwhile_length isspace t). simpl in L. lia. }
        destruct (IH _ (last_prev (Some c) (takewhile isspace t)) Ld)
          as (I1 & I2).
        split; [|intros h y _ _; eauto].
        intros [|a0 a] c1 b1 E1 H1; simpl in E1.
        -- injection E1 as <- <-. split; [reflexivity|].
           intros d b' Ed. destruct (isspace d) eqn:Hd; [|reflexivity].
           destruct (I2 _ _ Ed Hd) as (c' & t' & Ex & Hc').
           apply dropwhile_hd in Ex. congruence.
        -- injection E1 as _ E1. exact (I1 _ _ _ E1 H1).
      * assert (Lt : length t <= n) by (simpl in L; lia).
        destruct (IH _ (Some c) Lt) as (I1 & I2).
        split; [|intros h y [= <- _] Hh; congruence].
        intros [|a0 a] c1 b1 E1 H1; simpl in E1.
        -- injection E1 as <- _. congruence.
        -- injection E1 as _ E1. exact (I1 _ _ _ E1 H1).
Qed.

Lemma strip_by_part (p : char -> bool) (s : str) :
  part_of (strip_by p s) s.
Proof.
  unfold strip_by, part_of.
  pose proof (take_drop p s) as E1.
  pose proof (take_drop p (rev (dropwhile p s))) as E2.
  apply (f_equal (@rev char)) in E2.
  rewrite rev_app_distr, rev_involutive in E2.
  exists (takewhile p s), (rev (takewhile p (rev (dropwhile p s)))).
  now rewrite E2.
Qed.

Lemma single_spaced_part (w y : str) :
  part_of w y -> single_spaced y -> single_spaced w.
Proof.
  intros (a0 & b0 & ->) H a c b -> Hc.
  destruct (H (a0 ++ a) c (b ++ b0)) as [E N]; [|assumption|].
  - now rewrite <- !app_assoc.
  - split; [exact E|]. intros d b' ->. now apply (N d (b' ++ b0)).
Qed.

Lemma replace_char_gone (c : char) (new s : str) :
  ~ In c new -> ~ In c (replace [c] new s).
Proof.
  intros Hn. unfold replace. induction s as [|x t IH]; cbn [replace_go];
    [tauto|].
  cbn [startswith length Nat.sub]. rewrite andb_true_r.
  destruct (N.eqb_spec c x) as [<- | D].
  - rewrite in_app_iff. tauto.
  - simpl. intros [E | I]; [congruence | tauto].
Qed.

Lemma clean_version_text_chars (text : str) (x : char) :
  (x = 160 \/ x = 8211 \/ x = 8212)%N -> ~ In x (clean_version_text text).
Proof.
  intros Hx I. unfold clean_version_text in I.
  apply strip_by_incl in I.
  apply sub_go_in in I as [[<- | []] | I];
    [destruct Hx as [H | [H | H]]; discriminate H|].
  set (t1 := replace (lit "&nbsp") (lit " ")
               (replace (lit "&nbsp;") (lit " ") text)) in I.
  set (t2 := replace [160%N] (lit " ") (replace [160%N] (lit " ") t1)) in I.
  assert (N2 : ~ In 160%N t2) by (apply replace_char_gone; now intros [E | []]).
  destruct Hx as [-> | [-> | ->]].
  - do 4 (apply replace_in in I as [[E | []] | I]; [discriminate E|]).
    contradiction.
  - apply replace_in in I as [[E | []] | I]; [discriminate E|].
    revert I. apply replace_char_gone. now intros [E | []].
  - revert I. apply replace_char_gone. now intros [E | []].
Qed.

End Tables.

(** X9.  In the Xcode pipeline the tables that [find_xcode_tables] selects are
    exactly those on which [parse_table] does not raise: the run fails only
    when no table of the document has a header that names Xcode, and
    otherwise its output is the rows of the tables that have one, table after
    table in document order. *)
Theorem all_data_tables :
  forall (U : Unicode) (doc : list table),
    (forall t, parse_table t = None <-> has_xcode_header t = false) /\
    (all_data doc = None <->
     Forall (fun t => has_xcode_header t = false) doc) /\
    (forall out,
        all_data doc = Some out ->
        out = flat_map rows_or_nil (filter has_xcode_header doc)).
Proof.
  intros U doc. split; [exact xcode_parse_table_none|].
  unfold all_data, find_xcode_tables.
  change (fun t => existsb (contains (lit "xcode")) (map lower (th_texts t)))
    with has_xcode_header.
  pose proof (filter_all has_xcode_header doc) as F.
  pose proof (filter_nil_iff has_xcode_header doc) as Nil.
  destruct (filter has_xcode_header doc) as [|t ts] eqn:E.
  - split; [|discriminate]. split; [intros _; now apply Nil | reflexivity].
  - rewrite (parse_tables_selected F). split.
    + split; [discriminate|]. intros H. apply Nil in H. discriminate.
    + now intros out [= <-].
Qed.

(** X10.  The text that [clean_version_text] returns has no whitespace at
    its ends; its only whitespace is single spaces; and it has no
    non-breaking space (U+00A0), no en dash (U+2013) and no em dash
    (U+2014). *)
Theorem clean_version_text_normal :
  forall (U : Unicode) (text : str),
    strip (clean_version_text text) = clean_version_text text /\
    single_spaced (clean_version_text text) /\
    ~ In 160%N (clean_version_text text) /\
    ~ In 8211%N (clean_version_text text) /\
    ~ In 8212%N (clean_version_text text).
Proof.
  intros U text. split; [apply strip_idem|]. split.
  - unfold clean_version_text.
    apply (single_spaced_part (strip_by_part isspace _)).
    apply (@squeeze_single_spaced U _ _ None (le_n _)).
  - repeat split; apply clean_version_text_chars; auto.
Qed.

End XcodeTables.

(** * The fields of a record of the Xcode output *)

Module XcodeFields.
Import Py Spec PyFacts PyGreedy SearchFacts GroupFacts Consume MacosDedup.
Import XcodeReleases XcodeMacos XcodeRows.

Lemma fold_left_map {A B C : Type} (f : A -> B -> A) (g : C -> B)
  (l : list C) (a : A) :
  fold_left f (map g l) a = fold_left (fun x y => f x (g y)) l a.
Proof. revert a. induction l as [|y l IH]; intros a; simpl; auto. Qed.

(** *** The dictionary *)

Definition keys (d : dict) : list str := map fst d.

Definition store (d : dict) (kv : str * str) : dict :=
  dict_set (fst kv) (snd kv) d.

Lemma dict_set_keys (k v : str) (d : dict) :
  keys (dict_set k v d) = if existsb (str_eqb k) (keys d)
                          then keys d else keys d ++ [k].
Proof.
  induction d as [|[k' v'] d IH]; simpl; [reflexivity|].
  destruct (str_eqb k' k) eqn:E.
  - apply str_eqb_eq in E. subst k'. simpl. now rewrite str_eqb_refl.
  - simpl. rewrite IH.
    assert (E' : str_eqb k k' = false).
    { apply not_true_is_false. intros H. apply str_eqb_eq in H. subst.
      rewrite str_eqb_refl in E. discriminate. }
    rewrite E'. simpl. now destruct (existsb (str_eqb k) (keys d)).
Qed.

Lemma dict_set_in (k v : str) (d : dict) (kv : str * str) :
  In kv (dict_set k v d) -> kv = (k, v) \/ In kv d.
Proof.
  induction d as [|[k' v'] d IH]; simpl.
  - intros [<- | []]. now left.
  - destruct (str_eqb k' k); simpl.
    + intros [<- | H]; auto.
    + intros [<- | H]; auto. destruct (IH H); auto.
Qed.

Lemma dict_get_set (k v k0 : str) (d : dict) :
  dict_get k0 (dict_set k v d)
  = if str_eqb k k0 then Some v else dict_get k0 d.
Proof.
  induction d as [|[k' v'] d IH]; simpl.
  - reflexivity.
  - destruct (str_eqb k' k) eqn:E; simpl.
    + apply str_eqb_eq in E. subst k'. now destruct (str_eqb k k0).
    + rewrite IH. destruct (str_eqb k' k0) eqn:E0; [|reflexivity].
      apply str_eqb_eq in E0. subst k'.
      assert (E' : str_eqb k k0 = false).
      { apply not_true_is_false. intros H. apply str_eqb_eq in H. subst.
        rewrite str_eqb_refl in E. discriminate. }
      now rewrite E'.
Qed.

Lemma dedup_ext (l : list str) :
  forall seen seen',
    (forall x, In x seen <-> In x seen') ->
    MacosCompat.dedup seen l = MacosCompat.dedup seen' l.
Proof.
  induction l as [|s l IH]; intros seen seen' H; simpl; [reflexivity|].
  assert (E : existsb (str_eqb s) seen = existsb (str_eqb s) seen').
  { apply eq_true_iff_eq. rewrite !mem_str. apply H. }
  rewrite E. destruct (existsb (str_eqb s) seen').
  - now apply IH.
  - f_equal. apply IH. intros x. simpl. rewrite H. tauto.
Qed.

Lemma store_keys (ps : list (str * str)) :
  forall d,
    keys (fold_left store ps d)
    = keys d ++ MacosCompat.dedup (keys d) (map fst ps).
Proof.
  induction ps as [|[k v] ps IH]; intros d; simpl.
  - now rewrite app_nil_r.
  - rewrite IH. unfold store. cbn [fst snd]. rewrite dict_set_keys.
    destruct (existsb (str_eqb k) (keys d)) eqn:M; [reflexivity|].
    rewrite <- app_assoc. simpl. do 2 f_equal. apply dedup_ext.
    intros x. rewrite in_app_iff. simpl. tauto.
Qed.

Lemma store_get (k : str) (ps : list (str * str)) :
  forall d,
    dict_get k (fold_left store ps d)
    = match last_value k ps with
      | Some w => Some w
      | None => dict_get k d
      end.
Proof.
  induction ps as [|[k0 v0] ps IH]; intros d; simpl; [reflexivity|].
  rewrite IH. destruct (last_value k ps); [reflexivity|].
  unfold store. cbn [fst snd]. rewrite dict_get_set.
  now destruct (str_eqb k0 k).
Qed.

Lemma store_in (ps : list (str * str)) :
  forall d kv, In kv (fold_left store ps d) -> In kv ps \/ In kv d.
Proof.
  induction ps as [|p ps IH]; intros d kv; simpl; [auto|].
  intros H. destruct (IH _ _ H) as [H1 | H1]; [auto|].
  apply dict_set_in in H1 as [-> | H1]; [|auto].
  left. left. now destruct p.
Qed.

Section Fields.
Context {U : Unicode}.

Lemma parse_sdk_column_fold (text : str) :
  parse_sdk_column text = fold_left store (sdk_pairs text) [].
Proof.
  unfold parse_sdk_column, sdk_pairs. now rewrite fold_left_map.
Qed.

Lemma finditer_go_groups (Q : list (nat * str) -> Prop) (r : regex) :
  (forall p s0 st, try_match r p s0 = Some st -> Q (groups st)) ->
  forall s pre skip m, In m (finditer_go r pre skip s) -> Q (m_groups m).
Proof.
  intros X. induction s as [|c t IH]; intros pre skip m; cbn [finditer_go].
  - destruct skip; [|contradiction].
    destruct (try_match r (hd_error pre) []) as [st|] eqn:E; [|contradiction].
    intros [<- | []]. exact (X _ _ _ E).
  - destruct skip as [|k]; [|apply IH].
    destruct (try_match r (hd_error pre) (c :: t)) as [st|] eqn:E;
      [|apply IH].
    intros [<- | H]; [exact (X _ _ _ E) | exact (IH _ _ _ H)].
Qed.

Lemma run_sdk_pattern (p : option char) (s : str) (st : mstate) :
  In st (run sdk_pattern (MState p s [])) ->
  exists k v, lang platform_name k /\ lang version_123 v /\
              groups st = [(2, v); (1, k)].
Proof.
  unfold sdk_pattern. fold platform_name. intros H.
  apply in_flat_map in H as (st1 & H1 & H).
  apply run_group_last in H1 as (k & Lk & G1); [|reflexivity].
  apply in_flat_map in H as (st2 & H2 & H).
  apply run_groups in H2; [|reflexivity].
  apply run_group_last in H as (v & Lv & G); [|reflexivity].
  exists k, v. rewrite G, H2, G1. auto.
Qed.

Lemma sdk_pairs_shape (text : str) :
  Forall (fun kv => (exists k, lang platform_name k /\ fst kv = strip k) /\
                    dotted_numeric (snd kv))
         (sdk_pairs text).
Proof.
  apply Forall_forall. intros kv H. unfold sdk_pairs in H.
  apply in_map_iff in H as (m & <- & H). unfold finditer in H.
  apply (@finditer_go_groups
           (fun g => exists k v, lang platform_name k /\ lang version_123 v /\
                                 g = [(2, v); (1, k)])) in H.
  - destruct H as (k & v & Lk & Lv & G). cbn [fst snd].
    unfold group_text, group. rewrite G. cbn.
    split; [eauto | now apply lang_version_123].
  - intros p s0 st E. apply hd_error_in in E. now apply run_sdk_pattern in E.
Qed.

(** *** The shapes of the macOS requirement *)

Lemma lang_nonempty (r : regex) (w : str) :
  lang r w -> nullable r = false -> w <> [].
Proof.
  intros L N E. rewrite (lang_nil_nullable L E) in N. discriminate.
Qed.

Lemma findall1_dotted (text v : str) :
  In v (findall1 dotted_token text) -> lang version_dotted v.
Proof.
  unfold findall1. intros I. apply in_map_iff in I as (m & <- & I).
  apply (@finditer_token_of U version_dotted) in I as (w & G & L).
  unfold group_text. now rewrite G.
Qed.

Lemma parse_macos_versions_cases (text : str) :
  (parse_macos_versions text = [] /\
   search macos_range (clean_version_text text) = None /\
   search (token_of version_x) (clean_version_text text) = None)
  \/ (exists a b, lang version_x a /\ lang version_x b /\
                  parse_macos_versions text = a ++ lit " - " ++ b)
  \/ (exists v, lang version_dotted v /\
                parse_macos_versions text = v ++ lit "+")
  \/ lang version_x (parse_macos_versions text)
  \/ lang version_dotted (parse_macos_versions text).
Proof.
  unfold parse_macos_versions. cbv zeta.
  change (Seq WordB (Seq (Group 1 version_dotted) WordB)) with dotted_token.
  change (Seq WordB (Seq (Group 1 version_x) WordB)) with (token_of version_x).
  set (c := clean_version_text text).
  destruct (search macos_range c) as [m|] eqn:S1.
  { right. left. apply search_at_macos_range in S1 as (a & b & La & Lb & <- & <-).
    eauto. }
  assert (T : match search (token_of version_x) c with
              | Some m => lang version_x (group_text m 1)
              | None => True
              end).
  { destruct (search (token_of version_x) c) as [m|] eqn:S2; [|exact I].
    apply search_token_of in S2 as (w & G & L).
    unfold group_text. now rewrite G. }
  assert (F : match findall1 dotted_token c with
              | v :: _ => lang version_dotted v
              | [] => True
              end).
  { destruct (findall1 dotted_token c) as [|v vs] eqn:E; [exact I|].
    apply (@findall1_dotted c). rewrite E. now left. }
  destruct (contains (lit "or later") (lower c)).
  - destruct (findall1 dotted_token c) as [|v vs].
    + destruct (search (token_of version_x) c) as [m|];
        [right; right; right; left; exact T | left; auto].
    + right. right. left. eauto.
  - destruct (search (token_of version_x) c) as [m|];
      [right; right; right; left; exact T|].
    destruct (findall1 dotted_token c) as [|v vs];
      [left; auto | right; right; right; right; exact F].
Qed.

End Fields.

(** X11.  The macOS requirement that [parse_macos_versions] returns has one
    of these shapes: two version tokens with " - " between them, a strictly
    dotted token with "+" behind it, one version token, or the empty string;
    and it is empty only when the cleaned text has neither a range nor a
    version token between word boundaries. *)
Theorem parse_macos_versions_shape :
  forall (U : Unicode) (text : str),
    ((parse_macos_versions text = [] /\
      search macos_range (clean_version_text text) = None /\
      search (token_of version_x) (clean_version_text text) = None)
     \/ (exists a b, lang version_x a /\ lang version_x b /\
                     parse_macos_versions text = a ++ lit " - " ++ b)
     \/ (exists v, lang version_dotted v /\
                   parse_macos_versions text = v ++ lit "+")
     \/ lang version_x (parse_macos_versions text)
     \/ lang version_dotted (parse_macos_versions text)) /\
    (parse_macos_versions text = [] ->
     search macos_range (clean_version_text text) = None /\
     search (token_of version_x) (clean_version_text text) = None).
Proof.
  intros U text. split; [apply parse_macos_versions_cases|].
  intros E.
  destruct (parse_macos_versions_cases text)
    as [(_ & H) | [(a & b & La & _ & H) | [(v & Lv & H) | [H | H]]]].
  - exact H.
  - rewrite E in H. apply lang_nonempty in La; [|reflexivity].
    destruct a; [congruence | discriminate].
  - rewrite E in H. destruct v; discriminate.
  - rewrite E in H. apply lang_nonempty in H; [congruence | reflexivity].
  - rewrite E in H. apply lang_nonempty in H; [congruence | reflexivity].
Qed.

(** X12.  In the dictionary that [parse_sdk_column] returns no key stands
    twice; every key is a platform name of the pattern as the text spells
    it, and every value is one, two or three runs of digits with dots
    between them. *)
Theorem parse_sdk_column_entries :
  forall (U : Unicode) (text : str),
    NoDup (map fst (parse_sdk_column text)) /\
    Forall (fun kv => (exists k, lang platform_name k /\ fst kv = strip k) /\
                      dotted_numeric (snd kv))
           (parse_sdk_column text).
Proof.
  intros U text. rewrite parse_sdk_column_fold. split.
  - change (map fst (fold_left store (sdk_pairs text) []))
      with (keys (fold_left store (sdk_pairs text) [])).
    rewrite store_keys. simpl. apply dedup_nodup.
  - apply Forall_forall. intros kv H.
    apply store_in in H as [H | []].
    pose proof (sdk_pairs_shape text) as F. rewrite Forall_forall in F.
    now apply F.
Qed.

(** X13.  The dictionary of [parse_sdk_column] has the keys of the pairs
    found in the text, in the order in which each key is found first; and
    under a key that is found more than once stands the version found with
    it last. *)
Theorem parse_sdk_column_last_wins :
  forall (U : Unicode) (text : str),
    (forall k, dict_get k (parse_sdk_column text)
               = last_value k (sdk_pairs text)) /\
    (forall k, In k (map fst (parse_sdk_column text)) <->
               In k (map fst (sdk_pairs text))) /\
    (forall r1 k r2,
        map fst (parse_sdk_column text) = r1 ++ k :: r2 ->
        exists o1 o2,
          map fst (sdk_pairs text) = o1 ++ k :: o2 /\ ~ In k o1 /\
          forall y, In y r1 -> In y o1).
Proof.
  intros U text. rewrite parse_sdk_column_fold.
  change (map fst (fold_left store (sdk_pairs text) []))
    with (keys (fold_left store (sdk_pairs text) [])).
  rewrite store_keys. cbn [keys map app]. split; [|split].
  - intros k. rewrite store_get. now destruct (last_value k (sdk_pairs text)).
  - intros k. rewrite dedup_in. simpl. tauto.
  - apply dedup_order.
Qed.

End XcodeFields.

(** * Records of the Xcode output, and texts without label or digit *)

Module MoreFacts.
Import Py Spec PyFacts PyGreedy StripFacts SearchFacts Consume MacosFilter.
Import MacosShape XcodeFields.

Section More.
Context {U : Unicode}.

Lemma xcode_parse_row_fields ix im isd (cells : list str)
  (r : XcodeReleases.release) :
  XcodeReleases.parse_row ix im isd cells = Some r ->
  requirement_shape (XcodeReleases.macos_version r) /\
  NoDup (map fst (XcodeReleases.sdks r)) /\
  Forall (fun kv => dotted_numeric (snd kv)) (XcodeReleases.sdks r).
Proof.
  unfold XcodeReleases.parse_row. destruct (_ <=? _); [discriminate|].
  destruct (search _ _); [|discriminate]. intros [= <-].
  cbn [XcodeReleases.macos_version XcodeReleases.sdks].
  assert (M : forall t, requirement_shape (XcodeReleases.parse_macos_versions t)).
  { intros t. unfold requirement_shape.
    destruct (parse_macos_versions_cases t) as [(E & _) | H]; [now left|].
    right. exact H. }
  assert (S : forall t,
             NoDup (map fst (XcodeReleases.parse_sdk_column t)) /\
             Forall (fun kv => dotted_numeric (snd kv))
                    (XcodeReleases.parse_sdk_column t)).
  { intros t. rewrite parse_sdk_column_fold. split.
    - change (map fst (fold_left store (sdk_pairs t) []))
        with (keys (fold_left store (sdk_pairs t) [])).
      rewrite store_keys. simpl. apply MacosDedup.dedup_nodup.
    - apply Forall_forall. intros kv H. apply store_in in H as [H | []].
      pose proof (sdk_pairs_shape t) as F. rewrite Forall_forall in F.
      now apply F. }
  split; [|split].
  - destruct im as [i|]; [|now left].
    destruct (i <? length cells); [apply M | now left].
  - destruct isd as [i|]; [|constructor].
    destruct (i <? length cells); [apply S | constructor].
  - destruct isd as [i|]; [|constructor].
    destruct (i <? length cells); [apply S | constructor].
Qed.

Lemma xcode_parse_tables_fields (tables : list XcodeReleases.table) :
  forall out,
    XcodeReleases.parse_tables tables = Some out ->
    Forall (fun r =>
              requirement_shape (XcodeReleases.macos_version r) /\
              NoDup (map fst (XcodeReleases.sdks r)) /\
              Forall (fun kv => dotted_numeric (snd kv))
                     (XcodeReleases.sdks r))
           out.
Proof.
  induction tables as [|t ts IH]; simpl; intros out.
  - intros [= <-]. constructor.
  - destruct (XcodeReleases.parse_table t) as [rows|] eqn:E; [|discriminate].
    destruct (XcodeReleases.parse_tables ts) as [more|]; [|discriminate].
    intros [= <-]. apply Forall_app. split; [|now apply IH].
    unfold XcodeReleases.parse_table in E.
    destruct (XcodeReleases.header_indices _) as [[[ix|] im] isd];
      [|discriminate].
    injection E as <-. apply Forall_forall. intros r H.
    unfold XcodeReleases.parse_rows in H.
    apply in_flat_map in H as (cells & _ & H).
    destruct (XcodeReleases.parse_row ix im isd cells) as [r'|] eqn:R;
      [|contradiction].
    destruct H as [<- | []]. now apply xcode_parse_row_fields in R.
Qed.

(** *** Texts without a colon have no category label *)

Lemma label_has_colon (w : str) :
  lang MacosCompat.LABEL_PAT w -> In (ord ":") w.
Proof.
  unfold MacosCompat.LABEL_PAT.
  inversion 1 as [| |? ? w0 w1 L0 L1| | | | | |]; subst.
  inversion L1 as [| |? ? w2 w3 L2 L3| | | | | |]; subst.
  inversion L3 as [| |? ? w4 w5 L4 L5| | | | | |]; subst.
  inversion L5 as [| |? ? w6 w7 L6 L7| | | | | |]; subst.
  apply lang_class_inv in L6 as (c & -> & Ec). apply N.eqb_eq in Ec. subst c.
  rewrite !in_app_iff. right. right. right. left. now left.
Qed.

Lemma search_label_none (s : str) :
  ~ In (ord ":") s -> search MacosCompat.LABEL_PAT s = None.
Proof.
  intros N. destruct (search MacosCompat.LABEL_PAT s) as [m|] eqn:E;
    [|reflexivity].
  exfalso. apply search_at_split in E as (u & w & -> & L).
  apply N. rewrite !in_app_iff. right. left. now apply label_has_colon.
Qed.

(** *** Texts without a digit *)

Lemma no_digit_part (w s : str) :
  part_of w s -> no_digit s = true -> no_digit w = true.
Proof.
  intros (a & b & ->). unfold no_digit. rewrite !forallb_app.
  intros H. apply andb_true_iff in H as [_ H].
  now apply andb_true_iff in H as [H _].
Qed.

Lemma no_digit_strip (s : str) : no_digit s = true -> no_digit (strip s) = true.
Proof.
  unfold no_digit. rewrite !forallb_forall. intros H x I.
  apply H. now apply strip_by_incl in I.
Qed.

Lemma normalize_os_no_digit (s : str) :
  no_digit s = true ->
  MacosCompat.should_include_os (MacosCompat.normalize_os s) = Some false.
Proof.
  intros H. rewrite should_include_os_spec. unfold include_spec.
  rewrite first_token_no_digit; [reflexivity|].
  destruct (normalize_os_cases s) as [P _].
  eapply no_digit_part; [exact P|]. now apply no_digit_strip.
Qed.

Lemma build_clean_json_app (l1 l2 : list MacosCompat.row) :
  MacosCompat.build_clean_json (l1 ++ l2)
  = match MacosCompat.build_clean_json l1, MacosCompat.build_clean_json l2 with
    | Some out1, Some out2 => Some (out1 ++ out2)
    | _, _ => None
    end.
Proof.
  induction l1 as [|r l1 IH]; cbn [app MacosCompat.build_clean_json]; cbv zeta.
  - destruct (MacosCompat.build_clean_json l2); reflexivity.
  - destruct (MacosCompat.should_include_os _) as [keep|]; [|reflexivity].
    rewrite IH.
    destruct (MacosCompat.build_clean_json l1) as [out1|]; [|reflexivity].
    destruct (MacosCompat.build_clean_json l2) as [out2|]; [|reflexivity].
    destruct keep; reflexivity.
Qed.

End More.

(** X14.  In every record of the output of the Xcode pipeline the macOS
    requirement is empty, a range "a - b" of two version tokens, a strictly
    dotted token with "+" behind it, or one version token; no platform
    stands twice in the SDKs; and every SDK version is one, two or three runs
    of digits with dots between them. *)
Theorem all_data_fields :
  forall (U : Unicode) (doc : list XcodeReleases.table),
    match XcodeReleases.all_data doc with
    | Some out =>
        Forall (fun r =>
                  requirement_shape (XcodeReleases.macos_version r) /\
                  NoDup (map fst (XcodeReleases.sdks r)) /\
                  Forall (fun kv => dotted_numeric (snd kv))
                         (XcodeReleases.sdks r))
               out
    | None => True
    end.
Proof.
  intros U doc. unfold XcodeReleases.all_data.
  destruct (XcodeReleases.find_xcode_tables doc) as [ts|]; [|exact I].
  destruct (XcodeReleases.parse_tables ts) as [out|] eqn:E; [|exact I].
  now apply xcode_parse_tables_fields in E.
Qed.

(** X15.  A category label needs its colon: a fragment without a colon is
    not split by [split_category_labels], which returns it whole, trimmed of
    whitespace, spaces and commas, or returns nothing when it is blank. *)
Theorem split_category_labels_no_colon :
  forall (U : Unicode) (text : str),
    ~ In (ord ":") text ->
    MacosCompat.split_category_labels text
    = if MacosCompat.nonempty (strip text)
      then [strip_chars (lit " ,") (strip text)]
      else [].
Proof.
  intros U text N. unfold MacosCompat.split_category_labels. cbv zeta.
  cbn [MacosCompat.split_labels]. rewrite search_label_none; [reflexivity|].
  intros I. apply N. now apply strip_by_incl in I.
Qed.

(** The theorem at " MacBook Air (M1 or later), ". *)
Lemma split_category_labels_no_colon_witness :
  ~ In (ord ":") (lit " MacBook Air (M1 or later), ") /\
  @MacosCompat.split_category_labels ascii_only
    (lit " MacBook Air (M1 or later), ")
  = [lit "MacBook Air (M1 or later)"].
Proof.
  assert (N : ~ In (ord ":") (lit " MacBook Air (M1 or later), ")).
  { intros I. simpl in I.
    repeat (destruct I as [I | I]; [discriminate I|]). exact I. }
  split; [exact N|].
  exact (@split_category_labels_no_colon ascii_only
           (lit " MacBook Air (M1 or later), ") N).
Defined.

(** X16.  A row whose OS text has no decimal digit never reaches the output
    of [build_clean_json]: its normalised text fails the inclusion filter,
    and the rows around it are treated as without it.  The result is the
    records of the rows before it followed by those of the rows after it,
    and an exception is raised only when the rows before it or the rows after
    it raise one. *)
Theorem build_clean_json_no_digit :
  forall (U : Unicode) (before after : list MacosCompat.row)
         (r : MacosCompat.row),
    no_digit (MacosCompat.os r) = true ->
    MacosCompat.build_clean_json (before ++ r :: after)
    = match MacosCompat.build_clean_json before,
            MacosCompat.build_clean_json after with
      | Some out1, Some out2 => Some (out1 ++ out2)
      | _, _ => None
      end.
Proof.
  intros U before after r H. rewrite build_clean_json_app.
  cbn [MacosCompat.build_clean_json]. cbv zeta.
  rewrite normalize_os_no_digit by now apply no_digit_strip.
  destruct (MacosCompat.build_clean_json before) as [out1|]; [|reflexivity].
  destruct (MacosCompat.build_clean_json after); reflexivity.
Qed.

(** The theorem at a row "Classic Mac OS" between two rows. *)
Lemma build_clean_json_no_digit_witness :
  @no_digit ascii_only (lit "Classic Mac OS") = true /\
  @MacosCompat.build_clean_json ascii_only
    ([MacosCompat.Row (lit "macOS 11 Big Sur") [lit "iMac"]]
     ++ MacosCompat.Row (lit "Classic Mac OS") [lit "Macintosh"]
     :: [MacosCompat.Row (lit "10.8") [lit "MacBook"]])
  = Some [MacosCompat.Row (lit "11") [lit "iMac"];
          MacosCompat.Row (lit "10.8") [lit "MacBook"]].
Proof.
  split; [reflexivity|].
  exact (@build_clean_json_no_digit ascii_only
           [MacosCompat.Row (lit "macOS 11 Big Sur") [lit "iMac"]]
           [MacosCompat.Row (lit "10.8") [lit "MacBook"]]
           (MacosCompat.Row (lit "Classic Mac OS") [lit "Macintosh"])
           eq_refl).
Defined.

End MoreFacts.

(** * Growing lists, the "+" of a requirement, and distinct columns *)

Module MoreFacts2.
Import Py Spec PyFacts PyGreedy StripFacts SearchFacts GroupFacts Consume.
Import HeaderFacts MacosDedup XcodeFields XcodeMacos.

Lemma dedup_app (l1 l2 : list str) :
  forall seen,
    MacosCompat.dedup seen (l1 ++ l2)
    = MacosCompat.dedup seen l1 ++ MacosCompat.dedup (l1 ++ seen) l2.
Proof.
  induction l1 as [|s l1 IH]; intros seen; simpl; [reflexivity|].
  destruct (existsb (str_eqb s) seen) eqn:E.
  - rewrite IH. f_equal. apply dedup_ext. intros x.
    apply mem_str in E. simpl. rewrite !in_app_iff.
    split; [tauto|]. intros [<- | H]; tauto.
  - simpl. f_equal. rewrite IH. f_equal. apply dedup_ext. intros x.
    simpl. rewrite !in_app_iff. simpl. tauto.
Qed.

Lemma last_index_from_some (p : str -> bool) (l : list str) :
  forall i j,
    last_index_from p i l = Some j ->
    exists h, nth_error l (j - i) = Some h /\ p h = true /\ i <= j.
Proof.
  induction l as [|h t IH]; intros i j; simpl; [discriminate|].
  destruct (last_index_from p (S i) t) as [k|] eqn:E.
  - intros [= <-]. destruct (IH _ _ E) as (h' & N & P & L).
    exists h'. replace (k - i) with (S (k - S i)) by lia. simpl.
    repeat split; auto; lia.
  - destruct (p h) eqn:P; [|discriminate]. intros [= <-].
    exists h. rewrite Nat.sub_diag. auto.
Qed.

Lemma last_index_disjoint (p q : str -> bool) (l : list str) (i j : nat) :
  (forall h, p h = true -> q h = false) ->
  last_index p l = Some i -> last_index q l = Some j -> i <> j.
Proof.
  intros D Hp Hq E. subst j. unfold last_index in *.
  apply last_index_from_some in Hp as (h & N & P & _).
  apply last_index_from_some in Hq as (h' & N' & Q & _).
  rewrite N in N'. injection N' as <-. rewrite (D _ P) in Q. discriminate.
Qed.

(** The characters that the classes of a pattern admit all satisfy [q]. *)
Fixpoint classes_within (q : char -> bool) (r : regex) : Prop :=
  match r with
  | Eps | WordB => True
  | Class p => forall c, p c = true -> q c = true
  | Seq a b | Alt a b => classes_within q a /\ classes_within q b
  | Star a | Group _ a => classes_within q a
  end.

Lemma lang_within (q : char -> bool) (r : regex) (w : str) :
  lang r w -> classes_within q r -> forallb q w = true.
Proof.
  induction 1; simpl; intros C; try reflexivity.
  - rewrite (C _ H). reflexivity.
  - destruct C. rewrite forallb_app, IHlang1, IHlang2; auto.
  - destruct C. auto.
  - destruct C. auto.
  - rewrite forallb_app, IHlang1, IHlang2; auto.
  - auto.
Qed.

Section More2.
Context {U : Unicode}.

Definition version_char (c : char) : bool :=
  isdecimal c || (c =? ord ".")%N || (c =? ord "x")%N.

Ltac within_classes :=
  cbn [classes_within]; repeat split; intros c H; unfold version_char;
  first [ rewrite H; reflexivity
        | apply N.eqb_eq in H; subst c; reflexivity ].

Lemma version_x_within : classes_within version_char XcodeReleases.version_x.
Proof.
  unfold XcodeReleases.version_x, XcodeReleases.digits, XcodeReleases.dot,
    Plus, Opt, Ch.
  within_classes.
Qed.

Lemma version_dotted_within :
  classes_within version_char XcodeReleases.version_dotted.
Proof.
  unfold XcodeReleases.version_dotted, XcodeReleases.digits,
    XcodeReleases.dot, Plus, Opt, Ch.
  within_classes.
Qed.

Lemma version_no_plus (w : str) :
  forallb version_char w = true -> ~ In (ord "+") w.
Proof.
  rewrite forallb_forall. intros H I. specialize (H _ I).
  vm_compute in H. discriminate.
Qed.

Lemma is_os_not_sup (h : str) : is_os h = true -> is_sup h = false.
Proof.
  unfold is_os, is_sup. destruct (lower h) as [|c t]; [discriminate|].
  cbn [lit startswith map list_ascii_of_string].
  destruct (N.eqb_spec (N_of_ascii "o") c) as [<- | D]; [|discriminate].
  reflexivity.
Qed.

End More2.

(** X17.  Further raw items do not disturb what [clean_supported_systems]
    has produced: the result for a longer list starts with the result for
    the shorter one, and goes on with exactly the entries of the further
    items that are new. *)
Theorem clean_supported_systems_app :
  forall (U : Unicode) (items more : list str),
    exists extra,
      MacosCompat.clean_supported_systems (items ++ more)
      = MacosCompat.clean_supported_systems items ++ extra /\
      forall x,
        In x extra <->
        In x (MacosCompat.clean_supported_systems more) /\
        ~ In x (MacosCompat.clean_supported_systems items).
Proof.
  intros U items more. unfold MacosCompat.clean_supported_systems.
  unfold MacosCompat.cleaned_tokens at 1. rewrite flat_map_app.
  fold (MacosCompat.cleaned_tokens items).
  fold (MacosCompat.cleaned_tokens more).
  rewrite dedup_app.
  exists (MacosCompat.dedup (MacosCompat.cleaned_tokens items ++ [])
                            (MacosCompat.cleaned_tokens more)).
  split; [reflexivity|].
  intros x. rewrite !dedup_in, app_nil_r. simpl. tauto.
Qed.

(** X18.  [parse_macos_versions] puts a "+" into its result only for a text
    that says "or later", in any letter case. *)
Theorem parse_macos_versions_plus :
  forall (U : Unicode) (text : str),
    In (ord "+") (XcodeReleases.parse_macos_versions text) ->
    contains (lit "or later")
             (lower (XcodeReleases.clean_version_text text)) = true.
Proof.
  intros U text. unfold XcodeReleases.parse_macos_versions. cbv zeta.
  change (Seq WordB (Seq (Group 1 XcodeReleases.version_dotted) WordB))
    with dotted_token.
  change (Seq WordB (Seq (Group 1 XcodeReleases.version_x) WordB))
    with (token_of XcodeReleases.version_x).
  set (c := XcodeReleases.clean_version_text text).
  assert (X : forall w, lang XcodeReleases.version_x w -> ~ In (ord "+") w).
  { intros w L. apply version_no_plus.
    apply (@lang_within version_char _ _ L version_x_within). }
  assert (D : forall w, lang XcodeReleases.version_dotted w ->
                        ~ In (ord "+") w).
  { intros w L. apply version_no_plus.
    apply (@lang_within version_char _ _ L version_dotted_within). }
  destruct (search XcodeReleases.macos_range c) as [m|] eqn:S1.
  { apply search_at_macos_range in S1 as (a & b & La & Lb & <- & <-).
    rewrite !in_app_iff. intros [I | [I | I]].
    - now apply X in I.
    - simpl in I. repeat (destruct I as [I | I]; [discriminate I|]).
      contradiction.
    - now apply X in I. }
  destruct (contains (lit "or later") (lower c)); [reflexivity|].
  destruct (search (token_of XcodeReleases.version_x) c) as [m|] eqn:S2.
  { apply search_token_of in S2 as (w & G & L).
    unfold XcodeReleases.group_text. rewrite G. intros I. now apply X in I. }
  destruct (XcodeReleases.findall1 dotted_token c) as [|v vs] eqn:E;
    [contradiction|].
  intros I. exfalso. revert I. apply D. apply (@findall1_dotted U c).
  rewrite E. now left.
Qed.

(** The theorem at "macOS Sonoma 14.0 or later". *)
Lemma parse_macos_versions_plus_witness :
  In (ord "+")
     (@XcodeReleases.parse_macos_versions ascii_only
        (lit "macOS Sonoma 14.0 or later")) /\
  contains (lit "or later")
           (@lower ascii_only
              (@XcodeReleases.clean_version_text ascii_only
                 (lit "macOS Sonoma 14.0 or later"))) = true.
Proof.
  assert (I : In (ord "+")
                 (@XcodeReleases.parse_macos_versions ascii_only
                    (lit "macOS Sonoma 14.0 or later"))).
  { vm_compute. right. right. right. right. now left. }
  split; [exact I|].
  exact (@parse_macos_versions_plus ascii_only
           (lit "macOS Sonoma 14.0 or later") I).
Defined.

(** X19.  No column serves two roles: the columns that the row extractors
    choose for different roles are different columns. *)
Theorem header_roles_distinct :
  forall (U : Unicode),
    (forall headers i j,
        MacosCompat.header_indices headers = (Some i, Some j) -> i <> j) /\
    (forall headers ix im isd,
        XcodeReleases.header_indices headers = (Some ix, im, isd) ->
        im <> Some ix /\ isd <> Some ix /\
        (forall k, im = Some k -> isd <> Some k)).
Proof.
  intros U. split.
  - intros headers i j. rewrite macos_header_indices. intros [= Hi Hj].
    exact (@last_index_disjoint is_os is_sup headers i j
             is_os_not_sup Hi Hj).
  - intros headers ix im isd. rewrite xcode_header_indices.
    intros [= Hx Hm Hs]. subst im isd.
    assert (D1 : forall h, is_xcode h = true -> is_macos h = false).
    { intros h H. unfold is_macos. now rewrite H. }
    assert (D2 : forall h, is_xcode h = true -> is_sdk h = false).
    { intros h H. unfold is_sdk. now rewrite H. }
    assert (D3 : forall h, is_macos h = true -> is_sdk h = false).
    { intros h H. unfold is_sdk. rewrite H.
      now destruct (is_xcode h). }
    split; [|split].
    + intros E.
      exact (@last_index_disjoint is_xcode is_macos headers ix ix
               D1 Hx E eq_refl).
    + intros E.
      exact (@last_index_disjoint is_xcode is_sdk headers ix ix
               D2 Hx E eq_refl).
    + intros k Hk E.
      exact (@last_index_disjoint is_macos is_sdk headers k k
               D3 Hk E eq_refl).
Qed.

End MoreFacts2.
